(** * Search and filter engine of the session explorer

    A shallow embedding of the search helpers of [components/Explorer.tsx]
    ([normalizeText], [getLevenshteinDistance], [matchTerm],
    [evaluateBooleanQuery], [parseDurationToSeconds]) and of the filter and
    sort stages of the [Explorer] component, with the properties the
    specification states about them.

    Conventions.
    - A JavaScript string is the list of its UTF-16 code units, each an [N].
    - A JavaScript array is a list in index order: index 0 is the head,
      [push] appends at the end and [pop] removes the last element.
    - Code that may raise an exception returns an [outcome].
    - The functions of the host (case mapping, Unicode normalisation,
      [Number], [Date], [localeCompare]) are the fields of the class [Host];
      the development holds for every host. *)

From Stdlib Require Import ZArith NArith QArith Lqa List Bool Lia String Ascii.
From Stdlib Require Import Sorted Permutation.
From stdpp Require Import base option list gmap.

Set Default Proof Using "Type".
Local Open Scope N_scope.

(** ** Strings as lists of code units *)

Abbreviation jsstring := (list N) (only parsing).

(** ASCII literal of the development, as a JavaScript string. *)
Definition str (s : string) : jsstring :=
  List.map N_of_ascii (list_ascii_of_string s).

Definition cu_eqb (a b : N) : bool := N.eqb a b.

Definition inRange (lo hi c : N) : bool := (lo <=? c) && (c <=? hi).

(** The characters matched by [\s], which are also the ones [trim] removes:
    WhiteSpace and LineTerminator of ECMAScript. *)
Definition isWhiteSpace (c : N) : bool :=
  inRange 9 13 c || (c =? 32) || (c =? 160) || (c =? 5760)
  || inRange 8192 8202 c || (c =? 8232) || (c =? 8233) || (c =? 8239)
  || (c =? 8287) || (c =? 12288) || (c =? 65279).

(** The characters matched by [\w] (no [u] and no [i] flag): [A-Za-z0-9_]. *)
Definition isWordChar (c : N) : bool :=
  inRange 65 90 c || inRange 97 122 c || inRange 48 57 c || (c =? 95).

Fixpoint eqs (a b : jsstring) : bool :=
  match a, b with
  | [], [] => true
  | x :: a', y :: b' => cu_eqb x y && eqs a' b'
  | _, _ => false
  end.

(** [s.startsWith(p)] *)
Fixpoint startsWith (s p : jsstring) : bool :=
  match p, s with
  | [], _ => true
  | _ :: _, [] => false
  | x :: p', y :: s' => cu_eqb x y && startsWith s' p'
  end.

(** [s.includes(p)]: [p] occurs in [s] at some index. *)
Fixpoint includes (s p : jsstring) : bool :=
  startsWith s p ||
  match s with
  | [] => false
  | _ :: s' => includes s' p
  end.

Fixpoint dropWhile {A} (f : A -> bool) (l : list A) : list A :=
  match l with
  | [] => []
  | x :: l' => if f x then dropWhile f l' else l
  end.

Fixpoint takeWhile {A} (f : A -> bool) (l : list A) : list A :=
  match l with
  | [] => []
  | x :: l' => if f x then x :: takeWhile f l' else []
  end.

(** [s.trim()] *)
Definition trim (s : jsstring) : jsstring :=
  rev (dropWhile isWhiteSpace (rev (dropWhile isWhiteSpace s))).

(** Truthiness of a string: the empty string is the only falsy one. *)
Definition truthy (s : jsstring) : bool :=
  match s with [] => false | _ => true end.

(** [s.split(sep)] for a one-unit separator string. *)
Fixpoint splitOn (sep : N) (cur : jsstring) (s : jsstring) : list jsstring :=
  match s with
  | [] => [rev cur]
  | c :: s' =>
      if cu_eqb c sep then rev cur :: splitOn sep [] s'
      else splitOn sep (c :: cur) s'
  end.

Definition split (sep : N) (s : jsstring) : list jsstring := splitOn sep [] s.

(** [s.split(re)] for a regular expression [re] that matches a maximal
    non-empty run of the characters [isSep]: the pieces are the maximal runs
    of the other characters, with an empty piece in front when [s] starts
    with a separator and one at the end when it ends with one. [inSep] tells
    that the scan is inside a separator run, [cur] is the piece read so far,
    reversed. *)
Fixpoint splitRuns (isSep : N -> bool) (inSep : bool) (cur : jsstring)
  (s : jsstring) : list jsstring :=
  match s with
  | [] => [rev cur]
  | c :: s' =>
      if isSep c then
        if inSep then splitRuns isSep true [] s'
        else rev cur :: splitRuns isSep true [] s'
      else splitRuns isSep false (c :: cur) s'
  end.

(** [s.split(/\W+/)] *)
Definition split_nonword (s : jsstring) : list jsstring :=
  splitRuns (fun c => negb (isWordChar c)) false [] s.

(** [s.split(/\s+/)] *)
Definition split_white (s : jsstring) : list jsstring :=
  splitRuns isWhiteSpace false [] s.

(** [a < b] on strings: the order of the code units. *)
Fixpoint str_ltb (a b : jsstring) : bool :=
  match a, b with
  | _, [] => false
  | [], _ :: _ => true
  | x :: a', y :: b' => (x <? y) || ((x =? y) && str_ltb a' b')
  end.

Definition str_leb (a b : jsstring) : bool := negb (str_ltb b a).

(** [list.includes(x)] on an array of strings *)
Definition inList (x : jsstring) (l : list jsstring) : bool :=
  existsb (eqs x) l.

(** ** Exceptions *)

Inductive exn := TypeError.

Inductive outcome (A : Type) : Type :=
| Ret (a : A)
| Throw (e : exn).
Arguments Ret {A} a.
Arguments Throw {A} e.

Definition obind {A B} (m : outcome A) (k : A -> outcome B) : outcome B :=
  match m with
  | Ret a => k a
  | Throw e => Throw e
  end.

Notation "'do' x <- m ; k" := (obind m (fun x => k))
  (at level 10, x name, m at level 100, k at level 200).

(** [for (let i = lo; i < lo + n; i += 1) body] over a state. *)
Fixpoint forFrom {St} (lo n : nat) (body : nat -> St -> outcome St) (s : St)
  : outcome St :=
  match n with
  | O => Ret s
  | S n' => do s' <- body lo s; forFrom (S lo) n' body s'
  end.

(** ** Numbers

    A JavaScript number is [NaN] or an exact rational. Rounding to
    binary64, the infinities and the sign of zero are not represented; no
    function below depends on them for the inputs the theorems speak of. *)

Inductive jsnum := NaN | Num (q : Q).

Definition ofZ (z : Z) : jsnum := Num (inject_Z z).

Definition jadd (a b : jsnum) : jsnum :=
  match a, b with Num x, Num y => Num (x + y) | _, _ => NaN end.

Definition jsub (a b : jsnum) : jsnum :=
  match a, b with Num x, Num y => Num (x - y) | _, _ => NaN end.

Definition jmul (a b : jsnum) : jsnum :=
  match a, b with Num x, Num y => Num (x * y) | _, _ => NaN end.

Definition Qltb (x y : Q) : bool := negb (Qle_bool y x).

(** [a < b] and [a > b]: false as soon as an operand is [NaN]. *)
Definition jlt (a b : jsnum) : bool :=
  match a, b with Num x, Num y => Qltb x y | _, _ => false end.

Definition jgt (a b : jsnum) : bool := jlt b a.

Definition isNaN (a : jsnum) : bool :=
  match a with NaN => true | Num _ => false end.

(** [x || 0] on numbers: [NaN] and zero are falsy. *)
Definition orZero (a : jsnum) : jsnum :=
  match a with
  | NaN => ofZ 0
  | Num x => if Qeq_bool x 0 then ofZ 0 else a
  end.

(** ** The host

    [StringToCodePoints] and [CodePointsToString] are those of ECMAScript:
    a high surrogate followed by a low surrogate is one code point, any
    other code unit is a code point of its own. *)

Definition isHighSurrogate (c : N) : bool := inRange 55296 56319 c.
Definition isLowSurrogate (c : N) : bool := inRange 56320 57343 c.

Fixpoint StringToCodePoints (s : jsstring) : list N :=
  match s with
  | [] => []
  | h :: s' =>
      match s' with
      | l :: s'' =>
          if isHighSurrogate h && isLowSurrogate l
          then (65536 + (h - 55296) * 1024 + (l - 56320)) :: StringToCodePoints s''
          else h :: StringToCodePoints s'
      | [] => [h]
      end
  end.

Definition codePointUnits (cp : N) : jsstring :=
  if cp <? 65536 then [cp]
  else [55296 + (cp - 65536) / 1024; 56320 + (cp - 65536) mod 1024].

Definition CodePointsToString (l : list N) : jsstring :=
  List.concat (List.map codePointUnits l).

Class Host := {
  (** [toLowercase] of the Unicode default case conversion, on code points *)
  uc_toLowercase : list N -> list N;
  (** canonical decomposition (NFD) of the Unicode standard, on code points *)
  uc_NFD : list N -> list N;
  (** [Number(s)] *)
  host_Number : jsstring -> jsnum;
  (** time value of [new Date(year, month, day)], a local time *)
  host_DateLocal : jsnum -> jsnum -> jsnum -> jsnum;
  (** time value of [new Date(s)] *)
  host_DateParse : jsstring -> jsnum;
  (** [a.localeCompare(b)] *)
  host_localeCompare : jsstring -> jsstring -> jsnum
}.

(** What the laws of canonical decomposition read of the Unicode character
    database: the canonical combining class of a code point, 0 for a
    starter, and whether a code point has a canonical decomposition. *)
Class UnicodeData := {
  uc_ccc : N -> N;
  uc_decomposes : N -> bool
}.

(** ** Edit distance *)

Local Open Scope nat_scope.

(** A number of the distance table: a natural number, or [None] for NaN. *)
Abbreviation dnum := (option nat) (only parsing).

(** What a slot of the table holds: [null] (the fill value), a hole left by
    a write beyond the end of the row, or a number. *)
Inductive entry := Null | Hole | Number (v : dnum).

(** The value read at index [i] of a row, as a number: [null] counts for 0,
    a hole or an index outside the row reads [undefined], that is NaN. *)
Definition toNumber (e : option entry) : dnum :=
  match e with
  | Some Null => Some 0
  | Some (Number v) => v
  | Some Hole | None => None
  end.

(** [row[i] = e]: a write beyond the end extends the row. *)
Definition setAt (row : list entry) (i : nat) (e : entry) : list entry :=
  if i <? length row then <[i := e]> row
  else row ++ replicate (i - length row) Hole ++ [e].

(** [matrix[j]] used as an object: a TypeError when the row does not exist. *)
Definition getRow (m : list (list entry)) (j : nat) : outcome (list entry) :=
  match m !! j with
  | Some r => Ret r
  | None => Throw TypeError
  end.

Definition readCell (m : list (list entry)) (j i : nat) : outcome dnum :=
  do r <- getRow m j; Ret (toNumber (r !! i)).

Definition writeCell (m : list (list entry)) (j i : nat) (v : dnum)
  : outcome (list (list entry)) :=
  do r <- getRow m j; Ret (<[j := setAt r i (Number v)]> m).

Definition plus_d (x : dnum) (k : nat) : dnum :=
  match x with Some n => Some (n + k) | None => None end.

(** [Math.min(x, y, z)] *)
Definition min3 (x y z : dnum) : dnum :=
  match x, y, z with
  | Some a, Some b, Some c => Some (Nat.min (Nat.min a b) c)
  | _, _, _ => None
  end.

(** [a[i] === b[j]] on strings: an index outside the string reads
    [undefined], equal to itself only. *)
Definition strictEq (x y : option N) : bool :=
  match x, y with
  | Some c, Some d => cu_eqb c d
  | None, None => true
  | _, _ => false
  end.

Definition getLevenshteinDistance (a b : jsstring) : outcome dnum :=
  if length a =? 0 then Ret (Some (length b))
  else if length b =? 0 then Ret (Some (length a))
  else
    let matrix := replicate (length b + 1) (replicate (length a + 1) Null) in
    do matrix <- forFrom 0 (length a + 1)
                   (fun i m => writeCell m 0 i (Some i)) matrix;
    do matrix <- forFrom 0 (length b + 1)
                   (fun j m => writeCell m j 0 (Some j)) matrix;
    do matrix <- forFrom 1 (length b) (fun j m =>
                   forFrom 1 (length a) (fun i m =>
                     let indicator :=
                       if strictEq (a !! (i - 1)) (b !! (j - 1)) then 0 else 1 in
                     do left <- readCell m j (i - 1);
                     do up <- readCell m (j - 1) i;
                     do diag <- readCell m (j - 1) (i - 1);
                     writeCell m j i
                       (min3 (plus_d left 1) (plus_d up 1) (plus_d diag indicator)))
                     m) matrix;
    readCell matrix (length b) (length a).

(** The Levenshtein distance as a specification. An edit script turns [a]
    into [b] by keeping, substituting, deleting or inserting one character at
    a time; every step but keeping costs one. *)
Inductive edits : jsstring -> jsstring -> nat -> Prop :=
| edits_nil : edits [] [] 0
| edits_keep x a b n : edits a b n -> edits (x :: a) (x :: b) n
| edits_subst x y a b n : edits a b n -> edits (x :: a) (y :: b) (S n)
| edits_delete x a b n : edits a b n -> edits (x :: a) b (S n)
| edits_insert y a b n : edits a b n -> edits a (y :: b) (S n).

(** [d] is the Levenshtein distance of [a] and [b]: the cost of a cheapest
    edit script. *)
Definition is_levenshtein (a b : jsstring) (d : nat) : Prop :=
  edits a b d /\ forall n, edits a b n -> d <= n.

(** The classic recurrence. *)
Fixpoint levenshtein (a : jsstring) : jsstring -> nat :=
  match a with
  | [] => fun b => length b
  | x :: a' =>
      fix inner (b : jsstring) : nat :=
        match b with
        | [] => S (length a')
        | y :: b' =>
            Nat.min (Nat.min (S (inner b')) (S (levenshtein a' (y :: b'))))
                    (levenshtein a' b' + (if cu_eqb x y then 0 else 1))
        end
  end.

(** Invariants of the distance table: its shape, and what a slot holds. *)
Definition table_shape (la lb : nat) (m : list (list entry)) : Prop :=
  length m = lb + 1 /\ forall j r, m !! j = Some r -> length r = la + 1.

Definition cell_is (m : list (list entry)) (j i v : nat) : Prop :=
  exists r, m !! j = Some r /\ r !! i = Some (Number (Some v)).

(** The distance between the first [i] characters of [a] and the first [j]
    characters of [b]. *)
Definition prefixDistance (a b : jsstring) (i j : nat) : nat :=
  levenshtein (take i a) (take j b).

Section Search.
Context `{host : Host}.

(** [text.toLowerCase()] *)
Definition toLowerCase (s : jsstring) : jsstring :=
  CodePointsToString (uc_toLowercase (StringToCodePoints s)).

(** [text.normalize] with the form NFD *)
Definition normalizeNFD (s : jsstring) : jsstring :=
  CodePointsToString (uc_NFD (StringToCodePoints s)).

(** The class [[\u0300-\u036f]] of combining diacritical marks. *)
Definition isCombiningMark (c : N) : bool := inRange 768 879 c.

(** [text.replace] of every character of that class by nothing *)
Definition stripMarks (s : jsstring) : jsstring :=
  List.filter (fun c => negb (isCombiningMark c)) s.

Definition normalizeText (text : jsstring) : jsstring :=
  stripMarks (normalizeNFD (toLowerCase text)).

(** A Unicode scalar value: a code point that is no surrogate. *)
Definition isScalar (c : N) : bool :=
  (c <=? 1114111)%N && negb (inRange 55296 57343 c).

(** A well-formed string: each of its code points is a scalar value, that
    is, it has no unpaired surrogate. *)
Definition wellFormed (s : jsstring) : bool :=
  forallb isScalar (StringToCodePoints s).

Definition notMark (c : N) : bool := negb (isCombiningMark c).

Context `{data : UnicodeData}.

(** U+034F, the combining grapheme joiner: the one code point of the class
    of [isCombiningMark] whose canonical combining class is 0. It takes no
    part in canonical reordering itself and keeps the marks on its two sides
    from being reordered. *)
Definition graphemeJoiner : N := 847.

(** Two code points that follow each other are in canonical order unless
    the second has a combining class that is not 0 and is less than that of
    the first. *)
Definition canonicalPair (a b : N) : bool :=
  ((uc_ccc b =? 0) || (uc_ccc a <=? uc_ccc b))%N.

Fixpoint canonicallyOrdered (l : list N) : bool :=
  match l with
  | a :: l' =>
      match l' with
      | b :: _ => canonicalPair a b
      | [] => true
      end && canonicallyOrdered l'
  | [] => true
  end.

Definition fullyDecomposed (l : list N) : bool :=
  forallb (fun c => negb (uc_decomposes c)) l.

(** What the proof of idempotence takes from the Unicode standard, each law
    for texts of scalar values only. Case mapping and canonical
    decomposition keep scalar values scalar and are idempotent; decomposing
    a lowercase text and removing marks from a lowercase text leave it
    lowercase; a text is its own canonical decomposition exactly when none
    of its code points has a canonical decomposition and the code points
    are in canonical order; every code point of the class of
    [isCombiningMark] but the grapheme joiner has a combining class that is
    not 0; neither case mapping nor decomposition makes a grapheme
    joiner. *)
Class UnicodeLaws : Prop := {
  toLowercase_scalar l :
    forallb isScalar l = true -> forallb isScalar (uc_toLowercase l) = true;
  NFD_scalar l :
    forallb isScalar l = true -> forallb isScalar (uc_NFD l) = true;
  toLowercase_idempotent l :
    forallb isScalar l = true ->
    uc_toLowercase (uc_toLowercase l) = uc_toLowercase l;
  NFD_idempotent l :
    forallb isScalar l = true -> uc_NFD (uc_NFD l) = uc_NFD l;
  NFD_lowercase l :
    forallb isScalar l = true ->
    uc_toLowercase l = l -> uc_toLowercase (uc_NFD l) = uc_NFD l;
  strip_lowercase l :
    forallb isScalar l = true ->
    uc_toLowercase l = l ->
    uc_toLowercase (List.filter notMark l) = List.filter notMark l;
  NFD_fixed l :
    forallb isScalar l = true ->
    (uc_NFD l = l
     <-> fullyDecomposed l = true /\ canonicallyOrdered l = true);
  mark_class c :
    isCombiningMark c = true -> c <> graphemeJoiner -> (0 < uc_ccc c)%N;
  toLowercase_joiner l :
    forallb isScalar l = true ->
    In graphemeJoiner (uc_toLowercase l) -> In graphemeJoiner l;
  NFD_joiner l :
    forallb isScalar l = true ->
    In graphemeJoiner (uc_NFD l) -> In graphemeJoiner l
}.

(** *** Fuzzy term matcher *)

(** [Math.abs(x - y)] on lengths *)
Definition absDiff (x y : nat) : nat := (x - y) + (y - x).

(** [d <= threshold]: false on NaN *)
Definition dnum_le (d : dnum) (threshold : nat) : bool :=
  match d with Some n => n <=? threshold | None => false end.

(** The [for (const word of words)] loop of [matchTerm]: [true] when the
    loop returns, [false] when it runs to its end. *)
Fixpoint fuzzyLoop (words : list jsstring) (termNorm : jsstring)
  (threshold : nat) : outcome bool :=
  match words with
  | [] => Ret false
  | word :: rest =>
      if threshold <? absDiff (length word) (length termNorm)
      then fuzzyLoop rest termNorm threshold
      else
        do d <- getLevenshteinDistance word termNorm;
        if dnum_le d threshold then Ret true
        else fuzzyLoop rest termNorm threshold
  end.

Definition matchTerm (contentNormalized term : jsstring) : outcome bool :=
  let termNorm := normalizeText term in
  if includes contentNormalized termNorm then Ret true
  else if (3 <? length termNorm) && negb (includes termNorm [32%N]) then
    let words := split_nonword contentNormalized in
    let threshold := if length termNorm <=? 5 then 1 else 2 in
    fuzzyLoop words termNorm threshold
  else Ret false.

(** The fuzzy condition of the matcher, as the specification words it, for a
    normalized content and a normalized term: the term is longer than 3,
    passes the test [plain], and some word of the content has a length
    within the threshold of the term's and a Levenshtein distance to the term
    of at most the threshold. The specification asks [plain] to be the
    absence of internal white space; the code tests the absence of the space
    character. *)
Definition fuzzyCondition (plain : jsstring -> bool)
  (contentNormalized termNorm : jsstring) : bool :=
  let threshold := if length termNorm <=? 5 then 1 else 2 in
  (3 <? length termNorm) && plain termNorm
  && existsb (fun word =>
                (absDiff (length word) (length termNorm) <=? threshold)
                && (levenshtein word termNorm <=? threshold))
             (split_nonword contentNormalized).

(** No space character (U+0020) anywhere in the term. *)
Definition noSpace (t : jsstring) : bool :=
  forallb (fun c => negb (c =? 32)%N) t.

(** No white space character strictly inside the term. *)
Definition noInternalWhiteSpace (t : jsstring) : bool :=
  forallb (fun c => negb (isWhiteSpace c)) (removelast (tl t)).

(** What [matchTerm] decides, as a boolean. *)
Definition matches (contentNormalized term : jsstring) : bool :=
  includes contentNormalized (normalizeText term)
  || fuzzyCondition noSpace contentNormalized (normalizeText term).

(** *** Tokens of a query *)

(** The value of an operator token, [match[2].toUpperCase()]: one of the
    seven strings of the second group, in upper case. [LPAREN] and [RPAREN]
    are the parentheses, [PLUS] and [MINUS] the signs. *)
Inductive opname := LPAREN | RPAREN | OR | AND | NOT | PLUS | MINUS.

Inductive token :=
| TERM (value : jsstring)
| OP (value : opname).

Definition isDoubleQuote (c : N) : bool := (c =? 34)%N.

(** A character of the negated class of the third group: neither white
    space, nor a parenthesis, nor a double quote, nor a plus or minus sign. *)
Definition isTermChar (c : N) : bool :=
  negb (isWhiteSpace c || (c =? 40)%N || (c =? 41)%N || (c =? 34)%N
        || (c =? 43)%N || (c =? 45)%N).

(** An ASCII letter read under the [i] flag. *)
Definition letter (upper c : N) : bool := ((c =? upper) || (c =? upper + 32))%N.

(** First alternative, a quoted phrase, tried at the start of [s]: an
    opening double quote, one or more characters other than a double quote
    (the first group) and a closing double quote. The result is the phrase
    and the input after the closing quote. The greedy class stops at the
    next quote or at the end; giving characters back never helps, since a
    character given back is not a quote. *)
Definition matchPhrase (s : jsstring) : option (jsstring * jsstring) :=
  match s with
  | c :: s' =>
      if isDoubleQuote c then
        match takeWhile (fun d => negb (isDoubleQuote d)) s',
              dropWhile (fun d => negb (isDoubleQuote d)) s' with
        | (_ :: _) as phrase, _ :: rest => Some (phrase, rest)
        | _, _ => None
        end
      else None
  | [] => None
  end.

(** Second alternative, [(\(|\)|OR|AND|NOT|\+|\-)] under the [i] flag,
    tried at the start of [s]. *)
Definition matchOp (s : jsstring) : option (opname * jsstring) :=
  match s with
  | [] => None
  | c :: s1 =>
      if (c =? 40)%N then Some (LPAREN, s1)
      else if (c =? 41)%N then Some (RPAREN, s1)
      else
        match s1 with
        | c2 :: s2 =>
            if letter 79 c && letter 82 c2 then Some (OR, s2)
            else
              match s2 with
              | c3 :: s3 =>
                  if letter 65 c && letter 78 c2 && letter 68 c3
                  then Some (AND, s3)
                  else if letter 78 c && letter 79 c2 && letter 84 c3
                  then Some (NOT, s3)
                  else if (c =? 43)%N then Some (PLUS, s1)
                  else if (c =? 45)%N then Some (MINUS, s1)
                  else None
              | [] =>
                  if (c =? 43)%N then Some (PLUS, s1)
                  else if (c =? 45)%N then Some (MINUS, s1)
                  else None
              end
        | [] =>
            if (c =? 43)%N then Some (PLUS, s1)
            else if (c =? 45)%N then Some (MINUS, s1)
            else None
        end
  end.

(** Third alternative, one or more term characters, tried at the start of
    [s]. *)
Definition matchWord (s : jsstring) : option (jsstring * jsstring) :=
  match takeWhile isTermChar s with
  | [] => None
  | word => Some (word, dropWhile isTermChar s)
  end.

(** The [while ((match = regex.exec(query)) !== null)] loop. [exec] looks
    for the leftmost match from [lastIndex] on: at each index the three
    alternatives are tried in order, and when none matches the search moves
    one code unit on. Every match is at least one unit long, so [fuel]
    bounds the number of steps by the length of the input. *)
Fixpoint tokenizeFrom (fuel : nat) (s : jsstring) : list token :=
  match fuel with
  | O => []
  | S fuel' =>
      match s with
      | [] => []
      | _ :: s' =>
          match matchPhrase s with
          | Some (phrase, rest) => TERM phrase :: tokenizeFrom fuel' rest
          | None =>
              match matchOp s with
              | Some (op, rest) => OP op :: tokenizeFrom fuel' rest
              | None =>
                  match matchWord s with
                  | Some (word, rest) => TERM word :: tokenizeFrom fuel' rest
                  | None => tokenizeFrom fuel' s'
                  end
              end
          end
      end
  end.

Definition tokenize (query : jsstring) : list token :=
  tokenizeFrom (length query) query.

(** Whether the input starts with a character that continues a bare word. *)
Definition startsTerm (rest : jsstring) : bool :=
  match rest with
  | d :: _ => isTermChar d
  | [] => false
  end.

(** A query that is empty or made of white space only. *)
Definition isBlank (query : jsstring) : bool := negb (truthy (trim query)).

(** A plain term: a non-empty run of term characters that does not start
    with an operator word, so that the tokenizer reads it as one bare
    word. *)
Definition isPlainTerm (t : jsstring) : bool :=
  truthy t && forallb isTermChar t
  && match matchOp t with Some _ => false | None => true end.

(** The phrase [p] between double quotes. *)
Definition quoted (p : jsstring) : jsstring := 34%N :: p ++ [34%N].

(** *** Infix to postfix *)

(** [precedence[op]]; the closing parenthesis has no entry and reads
    [undefined]. *)
Definition precedence (op : opname) : option nat :=
  match op with
  | NOT | MINUS => Some 3
  | AND | PLUS => Some 2
  | OR => Some 1
  | LPAREN => Some 0
  | RPAREN => None
  end.

(** [x >= y] on table entries: false when one of them is [undefined]. *)
Definition prec_ge (x y : option nat) : bool :=
  match x, y with
  | Some a, Some b => b <=? a
  | _, _ => false
  end.

Definition opname_eqb (a b : opname) : bool :=
  match a, b with
  | LPAREN, LPAREN | RPAREN, RPAREN | OR, OR | AND, AND | NOT, NOT
  | PLUS, PLUS | MINUS, MINUS => true
  | _, _ => false
  end.

(** [while (stack.length > 0 && test(top)) outputQueue.push(OP stack.pop())],
    on the stack read from its top down. *)
Fixpoint popWhileTop (test : opname -> bool) (fromTop : list opname)
  (outputQueue : list token) : list token * list opname :=
  match fromTop with
  | [] => (outputQueue, [])
  | top :: below =>
      if test top then popWhileTop test below (outputQueue ++ [OP top])
      else (outputQueue, fromTop)
  end.

(** The same loop on the stack as an array, whose top is its last element. *)
Definition popWhile (test : opname -> bool) (operatorStack : list opname)
  (outputQueue : list token) : list token * list opname :=
  let (out, fromTop) := popWhileTop test (rev operatorStack) outputQueue in
  (out, rev fromTop).

(** One turn of [for (const token of tokens)]. *)
Definition shunt (st : list token * list opname) (tok : token)
  : list token * list opname :=
  let (outputQueue, operatorStack) := st in
  match tok with
  | TERM _ => (outputQueue ++ [tok], operatorStack)
  | OP LPAREN => (outputQueue, operatorStack ++ [LPAREN])
  | OP RPAREN =>
      let (out, ops) :=
        popWhile (fun top => negb (opname_eqb top LPAREN))
                 operatorStack outputQueue in
      (out, removelast ops)
  | OP v =>
      let (out, ops) :=
        popWhile (fun top => prec_ge (precedence top) (precedence v))
                 operatorStack outputQueue in
      (out, ops ++ [v])
  end.

Definition toPostfix (tokens : list token) : list token :=
  let (outputQueue, operatorStack) := fold_left shunt tokens ([], []) in
  fst (popWhile (fun _ => true) operatorStack outputQueue).

(** *** Postfix evaluation *)

(** [stack.pop()]: the last element, [undefined] on an empty array. *)
Definition pop {A} (stack : list A) : option A * list A :=
  (last stack, removelast stack).

(** One turn of [for (const token of outputQueue)]. *)
Definition evalToken (normalizedContent : jsstring) (evalStack : list bool)
  (tok : token) : outcome (list bool) :=
  match tok with
  | TERM value =>
      do m <- matchTerm normalizedContent value; Ret (evalStack ++ [m])
  | OP op =>
      match op with
      | NOT | MINUS =>
          let (a, st) := pop evalStack in
          Ret (st ++ [negb (default false a)])
      | _ =>
          let (b0, st1) := pop evalStack in
          let b := default false b0 in
          let (a0, st2) := pop st1 in
          let a := default false a0 in
          match op with
          | AND | PLUS => Ret (st2 ++ [a && b])
          | OR => Ret (st2 ++ [a || b])
          | _ => Ret st2
          end
      end
  end.

Fixpoint evalQueue (normalizedContent : jsstring) (outputQueue : list token)
  (evalStack : list bool) : outcome (list bool) :=
  match outputQueue with
  | [] => Ret evalStack
  | tok :: rest =>
      do st <- evalToken normalizedContent evalStack tok;
      evalQueue normalizedContent rest st
  end.

(** The evaluation stack when the last loop of [evaluateBooleanQuery] ends. *)
Definition finalEvalStack (content query : jsstring) : outcome (list bool) :=
  evalQueue (normalizeText content) (toPostfix (tokenize query)) [].

Definition evaluateBooleanQuery (content query : jsstring) : outcome bool :=
  if isBlank query then Ret true
  else
    do evalStack <- finalEvalStack content query;
    Ret (match evalStack !! 0 with Some v => v | None => false end).

End Search.

(** ** Numbers read from strings *)

Definition digitValue (radix c : N) : option N :=
  let v := if inRange 48 57 c then Some (c - 48)%N
           else if inRange 97 122 c then Some (c - 87)%N
           else if inRange 65 90 c then Some (c - 55)%N
           else None in
  match v with
  | Some d => if (d <? radix)%N then Some d else None
  | None => None
  end.

(** The value of the longest prefix of digits of [s], [None] when [s] does
    not start with a digit. *)
Fixpoint parseDigits (radix acc : N) (seen : bool) (s : jsstring) : option N :=
  match s with
  | [] => if seen then Some acc else None
  | c :: s' =>
      match digitValue radix c with
      | Some d => parseDigits radix (acc * radix + d)%N true s'
      | None => if seen then Some acc else None
      end
  end.

Definition signedValue (negative : bool) (digits : option N) : jsnum :=
  match digits with
  | None => NaN
  | Some v => ofZ (if negative then - Z.of_N v else Z.of_N v)
  end.

(** The sign of [parseInt]: whether the input starts with a minus sign, and
    the input after its sign. *)
Definition readSign (s : jsstring) : bool * jsstring :=
  match s with
  | c :: r => if (c =? 45)%N then (true, r)
              else if (c =? 43)%N then (false, r) else (false, s)
  | [] => (false, s)
  end.

(** [parseInt(s, 10)] *)
Definition parseInt10 (s : jsstring) : jsnum :=
  let (negative, body) := readSign (dropWhile isWhiteSpace s) in
  signedValue negative (parseDigits 10 0 false body).

(** [parseInt(s)]: radix 16 after the prefix 0x or 0X, radix 10 otherwise. *)
Definition parseInt (s : jsstring) : jsnum :=
  let (negative, body) := readSign (dropWhile isWhiteSpace s) in
  match body with
  | z :: x :: r =>
      if ((z =? 48) && ((x =? 120) || (x =? 88)))%N
      then signedValue negative (parseDigits 16 0 false r)
      else signedValue negative (parseDigits 10 0 false body)
  | _ => signedValue negative (parseDigits 10 0 false body)
  end.

(** ** Sessions, filters and tags *)

Inductive sessionType := AUDIO | SMS.

Record ParsedSession := {
  target : jsstring;
  sourceNumber : option jsstring;
  sourceName : option jsstring;
  destinationNumber : option jsstring;
  destinationName : option jsstring;
  sessionId : jsstring;
  date : jsstring;
  startTime : option jsstring;
  endTime : option jsstring;
  duration : option jsstring;
  type : sessionType;
  content : jsstring;
  legalReferenceIds : option (list jsstring)
}.

Record SavedTag := {
  tag_id : jsstring;
  tag_sessionIds : list jsstring
}.

(** Truthiness of an optional string: [undefined] and the empty string are
    falsy. *)
Definition truthyOpt (v : option jsstring) : bool :=
  match v with Some s => truthy s | None => false end.

Definition isAudio (t : sessionType) : bool :=
  match t with AUDIO => true | SMS => false end.

(** [array[i]] inside a template literal: an absent element prints as the
    word undefined. *)
Definition printed (v : option jsstring) : jsstring :=
  match v with Some s => s | None => str "undefined" end.

(** A session whose duration is absent or does not split into exactly two
    or three parts at the colons. *)
Definition hasNoDuration (dur : option jsstring) : bool :=
  match dur with
  | None => true
  | Some d =>
      negb ((length (split 58 d) =? 2) || (length (split 58 d) =? 3))
  end.

(** Stable sorting with a comparator, as [Array.prototype.sort] does when
    the comparator is consistent: [x] goes after [y] only when
    [cmp x y > 0]; a comparator result of NaN counts for zero. *)
Fixpoint insertSorted {A} (cmp : A -> A -> jsnum) (x : A) (l : list A) : list A :=
  match l with
  | [] => [x]
  | y :: l' => if jgt (cmp x y) (ofZ 0) then y :: insertSorted cmp x l'
               else x :: l
  end.

Definition sortWith {A} (cmp : A -> A -> jsnum) (l : list A) : list A :=
  List.fold_right (insertSorted cmp) [] l.

(** [x] may stand before [y]: the comparator does not put [x] after [y]. *)
Definition notAfter {A} (cmp : A -> A -> jsnum) (x y : A) : Prop :=
  jgt (cmp x y) (ofZ 0) = false.

(** [l.filter(p)] for a predicate that may throw *)
Fixpoint filterM {A} (p : A -> outcome bool) (l : list A) : outcome (list A) :=
  match l with
  | [] => Ret []
  | x :: l' =>
      do keep <- p x;
      do rest <- filterM p l';
      Ret (if keep then x :: rest else rest)
  end.

Section Durations.
Context `{host : Host}.

Definition parseDurationToSeconds (dur : option jsstring) : jsnum :=
  match dur with
  | None => ofZ 0
  | Some d =>
      if negb (truthy d) then ofZ 0
      else
        match List.map host_Number (split 58 d) with
        | [h; m; sec] => jadd (jadd (jmul h (ofZ 3600)) (jmul m (ofZ 60))) sec
        | [m; sec] => jadd (jmul m (ofZ 60)) sec
        | _ => ofZ 0
        end
  end.

End Durations.

(** ** The explorer with directional filters

    The filter and sort stages of the component whose filters name the
    source and the destination of a session separately. *)
Module Directional.

Record ActiveFilters := {
  f_session : jsstring;
  f_content : jsstring;
  f_dateStart : jsstring;
  f_dateEnd : jsstring;
  f_timeStart : jsstring;
  f_timeEnd : jsstring;
  f_sourceNumbers : list jsstring;
  f_destNumbers : list jsstring;
  f_sourceSpeakers : list jsstring;
  f_destSpeakers : list jsstring;
  f_minDuration : jsstring;
  f_maxDuration : jsstring
}.

Inductive SortOption :=
| date_desc | date_asc | source_num | dest_num | source_name | dest_name
| duration_desc.

(** [resolve(val)] over the alias table: [aliasMap[val] || val], and
    [undefined] for an absent or empty [val]. The table is read by the keys
    it has of its own; a name that a plain object inherits, for which the
    lookup of the code gives a member that is no string, is told apart by
    [resolveOnObject] below. *)
Definition resolve (aliasMap : gmap (list N) (list N)) (val : option jsstring)
  : option jsstring :=
  match val with
  | None => None
  | Some v =>
      if negb (truthy v) then None
      else
        match aliasMap !! v with
        | Some shown => if truthy shown then Some shown else Some v
        | None => Some v
        end
  end.

(** [x && list.includes(x)] for a resolved identity *)
Definition member (x : option jsstring) (l : list jsstring) : bool :=
  match x with
  | Some v => truthy v && inList v l
  | None => false
  end.

(** First character of a speaker name, [[A-Z]] or one of U+00C0..U+00DA. *)
Definition isNameStart (c : N) : bool := inRange 65 90 c || inRange 192 218 c.

(** Further characters of a speaker name: [[a-z]], U+00E0..U+00FA, a digit,
    an underscore, a minus sign or white space. *)
Definition isNameChar (c : N) : bool :=
  inRange 97 122 c || inRange 224 250 c || inRange 48 57 c
  || (c =? 95)%N || (c =? 45)%N || isWhiteSpace c.

(** First group of the speaker pattern matched at the start of a line: a
    name start, then between 1 and 30 name characters, then a colon. The
    colon is no name character, so the run of name characters has to end
    right before it. *)
Definition speakerPrefix (line : jsstring) : option jsstring :=
  match line with
  | c :: rest =>
      if isNameStart c then
        let run := takeWhile isNameChar rest in
        match dropWhile isNameChar rest with
        | d :: _ =>
            if ((d =? 58)%N && (1 <=? length run) && (length run <=? 30))%bool
            then Some (c :: run) else None
        | [] => None
        end
      else None
  | [] => None
  end.

Section Pipeline.
Context `{host : Host}.
Variable aliasMap : gmap (list N) (list N).

(** [parseDate(dateStr)]: the time value of the date, [None] for [null]. *)
Definition parseDate (dateStr : jsstring) : option jsnum :=
  match split 46 dateStr with
  | [d; m; y] =>
      Some (host_DateLocal (parseInt y) (jsub (parseInt m) (ofZ 1)) (parseInt d))
  | _ => None
  end.

Definition isTimeInRange (time : option jsstring) (start end_ : jsstring)
  : bool :=
  match time with
  | None => false
  | Some tm =>
      if negb (truthy tm) then false
      else
        let t := firstn 5 tm in
        if truthy start && truthy end_ then
          if str_leb start end_ then str_leb start t && str_leb t end_
          else str_leb start t || str_leb t end_
        else if truthy start then str_leb start t
        else if truthy end_ then str_leb t end_
        else true
  end.

(** Each stage below is one [if (...) return false] block of the callback of
    [baseSet.filter]; it is [true] when the block does not return. *)

Definition durationStage (f : ActiveFilters) (s : ParsedSession) : bool :=
  if truthy (f_minDuration f) || truthy (f_maxDuration f) then
    if negb (isAudio (type s)) then false
    else
      let durationSec := parseDurationToSeconds (duration s) in
      if truthy (f_minDuration f)
         && (let minS := parseInt10 (f_minDuration f) in
             negb (isNaN minS) && jlt durationSec minS)
      then false
      else if truthy (f_maxDuration f)
              && (let maxS := parseInt10 (f_maxDuration f) in
                  negb (isNaN maxS) && jgt durationSec maxS)
      then false
      else true
  else true.

Definition sourceNumberStage (f : ActiveFilters) (s : ParsedSession) : bool :=
  match f_sourceNumbers f with
  | [] => true
  | _ => member (resolve aliasMap (sourceNumber s)) (f_sourceNumbers f)
  end.

Definition destNumberStage (f : ActiveFilters) (s : ParsedSession) : bool :=
  match f_destNumbers f with
  | [] => true
  | _ => member (resolve aliasMap (destinationNumber s)) (f_destNumbers f)
  end.

Definition sourceSpeakerStage (f : ActiveFilters) (s : ParsedSession) : bool :=
  match f_sourceSpeakers f with
  | [] => true
  | _ =>
      let matchName := member (resolve aliasMap (sourceName s)) (f_sourceSpeakers f) in
      let matchNum := member (resolve aliasMap (sourceNumber s)) (f_sourceSpeakers f) in
      let contentMatch :=
        if negb matchName && negb matchNum then
          let firstLine := hd [] (split 10 (content s)) in
          match speakerPrefix firstLine with
          | Some name =>
              match resolve aliasMap (Some (trim name)) with
              | Some shown => inList shown (f_sourceSpeakers f)
              | None => false
              end
          | None => false
          end
        else false in
      matchName || matchNum || contentMatch
  end.

Definition destSpeakerStage (f : ActiveFilters) (s : ParsedSession) : bool :=
  match f_destSpeakers f with
  | [] => true
  | _ =>
      member (resolve aliasMap (destinationName s)) (f_destSpeakers f)
      || member (resolve aliasMap (destinationNumber s)) (f_destSpeakers f)
  end.

Definition sessionIdStage (f : ActiveFilters) (s : ParsedSession) : bool :=
  if truthy (f_session f) then
    existsb (fun t => includes (toLowerCase (sessionId s)) (toLowerCase (trim t)))
            (split 44 (f_session f))
  else true.

Definition contentStage (f : ActiveFilters) (s : ParsedSession) : outcome bool :=
  if truthy (f_content f) then evaluateBooleanQuery (content s) (f_content f)
  else Ret true.

Definition dateStage (f : ActiveFilters) (s : ParsedSession) : bool :=
  if truthy (f_dateStart f) || truthy (f_dateEnd f) then
    match parseDate (date s) with
    | Some d =>
        negb ((truthy (f_dateStart f) && jlt d (host_DateParse (f_dateStart f)))
              || (truthy (f_dateEnd f) && jgt d (host_DateParse (f_dateEnd f))))
    | None => true
    end
  else true.

Definition timeStage (f : ActiveFilters) (s : ParsedSession) : bool :=
  if (truthy (f_timeStart f) || truthy (f_timeEnd f)) && truthyOpt (startTime s)
  then isTimeInRange (startTime s) (f_timeStart f) (f_timeEnd f)
  else true.

(** The callback of [baseSet.filter]. *)
Definition keepSession (f : ActiveFilters) (s : ParsedSession) : outcome bool :=
  if negb (durationStage f s) then Ret false
  else if negb (sourceNumberStage f s) then Ret false
  else if negb (destNumberStage f s) then Ret false
  else if negb (sourceSpeakerStage f s) then Ret false
  else if negb (destSpeakerStage f s) then Ret false
  else if negb (sessionIdStage f s) then Ret false
  else
    do matched <- contentStage f s;
    if negb matched then Ret false
    else if negb (dateStage f s) then Ret false
    else if negb (timeStage f s) then Ret false
    else Ret true.

Definition filteredSessions (sessions : list ParsedSession)
  (activeFilters : ActiveFilters) (activeTagIds : list jsstring)
  (savedTags : list SavedTag) (viewOnlySelected : bool)
  (manualSelection : gset (list N)) : outcome (list ParsedSession) :=
  let baseSet :=
    match activeTagIds with
    | [] => sessions
    | _ =>
        let allowedIds : gset (list N) :=
          list_to_set
            (List.concat
               (List.map tag_sessionIds
                  (List.filter (fun t => inList (tag_id t) activeTagIds) savedTags))) in
        List.filter (fun s => bool_decide (sessionId s ∈ allowedIds)) sessions
    end in
  let baseSet :=
    if viewOnlySelected
    then List.filter (fun s => bool_decide (sessionId s ∈ manualSelection)) baseSet
    else baseSet in
  filterM (keepSession activeFilters) baseSet.

(** The sort key of the two date orders, [parseDate(x.date)?.getTime() || 0]. *)
Definition dateKey (s : ParsedSession) : jsnum :=
  orZero (match parseDate (date s) with Some t => t | None => NaN end).

(** Two sessions with the same date key. *)
Definition sameDate (a b : ParsedSession) : bool :=
  match dateKey a, dateKey b with
  | Num x, Num y => Qeq_bool x y
  | _, _ => false
  end.

(** [resolve(x) || ''] *)
Definition shown (v : option jsstring) : jsstring :=
  match resolve aliasMap v with Some x => x | None => [] end.

(** [resolve(x) || resolve(y) || ''] *)
Definition shownOr (v w : option jsstring) : jsstring :=
  match resolve aliasMap v with
  | Some x => x
  | None => shown w
  end.

(** The comparator of [data.sort]. *)
Definition compareSessions (sortOption : SortOption) (a b : ParsedSession)
  : jsnum :=
  match sortOption with
  | date_desc => jsub (dateKey b) (dateKey a)
  | date_asc => jsub (dateKey a) (dateKey b)
  | duration_desc =>
      jsub (parseDurationToSeconds (duration b))
           (parseDurationToSeconds (duration a))
  | source_num =>
      host_localeCompare (shown (sourceNumber a)) (shown (sourceNumber b))
  | dest_num =>
      host_localeCompare (shown (destinationNumber a))
                         (shown (destinationNumber b))
  | source_name =>
      host_localeCompare (shownOr (sourceName a) (sourceNumber a))
                         (shownOr (sourceName b) (sourceNumber b))
  | dest_name =>
      host_localeCompare (shownOr (destinationName a) (destinationNumber a))
                         (shownOr (destinationName b) (destinationNumber b))
  end.

Definition sortedSessions (sortOption : SortOption)
  (filtered : list ParsedSession) : list ParsedSession :=
  sortWith (compareSessions sortOption) filtered.

(** The answer of the callback of [baseSet.filter], which never throws. *)
Definition keeps (f : ActiveFilters) (s : ParsedSession) : bool :=
  match keepSession f s with Ret b => b | Throw _ => false end.

End Pipeline.

(** The filters that [handleClearFilters] sets. *)
Definition clearedFilters : ActiveFilters :=
  {| f_session := []; f_content := []; f_dateStart := []; f_dateEnd := [];
     f_timeStart := []; f_timeEnd := [];
     f_sourceNumbers := []; f_destNumbers := [];
     f_sourceSpeakers := []; f_destSpeakers := [];
     f_minDuration := []; f_maxDuration := [] |}.

(** [handleSelectAll]: the new selection, [new Set(sortedSessions.map(s =>
    s.sessionId))]. *)
Definition handleSelectAll (sorted : list ParsedSession) : gset (list N) :=
  list_to_set (List.map sessionId sorted).

(** [deleteTag], once the user has confirmed: the new saved tags and the
    new active tag ids. *)
Definition deleteTag (id : jsstring) (savedTags : list SavedTag)
  (activeTagIds : list jsstring) : list SavedTag * list jsstring :=
  (List.filter (fun t => negb (eqs (tag_id t) id)) savedTags,
   if inList id activeTagIds
   then List.filter (fun tid => negb (eqs tid id)) activeTagIds
   else activeTagIds).

(** [saveTag]: the saved tags after it, [None] when it stops at a blank
    name. [now] is the text of the clock reading that becomes the id of the
    tag, [selection] the selected ids as [Array.from(manualSelection)] lists
    them, and [sorted] the listing. The name, the time stamp and the
    description of the tag are not read by any filter and are left out of
    [SavedTag]. *)
Definition saveTag (now tagName : jsstring) (selection : list jsstring)
  (sorted : list ParsedSession) (savedTags : list SavedTag)
  : option (list SavedTag) :=
  if negb (truthy (trim tagName)) then None
  else
    let idsToSave :=
      if 0 <? length selection then selection
      else List.map sessionId sorted in
    Some ({| tag_id := now; tag_sessionIds := idsToSave |} :: savedTags).

(** [prev.includes(id) ? prev.filter(x => x !== id) : [...prev, id]], the
    state update of [toggle] in the identity manager and of [toggleOption]
    in the dropdowns. *)
Definition toggle (id : jsstring) (prev : list jsstring) : list jsstring :=
  if inList id prev then List.filter (fun x => negb (eqs x id)) prev
  else prev ++ [id].

(** [toggleTag]: the new active tag ids; nothing changes for the tag that
    is being edited. *)
Definition toggleTag (editingTagId : option jsstring) (id : jsstring)
  (activeTagIds : list jsstring) : list jsstring :=
  match editingTagId with
  | Some e => if eqs e id then activeTagIds else toggle id activeTagIds
  | None => toggle id activeTagIds
  end.

(** [newMap[id] = targetName] on the copy that [handleMerge] makes of the
    alias table with a spread. The copy is an ordinary object, so that the
    key __proto__ names its prototype: assigning a string to it does
    nothing. *)
Definition setAlias (targetName : jsstring) (newMap : gmap (list N) (list N))
  (id : jsstring) : gmap (list N) (list N) :=
  if eqs id (str "__proto__") then newMap else <[id := targetName]> newMap.

(** [handleMerge]: the table that is saved, [None] when the function
    returns without saving. *)
Definition handleMerge (aliasMap : gmap (list N) (list N))
  (selected : list jsstring) (targetName : jsstring)
  : option (gmap (list N) (list N)) :=
  if negb (truthy (trim targetName)) || (length selected =? 0) then None
  else Some (fold_left (setAlias targetName) selected aliasMap).

End Directional.

(** ** The entries of the dropdowns *)

(** [set.add(v)] on a set that is read back with [Array.from], which lists
    the elements in the order in which they were first added. *)
Definition addOnce (set : list jsstring) (v : jsstring) : list jsstring :=
  if inList v set then set else set ++ [v].

(** The comparison of [sort()] without a comparator, on strings: the order
    of the code units. *)
Definition defaultCompare (a b : jsstring) : jsnum :=
  if str_ltb a b then ofZ (-1) else if str_ltb b a then ofZ 1 else ofZ 0.

(** [Array.from(set).sort()] for the values [added] to an empty set, in
    the order of the calls of [add]. *)
Definition sortedSet (added : list jsstring) : list jsstring :=
  sortWith defaultCompare (fold_left addOnce added []).

Section Dropdowns.
Variable aliasMap : gmap (list N) (list N).

(** [if (v) set.add(resolve(v))]: what one field adds. *)
Definition resolvedField (v : option jsstring) : list jsstring :=
  match Directional.resolve aliasMap v with Some x => [x] | None => [] end.

(** [if (v) rawSet.add(v)] *)
Definition rawField (v : option jsstring) : list jsstring :=
  match v with Some x => if truthy x then [x] else [] | None => [] end.

(** The names that the scan of the content finds, one for each line that
    starts as a speaker line does, trimmed. *)
Definition speakerNames (s : ParsedSession) : list jsstring :=
  List.concat
    (List.map (fun line => match Directional.speakerPrefix line with
                           | Some name => [trim name]
                           | None => []
                           end)
              (split 10 (content s))).

(** What one turn of [sessions.forEach] adds to [numbers], to [speakers]
    and to [rawSet], in the order of the calls. *)
Definition numbersOf (s : ParsedSession) : list jsstring :=
  resolvedField (Some (target s)) ++ resolvedField (sourceNumber s)
  ++ resolvedField (destinationNumber s).

Definition speakersOf (s : ParsedSession) : list jsstring :=
  resolvedField (sourceName s) ++ resolvedField (destinationName s)
  ++ List.concat (List.map (fun name => resolvedField (Some name)) (speakerNames s)).

Definition rawOf (s : ParsedSession) : list jsstring :=
  rawField (Some (target s)) ++ rawField (sourceNumber s)
  ++ rawField (destinationNumber s) ++ rawField (sourceName s)
  ++ rawField (destinationName s) ++ speakerNames s.

(** The names of the members that every plain object inherits from
    [Object.prototype]. The alias table is a plain object, so that
    [aliasMap[val]] finds such a member, a function or an object and no
    string, when [val] is one of these names and no key of the table. *)
Definition inheritedKeys : list jsstring :=
  List.map str
    ["constructor"; "hasOwnProperty"; "isPrototypeOf"; "propertyIsEnumerable";
     "toLocaleString"; "toString"; "valueOf"; "__proto__"; "__defineGetter__";
     "__defineSetter__"; "__lookupGetter__"; "__lookupSetter__"]%string.

(** What [aliasMap[val] || val] evaluates to on the plain object: a
    string, or the member inherited under the name [val]. *)
Inductive resolved :=
| AString (s : jsstring)
| AMember (name : jsstring).

(** [resolve(val)] on the plain object. *)
Definition resolveOnObject (val : option jsstring) : option resolved :=
  match val with
  | None => None
  | Some v =>
      if negb (truthy v) then None
      else
        match aliasMap !! v with
        | Some shown => Some (AString (if truthy shown then shown else v))
        | None =>
            if inList v inheritedKeys then Some (AMember v)
            else Some (AString v)
        end
  end.

(** A field that the alias table resolves to a string: it is absent, or a
    key of the table, or the name of no inherited member. *)
Definition plainKey (v : option jsstring) : bool :=
  match v with
  | Some x =>
      match aliasMap !! x with
      | Some _ => true
      | None => negb (inList x inheritedKeys)
      end
  | None => true
  end.

(** The five fields of a session that the dropdowns resolve. *)
Definition identityFields (s : ParsedSession) : list (option jsstring) :=
  [Some (target s); sourceNumber s; destinationNumber s; sourceName s;
   destinationName s].

Definition plainIdentities (s : ParsedSession) : bool :=
  forallb plainKey (identityFields s).

Definition allNumbers (sessions : list ParsedSession) : list jsstring :=
  sortedSet (List.concat (List.map numbersOf sessions)).

Definition allSpeakers (sessions : list ParsedSession) : list jsstring :=
  sortedSet (List.concat (List.map speakersOf sessions)).

Definition rawIdentities (sessions : list ParsedSession) : list jsstring :=
  sortedSet (List.concat (List.map rawOf sessions)).

End Dropdowns.

(** ** Times of day *)

(** A time of day and its text [HH:MM], two decimal digits each. *)
Record timeOfDay := { hour : N; minute : N }.

Definition validTime (t : timeOfDay) : Prop := (hour t < 24 /\ minute t < 60)%N.

Definition clock (t : timeOfDay) : jsstring :=
  [48 + hour t / 10; 48 + hour t mod 10; 58;
   48 + minute t / 10; 48 + minute t mod 10]%N.

Definition minuteOfDay (t : timeOfDay) : N := (60 * hour t + minute t)%N.

(** ** The session store of the application *)

(** The key under which [appendSessions] knows a session: target, session
    id and date with minus signs between them. *)
Definition sessionKey (s : ParsedSession) : jsstring :=
  target s ++ str "-" ++ sessionId s ++ str "-" ++ date s.

(** The state update of [appendSessions]. *)
Definition appendSessions (newSessions prev : list ParsedSession)
  : list ParsedSession :=
  let existingKeys : gset (list N) := list_to_set (List.map sessionKey prev) in
  let uniqueNew :=
    List.filter (fun s => negb (bool_decide (sessionKey s ∈ existingKeys)))
                newSessions in
  prev ++ uniqueNew.


(** ** The explorer with legal references

    The filter and sort stages of the component that links sessions to legal
    references. Its content filter is a plain conjunction of words. *)
Module Legal.

(** A legal reference, as far as the filter reads it: its id and its label. *)
Record LegalReference := {
  ref_id : jsstring;
  ref_label : jsstring
}.

Record ActiveFilters := {
  f_session : jsstring;
  f_content : jsstring;
  f_dateStart : jsstring;
  f_dateEnd : jsstring;
  f_timeStart : jsstring;
  f_timeEnd : jsstring;
  f_sourceNumbers : list jsstring;
  f_destNumbers : list jsstring;
  f_sourceSpeakers : list jsstring;
  f_destSpeakers : list jsstring;
  f_minDuration : jsstring;
  f_maxDuration : jsstring;
  f_legalArticle : list jsstring;
  f_legalFact : list jsstring;
  f_legalTag : list jsstring
}.

Section Pipeline.
Context `{host : Host}.
Variable aliasMap : gmap (list N) (list N).
Variable legalReferences : list LegalReference.

Definition resolve := Directional.resolve aliasMap.

(** [getSeconds(dur)] *)
Definition getSeconds (dur : jsstring) : jsnum :=
  match List.map host_Number (split 58 dur) with
  | [h; m; sec] => jadd (jadd (jmul h (ofZ 3600)) (jmul m (ofZ 60))) sec
  | [m; sec] => jadd (jmul m (ofZ 60)) sec
  | _ => ofZ 0
  end.

Definition tagStage (activeTagIds : list jsstring) (savedTags : list SavedTag)
  (s : ParsedSession) : bool :=
  match activeTagIds with
  | [] => true
  | _ =>
      existsb (fun tag => inList (tag_id tag) activeTagIds
                          && inList (sessionId s) (tag_sessionIds tag))
              savedTags
  end.

Definition selectionStage (viewOnlySelected : bool)
  (manualSelection : gset (list N)) (s : ParsedSession) : bool :=
  if viewOnlySelected then bool_decide (sessionId s ∈ manualSelection)
  else true.

Definition sessionIdStage (f : ActiveFilters) (s : ParsedSession) : bool :=
  if truthy (f_session f) then includes (sessionId s) (f_session f) else true.

Definition contentStage (f : ActiveFilters) (s : ParsedSession) : bool :=
  if truthy (f_content f) then
    let terms := split_white (toLowerCase (f_content f)) in
    let contentLower := toLowerCase (content s) in
    forallb (fun term => includes contentLower term) terms
  else true.

Definition dateStage (f : ActiveFilters) (s : ParsedSession) : bool :=
  if truthy (f_dateStart f) || truthy (f_dateEnd f) then
    match split 46 (date s) with
    | [d; m; y] =>
        let sessDate := host_DateParse (y ++ [45%N] ++ m ++ [45%N] ++ d) in
        if truthy (f_dateStart f) && jlt sessDate (host_DateParse (f_dateStart f))
        then false
        else if truthy (f_dateEnd f) && jgt sessDate (host_DateParse (f_dateEnd f))
        then false
        else true
    | _ => true
    end
  else true.

Definition timeStage (f : ActiveFilters) (s : ParsedSession) : bool :=
  if truthy (f_timeStart f) || truthy (f_timeEnd f) then
    match startTime s with
    | Some t =>
        if truthy t then
          if truthy (f_timeStart f) && str_ltb t (f_timeStart f) then false
          else if truthy (f_timeEnd f) && str_ltb (f_timeEnd f) t then false
          else true
        else true
    | None => true
    end
  else true.

Definition durationStage (f : ActiveFilters) (s : ParsedSession) : bool :=
  if truthy (f_minDuration f) || truthy (f_maxDuration f) then
    match duration s with
    | Some dur =>
        if negb (isAudio (type s)) || negb (truthy dur) then false
        else
          let sec := getSeconds dur in
          if truthy (f_minDuration f) && jlt sec (parseInt (f_minDuration f))
          then false
          else if truthy (f_maxDuration f) && jgt sec (parseInt (f_maxDuration f))
          then false
          else true
    | None => false
    end
  else true.

Definition identityStage (wanted : list jsstring) (raw : option jsstring)
  : bool :=
  match wanted with
  | [] => true
  | _ => Directional.member (resolve raw) wanted
  end.

(** [legalReferences.find(r => r.id === id)?.label] *)
Definition labelOf (id : jsstring) : option jsstring :=
  match List.find (fun r => eqs (ref_id r) id) legalReferences with
  | Some r => Some (ref_label r)
  | None => None
  end.

Definition legalStage (wanted : list jsstring) (s : ParsedSession) : bool :=
  match wanted with
  | [] => true
  | _ =>
      match legalReferenceIds s with
      | None => false
      | Some ids =>
          let sessionLabels := List.map labelOf ids in
          existsb (fun label =>
                     existsb (fun l => match l with
                                       | Some x => eqs x label
                                       | None => false
                                       end) sessionLabels)
                  wanted
      end
  end.

(** The callback of [sessions.filter]. *)
Definition keepSession (f : ActiveFilters) (activeTagIds : list jsstring)
  (savedTags : list SavedTag) (viewOnlySelected : bool)
  (manualSelection : gset (list N)) (s : ParsedSession) : bool :=
  if negb (tagStage activeTagIds savedTags s) then false
  else if negb (selectionStage viewOnlySelected manualSelection s) then false
  else if negb (sessionIdStage f s) then false
  else if negb (contentStage f s) then false
  else if negb (dateStage f s) then false
  else if negb (timeStage f s) then false
  else if negb (durationStage f s) then false
  else if negb (identityStage (f_sourceNumbers f) (sourceNumber s)) then false
  else if negb (identityStage (f_destNumbers f) (destinationNumber s)) then false
  else if negb (identityStage (f_sourceSpeakers f) (sourceName s)) then false
  else if negb (identityStage (f_destSpeakers f) (destinationName s)) then false
  else if negb (legalStage (f_legalArticle f) s) then false
  else if negb (legalStage (f_legalFact f) s) then false
  else if negb (legalStage (f_legalTag f) s) then false
  else true.

Definition filteredSessions (sessions : list ParsedSession)
  (activeFilters : ActiveFilters) (activeTagIds : list jsstring)
  (savedTags : list SavedTag) (viewOnlySelected : bool)
  (manualSelection : gset (list N)) : list ParsedSession :=
  List.filter
    (keepSession activeFilters activeTagIds savedTags viewOnlySelected
                 manualSelection)
    sessions.

(** [parseDate(d)] of the date orders, a closure of the comparator: it reads
    the start time of [a], the first argument of the comparator, whichever
    session [d] is the date of. *)
Definition parseDate (a : ParsedSession) (d : jsstring) : jsnum :=
  let p := split 46 d in
  let time := match startTime a with
              | Some t => if truthy t then t else str "00:00:00"
              | None => str "00:00:00"
              end in
  host_DateParse (printed (p !! 2%nat) ++ [45%N] ++ printed (p !! 1%nat)
                  ++ [45%N] ++ printed (p !! 0%nat) ++ [84%N] ++ time).

(** The comparator of the two date orders; [descending] tells which. *)
Definition compareByDate (descending : bool) (a b : ParsedSession) : jsnum :=
  let dateA := parseDate a (date a) in
  let dateB := parseDate a (date b) in
  if descending then jsub dateB dateA else jsub dateA dateB.

(** [x || ''] on an optional string *)
Definition orEmpty (v : option jsstring) : jsstring :=
  match v with Some x => x | None => [] end.

(** The comparator of [sort]. *)
Definition compareSessions (sortOption : Directional.SortOption)
  (a b : ParsedSession) : jsnum :=
  match sortOption with
  | Directional.date_desc => compareByDate true a b
  | Directional.date_asc => compareByDate false a b
  | Directional.duration_desc =>
      host_localeCompare (orEmpty (duration b)) (orEmpty (duration a))
  | Directional.source_num =>
      host_localeCompare (orEmpty (resolve (sourceNumber a)))
                         (orEmpty (resolve (sourceNumber b)))
  | Directional.dest_num =>
      host_localeCompare (orEmpty (resolve (destinationNumber a)))
                         (orEmpty (resolve (destinationNumber b)))
  | Directional.source_name =>
      host_localeCompare (orEmpty (resolve (sourceName a)))
                         (orEmpty (resolve (sourceName b)))
  | Directional.dest_name =>
      host_localeCompare (orEmpty (resolve (destinationName a)))
                         (orEmpty (resolve (destinationName b)))
  end.

Definition sortedSessions (sortOption : Directional.SortOption)
  (filtered : list ParsedSession) : list ParsedSession :=
  sortWith (compareSessions sortOption) filtered.

End Pipeline.

(** [ids.forEach(id => existing.add(id))] on a set that is read back with
    [Array.from]: a set lists its elements in the order in which they were
    first added. *)
Fixpoint addAll (existing ids : list jsstring) : list jsstring :=
  match ids with
  | [] => existing
  | id :: rest => addAll (if inList id existing then existing else existing ++ [id]) rest
  end.

(** [s.legalReferenceIds || []] *)
Definition linkedIds (s : ParsedSession) : list jsstring :=
  match legalReferenceIds s with Some l => l | None => [] end.

(** [{ ...s, legalReferenceIds: ids }] *)
Definition withLegalReferenceIds (s : ParsedSession) (ids : list jsstring)
  : ParsedSession :=
  {| target := target s; sourceNumber := sourceNumber s;
     sourceName := sourceName s; destinationNumber := destinationNumber s;
     destinationName := destinationName s; sessionId := sessionId s;
     date := date s; startTime := startTime s; endTime := endTime s;
     duration := duration s; type := type s; content := content s;
     legalReferenceIds := Some ids |}.

(** The sessions after [linkLegalReference], for the ids [idsToLink] that
    it has found for the chosen labels: the sessions as they were when
    nothing is selected or no id was found. *)
Definition linkLegalReference (manualSelection : gset (list N))
  (idsToLink : list jsstring) (prev : list ParsedSession)
  : list ParsedSession :=
  if (size manualSelection =? 0) || (length idsToLink =? 0) then prev
  else
    List.map (fun s =>
      if bool_decide (sessionId s ∈ manualSelection) then
        let existing := addAll [] (linkedIds s) in
        withLegalReferenceIds s (addAll existing idsToLink)
      else s) prev.

(** The sessions after [unlinkLegalReference]. *)
Definition unlinkLegalReference (id refId : jsstring)
  (prev : list ParsedSession) : list ParsedSession :=
  List.map (fun s =>
    match legalReferenceIds s with
    | Some ids =>
        if eqs (sessionId s) id
        then withLegalReferenceIds s
               (List.filter (fun i => negb (eqs i refId)) ids)
        else s
    | None => s
    end) prev.

End Legal.

(** ** A reference host

    An excerpt of the tables of a host whose local time zone is UTC, used to
    run the functions above on concrete inputs: case mapping of Basic Latin,
    Latin-1 and Deseret, canonical decomposition of the Latin-1 letters,
    [Number] on decimal integers, the proleptic Gregorian calendar, the ISO
    date formats, and the order of the code units for [localeCompare]. *)
Module RefHost.

Definition lower_cp (c : N) : N :=
  if inRange 65 90 c then (c + 32)%N
  else if inRange 192 222 c && negb (c =? 215)%N then (c + 32)%N
  else if inRange 66560 66599 c then (c + 40)%N
  else c.

(** Canonical decompositions of the capital letters of Latin-1: the letter,
    its base letter and its combining mark. *)
Definition latin1Decompositions : list (N * (N * N)) :=
  [ (192, (65, 768)); (193, (65, 769)); (194, (65, 770)); (195, (65, 771));
    (196, (65, 776)); (197, (65, 778)); (199, (67, 807)); (200, (69, 768));
    (201, (69, 769)); (202, (69, 770)); (203, (69, 776)); (204, (73, 768));
    (205, (73, 769)); (206, (73, 770)); (207, (73, 776)); (209, (78, 771));
    (210, (79, 768)); (211, (79, 769)); (212, (79, 770)); (213, (79, 771));
    (214, (79, 776)); (217, (85, 768)); (218, (85, 769)); (219, (85, 770));
    (220, (85, 776)); (221, (89, 769)) ]%N.

Fixpoint lookupN {A} (k : N) (l : list (N * A)) : option A :=
  match l with
  | [] => None
  | (k', v) :: l' => if (k =? k')%N then Some v else lookupN k l'
  end.

Definition decompose_cp (c : N) : list N :=
  if (c =? 255)%N then [121; 776]%N
  else if inRange 224 254 c then
    match lookupN (c - 32)%N latin1Decompositions with
    | Some (base, mark) => [(base + 32)%N; mark]
    | None => [c]
    end
  else
    match lookupN c latin1Decompositions with
    | Some (base, mark) => [base; mark]
    | None => [c]
    end.

Definition isDigit (c : N) : bool := inRange 48 57 c.

(** [Number(s)] for an optional sign and decimal digits between white
    space; the empty string counts for zero. The other numeric literals are
    left out: they read as NaN here. *)
Definition number (s : jsstring) : jsnum :=
  match trim s with
  | [] => ofZ 0
  | body =>
      let (negative, digits) := readSign body in
      if forallb isDigit digits then
        signedValue negative (parseDigits 10 0 false digits)
      else NaN
  end.

(** Days from 1 January 1970 to the given day of the proleptic Gregorian
    calendar; [m] counts from 1. *)
Definition daysFromCivil (y m d : Z) : Z :=
  let y' := (if m <=? 2 then y - 1 else y)%Z in
  let era := (y' / 400)%Z in
  let yoe := (y' - era * 400)%Z in
  let mp := (if m <=? 2 then m + 9 else m - 3)%Z in
  let doy := ((153 * mp + 2) / 5 + d - 1)%Z in
  let doe := (yoe * 365 + yoe / 4 - yoe / 100 + doy)%Z in
  (era * 146097 + doe - 719468)%Z.

(** [ToIntegerOrInfinity] on a finite number *)
Definition truncate (q : Q) : Z := Z.quot (Qnum q) (Zpos (Qden q)).

Definition msPerDay : Z := 86400000.

(** [TimeClip] *)
Definition timeClip (t : Z) : jsnum :=
  if (Z.abs t <=? 8640000000000000)%Z then ofZ t else NaN.

(** [MakeDay(year, month, date)] times the length of a day *)
Definition makeDayMs (y m d : Z) : Z :=
  let ym := (y + m / 12)%Z in
  let mn := (m mod 12)%Z in
  ((daysFromCivil ym (mn + 1) 1 + d - 1) * msPerDay)%Z.

(** [new Date(year, month, day)]: a year from 0 to 99 stands for 1900 plus
    that year. *)
Definition dateLocal (year month day : jsnum) : jsnum :=
  match year, month, day with
  | Num y, Num m, Num d =>
      let yi := truncate y in
      let yr := (if (0 <=? yi) && (yi <=? 99) then 1900 + yi else yi)%Z in
      timeClip (makeDayMs yr (truncate m) (truncate d))
  | _, _, _ => NaN
  end.

Definition digitsValue (s : jsstring) : option Z :=
  if forallb isDigit s then
    match parseDigits 10 0 false s with
    | Some v => Some (Z.of_N v)
    | None => None
    end
  else None.

(** The time within the day of [HH:mm:ss], in milliseconds. *)
Definition timeOfDayMs (s : jsstring) : option Z :=
  match split 58 s with
  | [h; m; sec] =>
      match digitsValue h, digitsValue m, digitsValue sec with
      | Some hh, Some mm, Some ss =>
          if ((length h =? 2) && (length m =? 2) && (length sec =? 2)
              && (hh <=? 24)%Z && (mm <=? 59)%Z && (ss <=? 59)%Z)%bool
          then Some ((hh * 3600 + mm * 60 + ss) * 1000)%Z else None
      | _, _, _ => None
      end
  | _ => None
  end.

(** The day of [YYYY-MM-DD], in milliseconds from the epoch. *)
Definition isoDayMs (s : jsstring) : option Z :=
  match split 45 s with
  | [y; m; d] =>
      match digitsValue y, digitsValue m, digitsValue d with
      | Some yy, Some mm, Some dd =>
          if ((length y =? 4) && (length m =? 2) && (length d =? 2)
              && (1 <=? mm)%Z && (mm <=? 12)%Z && (1 <=? dd)%Z
              && (dd <=? 31)%Z)%bool
          then Some (makeDayMs yy (mm - 1) dd) else None
      | _, _, _ => None
      end
  | _ => None
  end.

(** [new Date(s)] for the formats [YYYY-MM-DD] and [YYYY-MM-DDTHH:mm:ss];
    any other string is an invalid date here. *)
Definition dateParse (s : jsstring) : jsnum :=
  match split 84 s with
  | [day] =>
      match isoDayMs day with Some t => timeClip t | None => NaN end
  | [day; time] =>
      match isoDayMs day, timeOfDayMs time with
      | Some t, Some u => timeClip (t + u)
      | _, _ => NaN
      end
  | _ => NaN
  end.

Definition localeCompare (a b : jsstring) : jsnum :=
  if str_ltb a b then ofZ (-1) else if str_ltb b a then ofZ 1 else ofZ 0.

#[export] Instance refHost : Host := {|
  uc_toLowercase := List.map lower_cp;
  uc_NFD := fun l => List.concat (List.map decompose_cp l);
  host_Number := number;
  host_DateLocal := dateLocal;
  host_DateParse := dateParse;
  host_localeCompare := localeCompare
|}.

(** The canonical combining classes of the combining diacritical marks
    U+0300..U+036F and of the Hebrew points U+05B0..U+05BD, as the Unicode
    character database gives them: a first code point, a last one and the
    class of the code points between them. A code point outside these
    ranges counts as a starter here. *)
Definition combiningClasses : list (N * N * N) :=
  [ (768, 788, 230); (789, 789, 232); (790, 793, 220); (794, 794, 232);
    (795, 795, 216); (796, 800, 220); (801, 802, 202); (803, 806, 220);
    (807, 808, 202); (809, 819, 220); (820, 824, 1); (825, 828, 220);
    (829, 836, 230); (837, 837, 240); (838, 838, 230); (839, 841, 220);
    (842, 844, 230); (845, 846, 220); (847, 847, 0); (848, 850, 230);
    (851, 854, 220); (855, 855, 230); (856, 856, 232); (857, 858, 220);
    (859, 859, 230); (860, 860, 233); (861, 862, 234); (863, 863, 233);
    (864, 865, 234); (866, 866, 233); (867, 879, 230); (1456, 1456, 10);
    (1457, 1457, 11); (1458, 1458, 12); (1459, 1459, 13); (1460, 1460, 14);
    (1461, 1461, 15); (1462, 1462, 16); (1463, 1463, 17); (1464, 1464, 18);
    (1465, 1466, 19); (1467, 1467, 20); (1468, 1468, 21); (1469, 1469, 22) ]%N.

Fixpoint classIn (table : list (N * N * N)) (c : N) : N :=
  match table with
  | [] => 0%N
  | (lo, hi, class) :: table' =>
      if inRange lo hi c then class else classIn table' c
  end.

Definition ccc (c : N) : N := classIn combiningClasses c.

Definition decomposes (c : N) : bool :=
  match decompose_cp c with
  | [d] => negb (d =? c)%N
  | _ => true
  end.

#[export] Instance refData : UnicodeData := {|
  uc_ccc := ccc;
  uc_decomposes := decomposes
|}.

(** One step of the canonical ordering algorithm: the code point [c] moves
    to the right past the marks after it whose combining class is less than
    its own, and past no starter. *)
Fixpoint pushMark (c : N) (after : list N) : list N :=
  match after with
  | d :: rest =>
      if ((0 <? ccc d) && (ccc d <? ccc c))%N then d :: pushMark c rest
      else c :: after
  | [] => [c]
  end.

(** The canonical ordering algorithm: a stable sort, by combining class,
    of every run of code points whose class is not 0. *)
Definition canonicalOrder (l : list N) : list N :=
  List.fold_right pushMark [] l.

(** The reference host with a canonical decomposition that puts the marks
    in canonical order. *)
Definition orderingHost : Host := {|
  uc_toLowercase := List.map lower_cp;
  uc_NFD := fun l => canonicalOrder (List.concat (List.map decompose_cp l));
  host_Number := number;
  host_DateLocal := dateLocal;
  host_DateParse := dateParse;
  host_localeCompare := localeCompare
|}.

End RefHost.


(** ** Well-formed queries

    Boolean expressions over terms, written the way the query language is
    meant to be used: NOT binds tighter than AND, AND tighter than OR, the
    binary operators group to the left, and parentheses are put where this
    reading needs them, or where the user likes ([EParen]). [sym] chooses the
    sign spelling of an operator: a minus sign for NOT, a plus sign for
    AND. *)
Inductive expr :=
| ETerm (t : jsstring)
| EParen (e : expr)
| ENot (sym : bool) (e : expr)
| EAnd (sym : bool) (a b : expr)
| EOr (a b : expr).

(** The binding strength of the outermost operator of an expression. *)
Definition strength (e : expr) : nat :=
  match e with
  | ETerm _ | EParen _ => 4
  | ENot _ _ => 3
  | EAnd _ _ _ => 2
  | EOr _ _ => 1
  end.

(** The text of an expression where an operand of binding strength [lvl] at
    least is expected: weaker expressions are put in parentheses. *)
Fixpoint render (lvl : nat) (e : expr) : jsstring :=
  let body :=
    match e with
    | ETerm t => t
    | EParen e1 => str "(" ++ render 1 e1 ++ str ")"
    | ENot sym e1 => (if sym then str "-" else str "NOT ") ++ render 4 e1
    | EAnd sym a b =>
        render 2 a ++ (if sym then str " + " else str " AND ") ++ render 3 b
    | EOr a b => render 1 a ++ str " OR " ++ render 2 b
    end in
  if strength e <? lvl then str "(" ++ body ++ str ")" else body.

(** The tokens of that text. *)
Fixpoint renderTokens (lvl : nat) (e : expr) : list token :=
  let body :=
    match e with
    | ETerm t => [TERM t]
    | EParen e1 => [OP LPAREN] ++ renderTokens 1 e1 ++ [OP RPAREN]
    | ENot sym e1 => [OP (if sym then MINUS else NOT)] ++ renderTokens 4 e1
    | EAnd sym a b =>
        renderTokens 2 a ++ [OP (if sym then PLUS else AND)] ++ renderTokens 3 b
    | EOr a b => renderTokens 1 a ++ [OP OR] ++ renderTokens 2 b
    end in
  if strength e <? lvl then [OP LPAREN] ++ body ++ [OP RPAREN] else body.

(** The postfix form of an expression. *)
Fixpoint postfix (e : expr) : list token :=
  match e with
  | ETerm t => [TERM t]
  | EParen e1 => postfix e1
  | ENot sym e1 => postfix e1 ++ [OP (if sym then MINUS else NOT)]
  | EAnd sym a b => postfix a ++ postfix b ++ [OP (if sym then PLUS else AND)]
  | EOr a b => postfix a ++ postfix b ++ [OP OR]
  end.

(** Every term of the expression is a plain term. *)
Fixpoint allPlain (e : expr) : bool :=
  match e with
  | ETerm t => isPlainTerm t
  | EParen e1 | ENot _ e1 => allPlain e1
  | EAnd _ a b | EOr a b => allPlain a && allPlain b
  end.

(** The operators a stack holds are at least as strong as [lvl]. *)
Definition allStrong (lvl : nat) (pending : list opname) : Prop :=
  Forall (fun op => prec_ge (precedence op) (Some lvl) = true) pending.

(** The top of the stack, if any, is weaker than [lvl]: an operator of that
    strength pops nothing from the stack. *)
Definition weakTop (lvl : nat) (operatorStack : list opname) : Prop :=
  match last operatorStack with
  | Some top => prec_ge (precedence top) (Some lvl) = false
  | None => True
  end.

(** What it means for the conversion loop to turn the tokens [toks] of an
    operand of strength [lvl] into the postfix form [post]: from every state
    whose stack top is weaker than [lvl] the loop leaves the stack as it
    was, under operators of the operand that wait for their second
    argument, and has written [post] but for those. *)
Definition shuntsTo (lvl : nat) (toks post : list token) : Prop :=
  forall outputQueue operatorStack,
    weakTop lvl operatorStack ->
    exists out pending,
      fold_left shunt toks (outputQueue, operatorStack) =
        (out, operatorStack ++ pending)
      /\ out ++ List.map OP (rev pending) = outputQueue ++ post
      /\ allStrong lvl pending.

Section Meaning.
Context `{host : Host}.

(** The boolean an expression stands for on a normalized content. *)
Fixpoint meaning (normalizedContent : jsstring) (e : expr) : bool :=
  match e with
  | ETerm t => matches normalizedContent t
  | EParen e1 => meaning normalizedContent e1
  | ENot _ e1 => negb (meaning normalizedContent e1)
  | EAnd _ a b => meaning normalizedContent a && meaning normalizedContent b
  | EOr a b => meaning normalizedContent a || meaning normalizedContent b
  end.

End Meaning.

(** ** Sample data *)

(** A session with the given id, date, start time, duration, type and
    content, and nothing else. *)
Definition sampleSession (id dateStr : string) (start dur : option string)
  (t : sessionType) (text : string) : ParsedSession := {|
  target := str "9100";
  sourceNumber := None;
  sourceName := None;
  destinationNumber := None;
  destinationName := None;
  sessionId := str id;
  date := str dateStr;
  startTime := option_map str start;
  endTime := None;
  duration := option_map str dur;
  type := t;
  content := str text;
  legalReferenceIds := None
|}.

Definition morningCall : ParsedSession :=
  sampleSession "S1" "05.01.2024" (Some "09:00:00"%string)
    (Some "00:02:00"%string) AUDIO "bom dia".

Definition eveningCall : ParsedSession :=
  sampleSession "S2" "05.01.2024" (Some "21:30:00"%string)
    (Some "00:10:00"%string) AUDIO "boa noite".

Definition textMessage : ParsedSession :=
  sampleSession "S3" "06.01.2024" (Some "10:00:00"%string) None SMS "ate logo".

Definition callWithoutDuration : ParsedSession :=
  sampleSession "S4" "07.01.2024" (Some "11:00:00"%string) None AUDIO
    "sem duracao".

(** Filters that are all empty but for the two duration bounds. *)
Definition durationFilters (minDuration maxDuration : string)
  : Directional.ActiveFilters := {|
  Directional.f_session := [];
  Directional.f_content := [];
  Directional.f_dateStart := [];
  Directional.f_dateEnd := [];
  Directional.f_timeStart := [];
  Directional.f_timeEnd := [];
  Directional.f_sourceNumbers := [];
  Directional.f_destNumbers := [];
  Directional.f_sourceSpeakers := [];
  Directional.f_destSpeakers := [];
  Directional.f_minDuration := str minDuration;
  Directional.f_maxDuration := str maxDuration
|}.

Definition legalDurationFilters (minDuration maxDuration : string)
  : Legal.ActiveFilters := {|
  Legal.f_session := [];
  Legal.f_content := [];
  Legal.f_dateStart := [];
  Legal.f_dateEnd := [];
  Legal.f_timeStart := [];
  Legal.f_timeEnd := [];
  Legal.f_sourceNumbers := [];
  Legal.f_destNumbers := [];
  Legal.f_sourceSpeakers := [];
  Legal.f_destSpeakers := [];
  Legal.f_minDuration := str minDuration;
  Legal.f_maxDuration := str maxDuration;
  Legal.f_legalArticle := [];
  Legal.f_legalFact := [];
  Legal.f_legalTag := []
|}.

(** The query joao AND (maria OR -pedro). *)
Definition sampleQuery : expr :=
  EAnd false (ETerm (str "joao"))
    (EOr (ETerm (str "maria")) (ENot true (ETerm (str "pedro")))).

Definition sampleReference : Legal.LegalReference :=
  {| Legal.ref_id := str "R1"; Legal.ref_label := str "Art. 21" |}.

(** A call between two numbers, with a speaker line in its transcript, and
    an alias table that gives a name to one of the numbers. *)
Definition namedCall : ParsedSession := {|
  target := str "9100";
  sourceNumber := Some (str "9200");
  sourceName := None;
  destinationNumber := Some (str "9100");
  destinationName := Some (str "Rui");
  sessionId := str "S5";
  date := str "08.01.2024";
  startTime := Some (str "12:00:00");
  endTime := None;
  duration := Some (str "00:01:00");
  type := AUDIO;
  content := str "Joao: bom dia";
  legalReferenceIds := None
|}.

Definition sampleAliases : gmap (list N) (list N) :=
  <[str "9200" := str "Ana"]> ∅.
(** * Properties *)

(** ** The outcome monad and its loops *)

Lemma forFrom_invariant {St} (P : nat -> St -> Prop) (n lo : nat)
  (body : nat -> St -> outcome St) (s : St) :
  P lo s ->
  (forall k t, lo <= k < lo + n -> P k t ->
               exists t', body k t = Ret t' /\ P (S k) t') ->
  exists t, forFrom lo n body s = Ret t /\ P (lo + n) t.
Proof.
  revert lo s. induction n as [|n IH]; intros lo s Hs Hstep; simpl.
  - exists s. split; [reflexivity|]. now replace (lo + 0) with lo by lia.
  - destruct (Hstep lo s) as (t' & Hb & Ht'); [lia|assumption|].
    rewrite Hb. simpl.
    destruct (IH (S lo) t' Ht') as (t & Hf & Ht).
    + intros k u Hk Hu. apply Hstep; [lia|assumption].
    + exists t. split; [assumption|].
      now replace (lo + S n) with (S lo + n) by lia.
Qed.

(** ** Edit distance *)

Lemma levenshtein_nil_l b : levenshtein [] b = length b.
Proof. reflexivity. Qed.

Lemma levenshtein_nil_r a : levenshtein a [] = length a.
Proof. destruct a; reflexivity. Qed.

Lemma levenshtein_cons x a y b :
  levenshtein (x :: a) (y :: b) =
  Nat.min (Nat.min (S (levenshtein (x :: a) b)) (S (levenshtein a (y :: b))))
          (levenshtein a b + (if cu_eqb x y then 0 else 1)).
Proof. reflexivity. Qed.

Lemma cu_eqb_eq x y : cu_eqb x y = true <-> x = y.
Proof. unfold cu_eqb. apply N.eqb_eq. Qed.

Lemma cu_eqb_refl x : cu_eqb x x = true.
Proof. now apply cu_eqb_eq. Qed.

Lemma edits_delete_all a : edits a [] (length a).
Proof. induction a; simpl; [constructor|now apply edits_delete]. Qed.

Lemma edits_insert_all b : edits [] b (length b).
Proof. induction b; simpl; [constructor|now apply edits_insert]. Qed.

(** The recurrence is the cost of an edit script. *)
Lemma edits_levenshtein a b : edits a b (levenshtein a b).
Proof.
  revert b. induction a as [|x a IHa]; intros b.
  - apply edits_insert_all.
  - induction b as [|y b IHb].
    + rewrite levenshtein_nil_r. apply edits_delete_all.
    + rewrite levenshtein_cons.
      destruct (Nat.min_dec (Nat.min (S (levenshtein (x :: a) b))
                                     (S (levenshtein a (y :: b))))
                            (levenshtein a b + (if cu_eqb x y then 0 else 1)))
        as [E|E]; rewrite E.
      * destruct (Nat.min_dec (S (levenshtein (x :: a) b))
                              (S (levenshtein a (y :: b)))) as [F|F]; rewrite F.
        -- now apply edits_insert.
        -- apply edits_delete, IHa.
      * destruct (cu_eqb x y) eqn:Exy.
        -- apply cu_eqb_eq in Exy. subst y. rewrite Nat.add_0_r.
           apply edits_keep, IHa.
        -- replace (levenshtein a b + 1) with (S (levenshtein a b)) by lia.
           apply edits_subst, IHa.
Qed.

Lemma levenshtein_cons_l x a b : levenshtein (x :: a) b <= S (levenshtein a b).
Proof.
  destruct b as [|y b].
  - rewrite !levenshtein_nil_r. simpl. lia.
  - rewrite levenshtein_cons. lia.
Qed.

Lemma levenshtein_cons_r y a b : levenshtein a (y :: b) <= S (levenshtein a b).
Proof.
  destruct a as [|x a].
  - simpl. lia.
  - rewrite levenshtein_cons. lia.
Qed.

(** No edit script is cheaper than the recurrence. *)
Lemma levenshtein_least a b n : edits a b n -> levenshtein a b <= n.
Proof.
  induction 1 as [|x a b n _ IH|x y a b n _ IH|x a b n _ IH|y a b n _ IH].
  - simpl. lia.
  - rewrite levenshtein_cons, cu_eqb_refl. lia.
  - rewrite levenshtein_cons. destruct (cu_eqb x y); lia.
  - pose proof (levenshtein_cons_l x a b). lia.
  - pose proof (levenshtein_cons_r y a b). lia.
Qed.

Lemma levenshtein_is_levenshtein a b : is_levenshtein a b (levenshtein a b).
Proof. split; [apply edits_levenshtein|apply levenshtein_least]. Qed.

Lemma is_levenshtein_unique a b d :
  is_levenshtein a b d -> d = levenshtein a b.
Proof.
  intros [He Hl]. apply Nat.le_antisymm.
  - apply Hl, edits_levenshtein.
  - now apply levenshtein_least.
Qed.

(** Edit scripts can be extended at the end, hence read backwards. *)
Lemma edits_snoc_keep x a b n : edits a b n -> edits (a ++ [x]) (b ++ [x]) n.
Proof.
  induction 1; simpl; try (constructor; assumption).
  apply edits_keep, edits_nil.
Qed.

Lemma edits_snoc_subst x y a b n :
  edits a b n -> edits (a ++ [x]) (b ++ [y]) (S n).
Proof.
  induction 1; simpl; try (constructor; assumption).
  apply edits_subst, edits_nil.
Qed.

Lemma edits_snoc_delete x a b n : edits a b n -> edits (a ++ [x]) b (S n).
Proof.
  induction 1; simpl; try (constructor; assumption).
  apply edits_delete, edits_nil.
Qed.

Lemma edits_snoc_insert y a b n : edits a b n -> edits a (b ++ [y]) (S n).
Proof.
  induction 1; simpl; try (constructor; assumption).
  apply edits_insert, edits_nil.
Qed.

Lemma edits_rev a b n : edits a b n -> edits (rev a) (rev b) n.
Proof.
  induction 1; simpl.
  - constructor.
  - now apply edits_snoc_keep.
  - now apply edits_snoc_subst.
  - now apply edits_snoc_delete.
  - now apply edits_snoc_insert.
Qed.

Lemma levenshtein_rev a b : levenshtein (rev a) (rev b) = levenshtein a b.
Proof.
  apply Nat.le_antisymm.
  - apply levenshtein_least, edits_rev, edits_levenshtein.
  - rewrite <- (rev_involutive a), <- (rev_involutive b) at 1.
    apply levenshtein_least, edits_rev, edits_levenshtein.
Qed.

(** The recurrence read at the end of the strings, as the table does. *)
Lemma levenshtein_snoc a x b y :
  levenshtein (a ++ [x]) (b ++ [y]) =
  Nat.min (Nat.min (S (levenshtein a (b ++ [y]))) (S (levenshtein (a ++ [x]) b)))
          (levenshtein a b + (if cu_eqb x y then 0 else 1)).
Proof.
  rewrite <- (levenshtein_rev (a ++ [x]) (b ++ [y])).
  rewrite !rev_unit, levenshtein_cons.
  rewrite <- (rev_unit a x), <- (rev_unit b y), !levenshtein_rev.
  lia.
Qed.

Lemma readCell_cell_is m j i v : cell_is m j i v -> readCell m j i = Ret (Some v).
Proof.
  intros (r & Hr & Hi). unfold readCell, getRow. rewrite Hr. simpl.
  now rewrite Hi.
Qed.

Lemma writeCell_spec la lb m j i v :
  table_shape la lb m -> j <= lb -> i <= la ->
  exists m', writeCell m j i (Some v) = Ret m'
             /\ table_shape la lb m'
             /\ cell_is m' j i v
             /\ (forall j' i' w, (j', i') <> (j, i) ->
                   cell_is m j' i' w -> cell_is m' j' i' w).
Proof.
  intros [Hlen Hrows] Hj Hi.
  destruct (lookup_lt_is_Some_2 m j) as [r Hr]; [lia|].
  pose proof (Hrows _ _ Hr) as Hrl.
  unfold writeCell, getRow. rewrite Hr. simpl.
  assert (Hset : setAt r i (Number (Some v)) = <[i := Number (Some v)]> r).
  { unfold setAt. destruct (i <? length r) eqn:E; [reflexivity|].
    apply Nat.ltb_ge in E. lia. }
  rewrite Hset.
  eexists. split; [reflexivity|]. split; [|split].
  - split.
    + now rewrite length_insert.
    + intros j' r' Hr'. destruct (decide (j' = j)) as [->|Hne].
      * rewrite list_lookup_insert_eq in Hr' by lia.
        injection Hr' as <-. now rewrite length_insert.
      * rewrite list_lookup_insert_ne in Hr' by congruence. eauto.
  - exists (<[i := Number (Some v)]> r). split.
    + apply list_lookup_insert_eq. lia.
    + apply list_lookup_insert_eq. lia.
  - intros j' i' w Hne (r' & Hr' & Hi').
    destruct (decide (j' = j)) as [->|Hj'].
    + rewrite Hr in Hr'. injection Hr' as <-.
      exists (<[i := Number (Some v)]> r). split.
      * apply list_lookup_insert_eq. lia.
      * rewrite list_lookup_insert_ne; [assumption|]. intros ->. now apply Hne.
    + exists r'. split; [|assumption].
      rewrite list_lookup_insert_ne; [assumption|congruence].
Qed.

Lemma prefixDistance_0_r a b i : i <= length a -> prefixDistance a b i 0 = i.
Proof.
  intros Hi. unfold prefixDistance. rewrite take_0, levenshtein_nil_r.
  rewrite length_take. lia.
Qed.

Lemma prefixDistance_0_l a b j : j <= length b -> prefixDistance a b 0 j = j.
Proof.
  intros Hj. unfold prefixDistance. rewrite take_0, levenshtein_nil_l.
  rewrite length_take. lia.
Qed.

Lemma prefixDistance_step a b i j x y :
  a !! i = Some x -> b !! j = Some y ->
  prefixDistance a b (S i) (S j) =
  Nat.min (Nat.min (S (prefixDistance a b i (S j)))
                   (S (prefixDistance a b (S i) j)))
          (prefixDistance a b i j + (if cu_eqb x y then 0 else 1)).
Proof.
  intros Hx Hy. unfold prefixDistance.
  rewrite (take_S_r a i x Hx), (take_S_r b j y Hy).
  apply levenshtein_snoc.
Qed.

Lemma prefixDistance_all a b :
  prefixDistance a b (length a) (length b) = levenshtein a b.
Proof. unfold prefixDistance. now rewrite !firstn_all. Qed.

Lemma replicate_table_shape la lb :
  table_shape la lb (replicate (lb + 1) (replicate (la + 1) Null)).
Proof.
  split.
  - now rewrite length_replicate.
  - intros j r Hr. apply lookup_replicate in Hr as [-> _].
    now rewrite length_replicate.
Qed.

Lemma obind_Ret {A B} (a : A) (k : A -> outcome B) : obind (Ret a) k = k a.
Proof. reflexivity. Qed.

(** Brings in the invariant rule for the outermost loop of the goal. *)
Ltac loop_with P H :=
  match goal with
  | |- context [forFrom ?lo ?n ?body ?s] =>
      pose proof (forFrom_invariant P n lo body s) as H
  end.

(** The table computes the Levenshtein distance, and no access to it
    fails. *)
Theorem getLevenshteinDistance_correct a b :
  getLevenshteinDistance a b = Ret (Some (levenshtein a b)).
Proof.
  unfold getLevenshteinDistance.
  destruct (length a =? 0) eqn:Ea.
  { apply Nat.eqb_eq in Ea. destruct a; [reflexivity|discriminate]. }
  destruct (length b =? 0) eqn:Eb.
  { apply Nat.eqb_eq in Eb. destruct b; [|discriminate].
    now rewrite levenshtein_nil_r. }
  apply Nat.eqb_neq in Ea, Eb.
  set (la := length a) in *. set (lb := length b) in *.
  set (D := prefixDistance a b).
  cbv zeta.
  (* first row *)
  loop_with (fun k m => table_shape la lb m
                        /\ forall i, i < k -> cell_is m 0 i i) H1.
  destruct H1 as (m1 & -> & Hs1 & Hrow).
  { split; [apply replicate_table_shape|]. intros i Hi. lia. }
  { intros k t Hk [Hs Hc].
    destruct (writeCell_spec la lb t 0 k k Hs) as (t' & Hw & Hs' & Hn & Ho);
      [lia|lia|].
    exists t'. split; [assumption|]. split; [assumption|].
    intros i Hi. destruct (decide (i = k)) as [->|Hne]; [assumption|].
    apply Ho; [congruence|]. apply Hc. lia. }
  rewrite obind_Ret.
  (* first column *)
  loop_with (fun k m => table_shape la lb m
                        /\ (forall i, i <= la -> cell_is m 0 i i)
                        /\ forall j, j < k -> cell_is m j 0 j) H2.
  destruct H2 as (m2 & -> & Hs2 & Hrow2 & Hcol).
  { split; [assumption|]. split; [|intros j Hj; lia].
    intros i Hi. apply Hrow. simpl. lia. }
  { intros k t Hk (Hs & Hr & Hc).
    destruct (writeCell_spec la lb t k 0 k Hs) as (t' & Hw & Hs' & Hn & Ho);
      [lia|lia|].
    exists t'. split; [assumption|]. split; [assumption|]. split.
    - intros i Hi. destruct (decide ((0, i) = (k, 0))) as [E|Hne].
      + injection E as <- ->. assumption.
      + apply Ho; [assumption|]. now apply Hr.
    - intros j Hj. destruct (decide (j = k)) as [->|Hne]; [assumption|].
      apply Ho; [congruence|]. apply Hc. lia. }
  rewrite obind_Ret.
  (* the rows of the table *)
  loop_with (fun j m => table_shape la lb m
                        /\ (forall j' i', j' < j -> i' <= la ->
                                          cell_is m j' i' (D i' j'))
                        /\ forall j', j' <= lb -> cell_is m j' 0 (D 0 j')) H3.
  destruct H3 as (m3 & -> & Hs3 & Hall & _).
  { split; [assumption|]. split.
    - intros j' i' Hj' Hi'. replace j' with 0 by lia.
      unfold D. rewrite prefixDistance_0_r by (fold la; lia). now apply Hrow2.
    - intros j' Hj'. unfold D. rewrite prefixDistance_0_l by (fold lb; lia).
      apply Hcol. simpl. lia. }
  { intros j m Hj (Hs & Hdone & Hc0). cbv beta.
    loop_with (fun i t => table_shape la lb t
                          /\ (forall j' i', j' < j -> i' <= la ->
                                            cell_is t j' i' (D i' j'))
                          /\ (forall j', j' <= lb -> cell_is t j' 0 (D 0 j'))
                          /\ forall i', i' < i -> cell_is t j i' (D i' j)) H4.
    destruct H4 as (t & Hf & Hst & Hd & Hc & Hr).
    { split; [assumption|]. split; [assumption|]. split; [assumption|].
      intros i' Hi'. replace i' with 0 by lia. apply Hc0. lia. }
    { intros i t Hi (Hst & Hd & Hc & Hr).
      destruct i as [|i0]; [lia|]. destruct j as [|j0]; [lia|].
      cbv beta.
      replace (S i0 - 1) with i0 by lia. replace (S j0 - 1) with j0 by lia.
      destruct (lookup_lt_is_Some_2 a i0) as [x Hx]; [fold la; lia|].
      destruct (lookup_lt_is_Some_2 b j0) as [y Hy]; [fold lb; lia|].
      rewrite (readCell_cell_is t (S j0) i0 (D i0 (S j0))) by (apply Hr; lia).
      rewrite obind_Ret.
      rewrite (readCell_cell_is t j0 (S i0) (D (S i0) j0)) by (apply Hd; lia).
      rewrite obind_Ret.
      rewrite (readCell_cell_is t j0 i0 (D i0 j0)) by (apply Hd; lia).
      rewrite obind_Ret, Hx, Hy. simpl strictEq. simpl min3.
      destruct (writeCell_spec la lb t (S j0) (S i0)
                  (Nat.min (Nat.min (D i0 (S j0) + 1) (D (S i0) j0 + 1))
                           (D i0 j0 + (if cu_eqb x y then 0 else 1))) Hst)
        as (t' & Hw & Hs' & Hn & Ho); [lia|lia|].
      exists t'. split; [exact Hw|]. split; [assumption|]. split; [|split].
      - intros j' i' Hj' Hi'. apply Ho; [intros [= -> ->]; lia|]. now apply Hd.
      - intros j' Hj'. apply Ho; [intros [= -> ?]; lia|]. now apply Hc.
      - intros i' Hi'. destruct (decide (i' = S i0)) as [->|Hne].
        + unfold D at 1. rewrite (prefixDistance_step a b i0 j0 x y Hx Hy).
          fold D. replace (S (D i0 (S j0))) with (D i0 (S j0) + 1) by lia.
          replace (S (D (S i0) j0)) with (D (S i0) j0 + 1) by lia.
          exact Hn.
        + apply Ho; [intros [= ?]; lia|]. apply Hr. lia. }
    exists t. split; [exact Hf|]. split; [assumption|]. split; [|assumption].
    intros j' i' Hj' Hi'. destruct (decide (j' = j)) as [->|Hne].
    - apply Hr. lia.
    - apply Hd; lia. }
  rewrite obind_Ret.
  rewrite (readCell_cell_is m3 lb la (D la lb)) by (apply Hall; lia).
  unfold D, la, lb. now rewrite prefixDistance_all.
Qed.

(** Turns boolean tests on code units into propositions. *)
Ltac nbool :=
  repeat first
    [ progress rewrite ?andb_true_iff, ?orb_true_iff, ?negb_true_iff,
        ?andb_false_iff, ?orb_false_iff, ?negb_false_iff,
        ?N.eqb_eq, ?N.eqb_neq, ?N.leb_le, ?N.leb_gt, ?N.ltb_lt, ?N.ltb_ge in *
    | progress unfold inRange, cu_eqb in * ].

Section SearchProperties.
Context `{host : Host}.

(** *** Fuzzy term matcher *)

Lemma startsWith_nil (s : jsstring) : startsWith s [] = true.
Proof. destruct s; reflexivity. Qed.

Lemma includes_space (t : jsstring) : includes t [32%N] = negb (noSpace t).
Proof.
  induction t as [|c t IH]; [reflexivity|].
  change (includes (c :: t) [32%N])
    with ((cu_eqb 32 c && startsWith t []) || includes t [32%N]).
  change (noSpace (c :: t)) with (negb (c =? 32)%N && noSpace t).
  rewrite IH, startsWith_nil, andb_true_r. unfold cu_eqb.
  rewrite (N.eqb_sym 32 c).
  destruct (c =? 32)%N; reflexivity.
Qed.

Lemma fuzzyLoop_spec (words : list jsstring) termNorm threshold :
  fuzzyLoop words termNorm threshold =
  Ret (existsb (fun word =>
                  (absDiff (length word) (length termNorm) <=? threshold)
                  && (levenshtein word termNorm <=? threshold)) words).
Proof.
  induction words as [|w words IH]; [reflexivity|].
  simpl. rewrite Nat.ltb_antisym.
  destruct (absDiff (length w) (length termNorm) <=? threshold); simpl.
  - rewrite getLevenshteinDistance_correct, obind_Ret. simpl.
    destruct (levenshtein w termNorm <=? threshold); [reflexivity|exact IH].
  - exact IH.
Qed.

(** [matchTerm] never throws, and decides [matches]. *)
Lemma matchTerm_matches contentNormalized term :
  matchTerm contentNormalized term = Ret (matches contentNormalized term).
Proof.
  unfold matchTerm, matches, fuzzyCondition.
  destruct (includes contentNormalized (normalizeText term)); [reflexivity|].
  rewrite includes_space, negb_involutive. simpl.
  destruct ((3 <? length (normalizeText term)) && noSpace (normalizeText term));
    [|reflexivity].
  simpl. apply fuzzyLoop_spec.
Qed.

(** *** The tokenizer *)

Lemma dropWhile_length {A} (f : A -> bool) (l : list A) :
  length (dropWhile f l) <= length l.
Proof.
  induction l as [|x l IH]; simpl; [lia|].
  destruct (f x); simpl; lia.
Qed.

Lemma takeWhile_dropWhile {A} (f : A -> bool) (l : list A) :
  takeWhile f l ++ dropWhile f l = l.
Proof.
  induction l as [|x l IH]; simpl; [reflexivity|].
  destruct (f x); simpl; [now rewrite IH|reflexivity].
Qed.

Lemma matchPhrase_shorter s p r :
  matchPhrase s = Some (p, r) -> length r < length s.
Proof.
  destruct s as [|c s]; [discriminate|]. simpl.
  destruct (isDoubleQuote c); [|discriminate].
  pose proof (dropWhile_length (fun d => negb (isDoubleQuote d)) s) as Hl.
  destruct (takeWhile _ s); [discriminate|].
  destruct (dropWhile _ s) as [|q rest]; [discriminate|].
  intros [= _ <-]. simpl in Hl. lia.
Qed.

Lemma matchOp_shorter s op r : matchOp s = Some (op, r) -> length r < length s.
Proof.
  destruct s as [|c [|c2 [|c3 s]]]; simpl; [discriminate|..];
    repeat match goal with
           | |- context [if ?b then _ else _] => destruct b
           end;
    intros [= _ <-] || discriminate; simpl; lia.
Qed.

Lemma matchWord_shorter s w r : matchWord s = Some (w, r) -> length r < length s.
Proof.
  unfold matchWord.
  pose proof (takeWhile_dropWhile isTermChar s) as Hs.
  destruct (takeWhile isTermChar s) as [|x w'] eqn:Ew; [discriminate|].
  intros [= _ <-]. rewrite <- Hs at 2. rewrite length_app. simpl. lia.
Qed.

(** Fuel beyond the length of the input is never used: the loop of the
    tokenizer ends on every query. *)
Lemma tokenizeFrom_stable fuel1 fuel2 s :
  length s <= fuel1 -> length s <= fuel2 ->
  tokenizeFrom fuel1 s = tokenizeFrom fuel2 s.
Proof.
  revert fuel2 s. induction fuel1 as [|f1 IH]; intros fuel2 s H1 H2.
  - destruct s; [|simpl in H1; lia]. destruct fuel2; reflexivity.
  - destruct fuel2 as [|f2].
    + destruct s; [reflexivity|simpl in H2; lia].
    + destruct s as [|c s]; [reflexivity|].
      cbn [tokenizeFrom].
      destruct (matchPhrase (c :: s)) as [[p r]|] eqn:Ep.
      { apply matchPhrase_shorter in Ep. f_equal. apply IH; simpl in *; lia. }
      destruct (matchOp (c :: s)) as [[o r]|] eqn:Eo.
      { apply matchOp_shorter in Eo. f_equal. apply IH; simpl in *; lia. }
      destruct (matchWord (c :: s)) as [[w r]|] eqn:Ew.
      { apply matchWord_shorter in Ew. f_equal. apply IH; simpl in *; lia. }
      apply IH; simpl in *; lia.
Qed.

Lemma tokenize_nil : tokenize [] = [].
Proof. reflexivity. Qed.

(** One turn of the tokenizer loop. *)
Lemma tokenize_cons c s :
  tokenize (c :: s) =
  match matchPhrase (c :: s) with
  | Some (phrase, rest) => TERM phrase :: tokenize rest
  | None =>
      match matchOp (c :: s) with
      | Some (op, rest) => OP op :: tokenize rest
      | None =>
          match matchWord (c :: s) with
          | Some (word, rest) => TERM word :: tokenize rest
          | None => tokenize s
          end
      end
  end.
Proof.
  unfold tokenize. cbn [length tokenizeFrom].
  destruct (matchPhrase (c :: s)) as [[p r]|] eqn:Ep.
  { apply matchPhrase_shorter in Ep. f_equal.
    apply tokenizeFrom_stable; simpl in *; lia. }
  destruct (matchOp (c :: s)) as [[o r]|] eqn:Eo.
  { apply matchOp_shorter in Eo. f_equal.
    apply tokenizeFrom_stable; simpl in *; lia. }
  destruct (matchWord (c :: s)) as [[w r]|] eqn:Ew.
  { apply matchWord_shorter in Ew. f_equal.
    apply tokenizeFrom_stable; simpl in *; lia. }
  reflexivity.
Qed.

Lemma letter_isTermChar u c :
  (65 <= u <= 90)%N -> letter u c = true -> isTermChar c = true.
Proof.
  unfold letter, isTermChar, isWhiteSpace. intros Hu H. nbool. lia.
Qed.

Lemma not_term_not_letter u d :
  (65 <= u <= 90)%N -> isTermChar d = false -> letter u d = false.
Proof.
  intros Hu Hd. destruct (letter u d) eqn:E; [|reflexivity].
  apply (letter_isTermChar u d Hu) in E. congruence.
Qed.

Lemma takeWhile_app_stop {A} (f : A -> bool) (t rest : list A) :
  forallb f t = true ->
  match rest with d :: _ => f d = false | [] => True end ->
  takeWhile f (t ++ rest) = t /\ dropWhile f (t ++ rest) = rest.
Proof.
  intros Ht Hr. induction t as [|x t IH]; simpl in *.
  - destruct rest as [|d r]; [easy|]. simpl. now rewrite Hr.
  - apply andb_true_iff in Ht as [Hx Ht]. rewrite Hx.
    destruct (IH Ht) as [-> ->]. easy.
Qed.

(** An operator is recognised from the first three characters at most, so
    a bare word that is followed by a character that ends it starts with no
    operator if it does not on its own. *)
Lemma matchOp_None_app t rest :
  truthy t = true -> forallb isTermChar t = true -> matchOp t = None ->
  startsTerm rest = false -> matchOp (t ++ rest) = None.
Proof.
  intros Hne Ht Hop Hrest.
  destruct rest as [|d r]; [now rewrite app_nil_r|].
  simpl in Hrest.
  pose proof (not_term_not_letter 82 d ltac:(lia) Hrest) as H82.
  pose proof (not_term_not_letter 78 d ltac:(lia) Hrest) as H78.
  pose proof (not_term_not_letter 79 d ltac:(lia) Hrest) as H79.
  pose proof (not_term_not_letter 68 d ltac:(lia) Hrest) as H68.
  pose proof (not_term_not_letter 84 d ltac:(lia) Hrest) as H84.
  destruct t as [|c [|c2 [|c3 t]]]; [discriminate|..];
    revert Hop; cbn [matchOp app];
    repeat match goal with
           | |- context [match ?l with [] => _ | _ :: _ => _ end] => destruct l
           end;
    rewrite ?H82, ?H78, ?H79, ?H68, ?H84, ?andb_false_r, ?andb_false_l;
    repeat match goal with
           | |- context [if ?b then _ else _] => destruct b
           end;
    first [discriminate | reflexivity].
Qed.

Lemma isTermChar_not_quote c : isTermChar c = true -> isDoubleQuote c = false.
Proof. unfold isTermChar, isDoubleQuote. intros H. nbool. lia. Qed.

(** A plain term followed by a character that ends it is read as one bare
    word. *)
Lemma tokenize_plain t rest :
  isPlainTerm t = true -> startsTerm rest = false ->
  tokenize (t ++ rest) = TERM t :: tokenize rest.
Proof.
  unfold isPlainTerm. intros H Hrest.
  apply andb_true_iff in H as [H Hop]. apply andb_true_iff in H as [Hne Ht].
  destruct (matchOp t) eqn:Eop; [discriminate|].
  pose proof (matchOp_None_app t rest Hne Ht Eop Hrest) as Hop'.
  destruct (takeWhile_app_stop isTermChar t rest Ht) as [Htake Hdrop].
  { destruct rest; [exact I|exact Hrest]. }
  destruct t as [|c t]; [discriminate|].
  change ((c :: t) ++ rest) with (c :: (t ++ rest)) in *.
  rewrite tokenize_cons.
  assert (Hq : matchPhrase (c :: t ++ rest) = None).
  { simpl in Ht. apply andb_true_iff in Ht as [Hc _].
    unfold matchPhrase. now rewrite (isTermChar_not_quote c Hc). }
  rewrite Hq, Hop'. unfold matchWord. rewrite Htake, Hdrop. reflexivity.
Qed.

Lemma matchOp_None_white c s : isWhiteSpace c = true -> matchOp (c :: s) = None.
Proof.
  intros Hc.
  assert (H40 : (c =? 40)%N = false) by (unfold isWhiteSpace in Hc; nbool; lia).
  assert (H41 : (c =? 41)%N = false) by (unfold isWhiteSpace in Hc; nbool; lia).
  assert (H43 : (c =? 43)%N = false) by (unfold isWhiteSpace in Hc; nbool; lia).
  assert (H45 : (c =? 45)%N = false) by (unfold isWhiteSpace in Hc; nbool; lia).
  assert (Hl : forall u, (65 <= u <= 90)%N -> letter u c = false).
  { intros u Hu. apply not_term_not_letter; [assumption|].
    unfold isTermChar. now rewrite Hc. }
  pose proof (Hl 79%N ltac:(lia)) as H79.
  pose proof (Hl 65%N ltac:(lia)) as H65.
  pose proof (Hl 78%N ltac:(lia)) as H78.
  destruct s as [|c2 [|c3 s]]; cbn [matchOp];
    rewrite ?H40, ?H41, ?H43, ?H45, ?H79, ?H65, ?H78, ?andb_false_l;
    reflexivity.
Qed.

(** White space between tokens is skipped. *)
Lemma tokenize_white c s : isWhiteSpace c = true -> tokenize (c :: s) = tokenize s.
Proof.
  intros Hc. rewrite tokenize_cons, matchOp_None_white by assumption.
  assert (Hq : isDoubleQuote c = false)
    by (unfold isWhiteSpace, isDoubleQuote in *; nbool; lia).
  unfold matchPhrase, matchWord. rewrite Hq. simpl.
  unfold isTermChar. now rewrite Hc.
Qed.

Lemma tokenize_op c s op rest :
  isDoubleQuote c = false -> matchOp (c :: s) = Some (op, rest) ->
  tokenize (c :: s) = OP op :: tokenize rest.
Proof.
  intros Hq Hop. rewrite tokenize_cons, Hop.
  unfold matchPhrase. now rewrite Hq.
Qed.

(** *** Blank queries *)

Lemma dropWhile_stops {A} (f : A -> bool) (l : list A) x :
  In x l -> f x = false ->
  exists y l', dropWhile f l = y :: l' /\ f y = false.
Proof.
  induction l as [|z l IH]; simpl; [easy|].
  intros [->|Hin] Hx.
  - rewrite Hx. eauto.
  - destruct (f z) eqn:Ez; [auto|eauto].
Qed.

Lemma isBlank_false (s : jsstring) c :
  In c s -> isWhiteSpace c = false -> isBlank s = false.
Proof.
  intros Hin Hc. unfold isBlank, trim.
  destruct (dropWhile_stops isWhiteSpace s c Hin Hc) as (y & l' & -> & Hy).
  destruct (dropWhile_stops isWhiteSpace (rev (y :: l')) y) as (z & l'' & -> & _).
  - apply in_rev. rewrite rev_involutive. now left.
  - exact Hy.
  - simpl. now destruct (rev l'').
Qed.

Lemma isTermChar_not_white c : isTermChar c = true -> isWhiteSpace c = false.
Proof.
  unfold isTermChar. destruct (isWhiteSpace c); [discriminate|reflexivity].
Qed.

(** *** The evaluator *)

Lemma evalToken_total nc (evalStack : list bool) tok :
  exists st, evalToken nc evalStack tok = Ret st.
Proof.
  destruct tok as [v|op]; simpl.
  - rewrite matchTerm_matches. simpl. eauto.
  - destruct op; simpl; eauto.
Qed.

Lemma evalQueue_total nc (outputQueue : list token) (evalStack : list bool) :
  exists st, evalQueue nc outputQueue evalStack = Ret st.
Proof.
  revert evalStack. induction outputQueue as [|tok q IH]; intros st; simpl.
  - eauto.
  - destruct (evalToken_total nc st tok) as [st' ->]. simpl. apply IH.
Qed.

Lemma evaluateBooleanQuery_total content query :
  exists v, evaluateBooleanQuery content query = Ret v.
Proof.
  unfold evaluateBooleanQuery, finalEvalStack.
  destruct (isBlank query); [eauto|].
  destruct (evalQueue_total (normalizeText content)
              (toPostfix (tokenize query)) []) as [st ->].
  simpl. eauto.
Qed.

(** C1, as the code has it. The query evaluator ends on every content and
    every query; on a blank query it answers true, and otherwise it answers
    the value at index 0 of the final evaluation stack, the bottom of the
    stack and not its top, or false when the stack is empty. *)
Theorem evaluateBooleanQuery_bottom content query :
  exists evalStack,
    finalEvalStack content query = Ret evalStack
    /\ evaluateBooleanQuery content query =
       Ret (if isBlank query then true
            else match evalStack with v :: _ => v | [] => false end).
Proof.
  unfold evaluateBooleanQuery.
  destruct (evalQueue_total (normalizeText content)
              (toPostfix (tokenize query)) []) as [st Hst].
  exists st. unfold finalEvalStack. rewrite Hst. split; [reflexivity|].
  destruct (isBlank query); [reflexivity|]. simpl. now destruct st.
Qed.

Lemma tokenize_blank query : isBlank query = true -> tokenize query = [].
Proof.
  intros Hb.
  assert (Hall : forallb isWhiteSpace query = true).
  { destruct (forallb isWhiteSpace query) eqn:E; [reflexivity|].
    exfalso.
    assert (Hex : exists c, In c query /\ isWhiteSpace c = false).
    { clear Hb. induction query as [|c q IH]; [discriminate|].
      cbn [forallb] in E. destruct (isWhiteSpace c) eqn:Ec.
      - destruct (IH E) as (d & Hd & Hw). exists d. split; [now right|exact Hw].
      - exists c. split; [now left|exact Ec]. }
    destruct Hex as (c & Hin & Hc).
    rewrite (isBlank_false query c Hin Hc) in Hb. discriminate. }
  clear Hb. induction query as [|c q IH]; [reflexivity|].
  cbn [forallb] in Hall. apply andb_true_iff in Hall as [Hc Hq].
  rewrite tokenize_white by assumption. now apply IH.
Qed.

(** A query is blank exactly when it is made of white space characters
    only, the empty query among them: [trim] leaves nothing of it. *)
Lemma isBlank_whitespace query : isBlank query = forallb isWhiteSpace query.
Proof.
  destruct (forallb isWhiteSpace query) eqn:E.
  - unfold isBlank, trim.
    assert (Hdrop : dropWhile isWhiteSpace query = []).
    { induction query as [|c q IH]; [reflexivity|].
      cbn [forallb] in E. apply andb_true_iff in E as [Hc Hq].
      cbn [dropWhile]. rewrite Hc. now apply IH. }
    now rewrite Hdrop.
  - assert (Hex : exists c, In c query /\ isWhiteSpace c = false).
    { induction query as [|c q IH]; [discriminate|].
      cbn [forallb] in E. destruct (isWhiteSpace c) eqn:Ec.
      - destruct (IH E) as (d & Hd & Hw). exists d. split; [now right|exact Hw].
      - exists c. split; [now left|exact Ec]. }
    destruct Hex as (c & Hin & Hc). exact (isBlank_false query c Hin Hc).
Qed.

(** C9. A query from which the tokenizer extracts no token evaluates to
    false on every content unless it is made of white space only, the empty
    query included; a query made of white space only is blank, has no token
    either and evaluates to true on every content. *)
Theorem evaluateBooleanQuery_no_token content query :
  tokenize query = [] ->
  evaluateBooleanQuery content query = Ret (forallb isWhiteSpace query)
  /\ evaluateBooleanQuery content query = Ret (isBlank query)
  /\ (forall blank, forallb isWhiteSpace blank = true ->
        isBlank blank = true
        /\ tokenize blank = []
        /\ evaluateBooleanQuery content blank = Ret true)
  /\ forall blank, isBlank blank = true ->
       tokenize blank = [] /\ evaluateBooleanQuery content blank = Ret true.
Proof.
  intros Htok.
  assert (Hmain : evaluateBooleanQuery content query = Ret (isBlank query)).
  { unfold evaluateBooleanQuery, finalEvalStack.
    destruct (isBlank query); [reflexivity|]. now rewrite Htok. }
  assert (Hblank : forall blank, isBlank blank = true ->
            tokenize blank = [] /\ evaluateBooleanQuery content blank = Ret true).
  { intros blank Hb. split; [now apply tokenize_blank|].
    unfold evaluateBooleanQuery. now rewrite Hb. }
  split; [now rewrite Hmain, isBlank_whitespace|].
  split; [exact Hmain|]. split; [|exact Hblank].
  intros blank Hws. rewrite <- isBlank_whitespace in Hws.
  split; [exact Hws|]. now apply Hblank.
Qed.

Lemma tokenize_quoted p :
  truthy p = true -> forallb (fun c => negb (isDoubleQuote c)) p = true ->
  tokenize (quoted p) = [TERM p].
Proof.
  intros Hne Hq. unfold quoted. rewrite tokenize_cons.
  destruct (takeWhile_app_stop (fun c => negb (isDoubleQuote c)) p [34%N] Hq)
    as [Htake Hdrop]; [reflexivity|].
  unfold matchPhrase. change (isDoubleQuote 34) with true. cbv iota.
  rewrite Htake, Hdrop. destruct p; [discriminate|]. reflexivity.
Qed.

Lemma evaluateBooleanQuery_one_term content query t :
  isBlank query = false -> tokenize query = [TERM t] ->
  evaluateBooleanQuery content query = Ret (matches (normalizeText content) t).
Proof.
  intros Hb Htok. unfold evaluateBooleanQuery, finalEvalStack.
  rewrite Hb, Htok. change (toPostfix [TERM t]) with [TERM t].
  cbn [evalQueue evalToken]. now rewrite matchTerm_matches.
Qed.

Lemma fuzzyCondition_iff (plain : jsstring -> bool) contentNormalized termNorm :
  fuzzyCondition plain contentNormalized termNorm = true <->
  3 < length termNorm /\ plain termNorm = true
  /\ exists word d,
       In word (split_nonword contentNormalized)
       /\ absDiff (length word) (length termNorm)
          <= (if length termNorm <=? 5 then 1 else 2)
       /\ is_levenshtein word termNorm d
       /\ d <= (if length termNorm <=? 5 then 1 else 2).
Proof.
  unfold fuzzyCondition. rewrite !andb_true_iff, Nat.ltb_lt, existsb_exists.
  split.
  - intros [[Hlen Hplain] (word & Hin & Hw)].
    apply andb_true_iff in Hw as [Hd Hl]. apply Nat.leb_le in Hd, Hl.
    split; [assumption|]. split; [assumption|].
    exists word, (levenshtein word termNorm).
    repeat split; try assumption; apply levenshtein_is_levenshtein.
  - intros (Hlen & Hplain & word & d & Hin & Hd & Hlev & Hl).
    split; [now split|]. exists word. split; [assumption|].
    apply is_levenshtein_unique in Hlev. subst d.
    apply andb_true_iff. split; now apply Nat.leb_le.
Qed.

(** C2, as the code has it. A quoted phrase is matched as a bare term is:
    by containment of the normalized phrase in the normalized content, or
    else fuzzily when the normalized phrase is longer than 3 and holds no
    space character. So it is matched by containment alone when its
    normalized form holds a space character or has 3 characters at most; a
    longer one without a space matches also when some word of the content
    has a length within the threshold of its length and a Levenshtein
    distance to it of at most the threshold, 1 for a length of at most 5 and
    2 otherwise; and a plain term gets the same answer with and without the
    quotes. *)
Theorem quoted_phrase_matches content p :
  truthy p = true -> forallb (fun c => negb (isDoubleQuote c)) p = true ->
  evaluateBooleanQuery content (quoted p) =
    Ret (matches (normalizeText content) p)
  /\ (noSpace (normalizeText p) = false \/ length (normalizeText p) <= 3 ->
      evaluateBooleanQuery content (quoted p) =
        Ret (includes (normalizeText content) (normalizeText p)))
  /\ (3 < length (normalizeText p) -> noSpace (normalizeText p) = true ->
      exists answer,
        evaluateBooleanQuery content (quoted p) = Ret answer
        /\ (answer = true <->
            includes (normalizeText content) (normalizeText p) = true
            \/ exists word d,
                 In word (split_nonword (normalizeText content))
                 /\ absDiff (length word) (length (normalizeText p))
                    <= (if length (normalizeText p) <=? 5 then 1 else 2)
                 /\ is_levenshtein word (normalizeText p) d
                 /\ d <= (if length (normalizeText p) <=? 5 then 1 else 2)))
  /\ (isPlainTerm p = true ->
      evaluateBooleanQuery content p = evaluateBooleanQuery content (quoted p)).
Proof.
  intros Hne Hq.
  assert (Hmain : evaluateBooleanQuery content (quoted p) =
                  Ret (matches (normalizeText content) p)).
  { apply evaluateBooleanQuery_one_term; [|now apply tokenize_quoted].
    apply (isBlank_false _ 34%N); [now left|reflexivity]. }
  split; [exact Hmain|]. split; [|split].
  - intros Hgate. rewrite Hmain. unfold matches, fuzzyCondition.
    destruct Hgate as [Hsp|Hlen].
    + now rewrite Hsp, andb_false_r, orb_false_r.
    + apply Nat.ltb_ge in Hlen. now rewrite Hlen, orb_false_r.
  - intros Hlen Hsp. eexists. split; [exact Hmain|].
    unfold matches. rewrite orb_true_iff, fuzzyCondition_iff. split.
    + intros [H|(_ & _ & H)]; auto.
    + intros [H|H]; auto.
  - intros Hplain. rewrite Hmain.
    apply evaluateBooleanQuery_one_term.
    + destruct p as [|c p]; [discriminate|].
      apply (isBlank_false _ c); [now left|].
      unfold isPlainTerm in Hplain. simpl in Hplain.
      apply isTermChar_not_white.
      destruct (isTermChar c); [reflexivity|discriminate].
    + rewrite <- (app_nil_r p) at 1.
      now rewrite tokenize_plain, tokenize_nil.
Qed.

(** C3, as the code has it. When the normalized term is not a substring of
    the content, [matchTerm] returns a boolean, and it returns true exactly
    when the normalized term is longer than 3, holds no space character
    (U+0020), and some word of the content has a length within the threshold
    of the term's and a Levenshtein distance to the term of at most the
    threshold, the threshold being 1 for a term of length at most 5 and 2
    otherwise. *)
Theorem matchTerm_fuzzy contentNormalized term :
  includes contentNormalized (normalizeText term) = false ->
  exists answer,
    matchTerm contentNormalized term = Ret answer
    /\ answer = fuzzyCondition noSpace contentNormalized (normalizeText term)
    /\ (answer = true <->
        3 < length (normalizeText term)
        /\ noSpace (normalizeText term) = true
        /\ exists word d,
             In word (split_nonword contentNormalized)
             /\ absDiff (length word) (length (normalizeText term))
                <= (if length (normalizeText term) <=? 5 then 1 else 2)
             /\ is_levenshtein word (normalizeText term) d
             /\ d <= (if length (normalizeText term) <=? 5 then 1 else 2)).
Proof.
  intros Hinc. eexists. split; [|split; [reflexivity|]].
  - rewrite matchTerm_matches. unfold matches. now rewrite Hinc.
  - apply fuzzyCondition_iff.
Qed.

(** *** Precedence *)

Ltac tokenize_step :=
  first [ rewrite tokenize_white by reflexivity
        | erewrite tokenize_op by reflexivity
        | rewrite tokenize_plain by (assumption || reflexivity) ].

Lemma tokenize_and_or_not A B C :
  isPlainTerm A = true -> isPlainTerm B = true -> isPlainTerm C = true ->
  tokenize (A ++ str " AND " ++ B ++ str " OR NOT " ++ C) =
  [TERM A; OP AND; TERM B; OP OR; OP NOT; TERM C].
Proof.
  intros HA HB HC.
  change (str " AND ") with [32; 65; 78; 68; 32]%N.
  change (str " OR NOT ") with [32; 79; 82; 32; 78; 79; 84; 32]%N.
  rewrite <- (app_nil_r C) at 1. cbn [app].
  repeat (tokenize_step; cbn [app]).
  now rewrite tokenize_nil.
Qed.

Lemma tokenize_parenthesized A B C :
  isPlainTerm A = true -> isPlainTerm B = true -> isPlainTerm C = true ->
  tokenize (str "(" ++ A ++ str " AND " ++ B ++ str ") OR (NOT " ++ C ++ str ")") =
  [OP LPAREN; TERM A; OP AND; TERM B; OP RPAREN; OP OR; OP LPAREN; OP NOT;
   TERM C; OP RPAREN].
Proof.
  intros HA HB HC.
  change (str "(") with [40]%N. change (str ")") with [41]%N.
  change (str " AND ") with [32; 65; 78; 68; 32]%N.
  change (str ") OR (NOT ") with [41; 32; 79; 82; 32; 40; 78; 79; 84; 32]%N.
  cbn [app].
  repeat (tokenize_step; cbn [app]).
  now rewrite tokenize_nil.
Qed.

Lemma isPlainTerm_not_blank A rest : isPlainTerm A = true -> isBlank (A ++ rest) = false.
Proof.
  intros HA. destruct A as [|c A]; [discriminate|].
  apply (isBlank_false _ c); [now left|].
  unfold isPlainTerm in HA. simpl in HA. apply isTermChar_not_white.
  destruct (isTermChar c); [reflexivity|discriminate].
Qed.

(** C4. For plain terms A, B and C the query A AND B OR NOT C evaluates, on
    every content, to the same boolean as (A AND B) OR (NOT C), namely to
    (A and B) or not C. *)
Theorem and_or_not_precedence content A B C :
  isPlainTerm A = true -> isPlainTerm B = true -> isPlainTerm C = true ->
  evaluateBooleanQuery content (A ++ str " AND " ++ B ++ str " OR NOT " ++ C) =
    evaluateBooleanQuery content
      (str "(" ++ A ++ str " AND " ++ B ++ str ") OR (NOT " ++ C ++ str ")")
  /\ evaluateBooleanQuery content (A ++ str " AND " ++ B ++ str " OR NOT " ++ C) =
       Ret ((matches (normalizeText content) A && matches (normalizeText content) B)
            || negb (matches (normalizeText content) C)).
Proof.
  intros HA HB HC.
  assert (H1 : evaluateBooleanQuery content
                 (A ++ str " AND " ++ B ++ str " OR NOT " ++ C) =
               Ret ((matches (normalizeText content) A
                     && matches (normalizeText content) B)
                    || negb (matches (normalizeText content) C))).
  { unfold evaluateBooleanQuery, finalEvalStack.
    rewrite isPlainTerm_not_blank by assumption.
    rewrite tokenize_and_or_not by assumption.
    change (toPostfix [TERM A; OP AND; TERM B; OP OR; OP NOT; TERM C])
      with [TERM A; TERM B; OP AND; TERM C; OP NOT; OP OR].
    cbn [evalQueue evalToken]. rewrite !matchTerm_matches. reflexivity. }
  split; [|exact H1]. rewrite H1.
  unfold evaluateBooleanQuery, finalEvalStack.
  rewrite (isBlank_false _ 40%N) by (now left || reflexivity).
  rewrite tokenize_parenthesized by assumption.
  change (toPostfix [OP LPAREN; TERM A; OP AND; TERM B; OP RPAREN; OP OR;
                     OP LPAREN; OP NOT; TERM C; OP RPAREN])
    with [TERM A; TERM B; OP AND; TERM C; OP NOT; OP OR].
  cbn [evalQueue evalToken]. rewrite !matchTerm_matches. reflexivity.
Qed.

End SearchProperties.

(** ** The filter pipeline *)

Lemma filterM_spec {A} (p : A -> outcome bool) (q : A -> bool) (l : list A) :
  (forall x, p x = Ret (q x)) -> filterM p l = Ret (List.filter q l).
Proof.
  intros Hp. induction l as [|x l IH]; [reflexivity|].
  simpl. rewrite Hp, IH. simpl. reflexivity.
Qed.

Lemma filterM_total {A} (p : A -> outcome bool) (l : list A) :
  (forall x, exists b, p x = Ret b) ->
  exists r, filterM p l = Ret r
            /\ forall x, In x r <-> In x l /\ p x = Ret true.
Proof.
  intros Hp. induction l as [|x l (r & Hr & Hin)]; simpl.
  - exists []. split; [reflexivity|]. simpl. tauto.
  - destruct (Hp x) as [b Hb]. rewrite Hb, Hr. simpl.
    eexists. split; [reflexivity|]. intros y.
    destruct b; simpl; rewrite Hin; split.
    + intros [->|[? ?]]; auto.
    + intros [[->|?] ?]; auto.
    + intros [? ?]; auto.
    + intros [[->|?] ?]; [congruence|auto].
Qed.

Section PipelineProperties.
Context `{host : Host}.
Variable aliasMap : gmap (list N) (list N).

Lemma parseDurationToSeconds_none dur :
  hasNoDuration dur = true -> parseDurationToSeconds dur = ofZ 0.
Proof.
  unfold hasNoDuration, parseDurationToSeconds.
  destruct dur as [d|]; [|reflexivity].
  destruct (truthy d); [|reflexivity]. simpl.
  rewrite <- (length_map host_Number (split 58 d)).
  destruct (List.map host_Number (split 58 d)) as [|x [|y [|z [|w l]]]];
    simpl; intros H; first [reflexivity | discriminate].
Qed.

Lemma contentStage_total f s : exists b, Directional.contentStage f s = Ret b.
Proof.
  unfold Directional.contentStage.
  destruct (truthy (Directional.f_content f)); [|eauto].
  apply evaluateBooleanQuery_total.
Qed.

Lemma keepSession_total f s :
  exists b, Directional.keepSession aliasMap f s = Ret b.
Proof.
  unfold Directional.keepSession.
  destruct (contentStage_total f s) as [m ->]. rewrite obind_Ret.
  repeat match goal with
         | |- context [if ?b then _ else _] => destruct b
         end; eauto.
Qed.

(** The filter pipeline ends on every input and throws on none. *)
Lemma filteredSessions_total sessions f activeTagIds savedTags viewOnly selection :
  exists result,
    Directional.filteredSessions aliasMap sessions f activeTagIds savedTags
      viewOnly selection = Ret result
    /\ forall s, In s result ->
         In s sessions /\ Directional.keepSession aliasMap f s = Ret true.
Proof.
  unfold Directional.filteredSessions.
  match goal with
  | |- context [filterM ?p ?l] =>
      destruct (filterM_total p l (keepSession_total f)) as (r & Hr & Hin)
  end.
  exists r. split; [exact Hr|].
  intros s Hs. apply Hin in Hs as [Hs Hk]. split; [|exact Hk].
  destruct viewOnly; [apply filter_In in Hs as [Hs _]|];
    (destruct activeTagIds; [exact Hs|now apply filter_In in Hs as [Hs _]]).
Qed.

Lemma durationStage_sms f s :
  type s = SMS ->
  truthy (Directional.f_minDuration f) || truthy (Directional.f_maxDuration f) = true ->
  Directional.durationStage f s = false.
Proof.
  intros Ht Hf. unfold Directional.durationStage. now rewrite Hf, Ht.
Qed.

Lemma keepSession_duration f s :
  Directional.durationStage f s = false ->
  Directional.keepSession aliasMap f s = Ret false.
Proof. intros H. unfold Directional.keepSession. now rewrite H. Qed.

Variable legalReferences : list Legal.LegalReference.

Lemma legal_durationStage_sms f s :
  type s = SMS ->
  truthy (Legal.f_minDuration f) || truthy (Legal.f_maxDuration f) = true ->
  Legal.durationStage f s = false.
Proof.
  intros Ht Hf. unfold Legal.durationStage. rewrite Hf, Ht.
  now destruct (duration s).
Qed.

Lemma legal_keepSession_duration f activeTagIds savedTags viewOnly selection s :
  Legal.durationStage f s = false ->
  Legal.keepSession aliasMap legalReferences f activeTagIds savedTags viewOnly
    selection s = false.
Proof.
  intros H. unfold Legal.keepSession. rewrite H. cbn [negb].
  repeat match goal with
         | |- context [if ?b then _ else _] => destruct b
         end; reflexivity.
Qed.

(** C5. Once the minimum or the maximum duration of the active filters is a
    non-empty string, no session of type SMS is in the result of the filter
    pipeline, whatever the bound and whatever the other fields of the
    session: this holds for the pipeline of the directional explorer, which
    also never throws, and for the pipeline of the explorer with legal
    references. *)
Theorem duration_filter_rejects_sms
  (fd : Directional.ActiveFilters) (fl : Legal.ActiveFilters)
  (sessions : list ParsedSession) (activeTagIds : list jsstring)
  (savedTags : list SavedTag) (viewOnly : bool) (selection : gset (list N)) :
  truthy (Directional.f_minDuration fd) || truthy (Directional.f_maxDuration fd) = true ->
  truthy (Legal.f_minDuration fl) || truthy (Legal.f_maxDuration fl) = true ->
  (exists result,
      Directional.filteredSessions aliasMap sessions fd activeTagIds savedTags
        viewOnly selection = Ret result
      /\ forall s, type s = SMS -> ~ In s result)
  /\ (forall s, type s = SMS ->
        ~ In s (Legal.filteredSessions aliasMap legalReferences sessions fl
                  activeTagIds savedTags viewOnly selection))
  /\ (forall s, type s = SMS ->
        Directional.keepSession aliasMap fd s = Ret false
        /\ Legal.keepSession aliasMap legalReferences fl activeTagIds savedTags
             viewOnly selection s = false).
Proof.
  intros Hd Hl. split; [|split].
  - destruct (filteredSessions_total sessions fd activeTagIds savedTags viewOnly
                selection) as (result & Hr & Hin).
    exists result. split; [exact Hr|]. intros s Hs Hmem.
    apply Hin in Hmem as [_ Hk].
    rewrite (keepSession_duration fd s (durationStage_sms fd s Hs Hd)) in Hk.
    discriminate.
  - intros s Hs Hmem. unfold Legal.filteredSessions in Hmem.
    apply filter_In in Hmem as [_ Hk].
    rewrite (legal_keepSession_duration fl activeTagIds savedTags viewOnly
               selection s (legal_durationStage_sms fl s Hs Hl)) in Hk.
    discriminate.
  - intros s Hs. split.
    + apply keepSession_duration, durationStage_sms; assumption.
    + apply legal_keepSession_duration, legal_durationStage_sms; assumption.
Qed.

Lemma parseInt10_truthy s z : parseInt10 s = ofZ z -> truthy s = true.
Proof. destruct s; [discriminate|reflexivity]. Qed.

Lemma jlt_zero_pos z : (0 < z)%Z -> jlt (ofZ 0) (ofZ z) = true.
Proof.
  intros Hz. unfold jlt, ofZ, Qltb. apply negb_true_iff.
  destruct (Qle_bool (inject_Z z) (inject_Z 0)) eqn:E; [|reflexivity].
  apply Qle_bool_iff in E. rewrite <- Zle_Qle in E. lia.
Qed.

(** C10, as the code has it. For an AUDIO session whose duration is absent
    or does not split into two or three parts at the colons, the duration
    counts for 0 seconds; the session is rejected as soon as the minimum
    duration parses to a positive integer; and with no minimum duration it
    passes the duration stage when the maximum duration does not parse to a
    negative number. *)
Theorem missing_duration_counts_zero (f : Directional.ActiveFilters)
  (s : ParsedSession) :
  type s = AUDIO -> hasNoDuration (duration s) = true ->
  parseDurationToSeconds (duration s) = ofZ 0
  /\ (forall z, (0 < z)%Z -> parseInt10 (Directional.f_minDuration f) = ofZ z ->
        Directional.durationStage f s = false
        /\ Directional.keepSession aliasMap f s = Ret false)
  /\ (truthy (Directional.f_minDuration f) = false ->
      jlt (parseInt10 (Directional.f_maxDuration f)) (ofZ 0) = false ->
      Directional.durationStage f s = true).
Proof.
  intros Ht Hdur.
  pose proof (parseDurationToSeconds_none (duration s) Hdur) as Hzero.
  split; [exact Hzero|]. split.
  - intros z Hz Hmin.
    assert (Hstage : Directional.durationStage f s = false).
    { unfold Directional.durationStage.
      rewrite (parseInt10_truthy _ z Hmin), Ht, Hzero, Hmin.
      rewrite jlt_zero_pos by assumption. reflexivity. }
    split; [exact Hstage|]. now apply keepSession_duration.
  - intros Hmin Hmax. unfold Directional.durationStage.
    rewrite Hmin, Ht, Hzero. unfold jgt. rewrite Hmax.
    rewrite andb_false_r. cbn [orb andb isAudio negb].
    now destruct (truthy (Directional.f_maxDuration f)).
Qed.

(** C8. The search functions end and throw on no input: the distance table
    is read and written inside its bounds and yields a number, the tokenizer
    needs no more turns than the query has characters, the matcher and the
    query evaluator return a boolean for every content and every query, and
    the filter pipeline returns a list for all sessions and filters. Empty
    inputs have a defined answer. *)
Theorem search_never_throws :
  (forall a b, exists d, getLevenshteinDistance a b = Ret (Some d))
  /\ (forall content term, exists v, matchTerm content term = Ret v)
  /\ (forall query fuel, length query <= fuel ->
        tokenizeFrom fuel query = tokenize query)
  /\ (forall content query, exists v, evaluateBooleanQuery content query = Ret v)
  /\ (forall content, evaluateBooleanQuery content [] = Ret true)
  /\ (parseDurationToSeconds None = ofZ 0
      /\ parseDurationToSeconds (Some []) = ofZ 0)
  /\ (forall sessions f activeTagIds savedTags viewOnly selection,
        exists result,
          Directional.filteredSessions aliasMap sessions f activeTagIds
            savedTags viewOnly selection = Ret result).
Proof.
  repeat split.
  - intros a b. rewrite getLevenshteinDistance_correct. eauto.
  - intros content term. rewrite matchTerm_matches. eauto.
  - intros query fuel Hf. unfold tokenize. now apply tokenizeFrom_stable.
  - apply evaluateBooleanQuery_total.
  - intros sessions f activeTagIds savedTags viewOnly selection.
    destruct (filteredSessions_total sessions f activeTagIds savedTags viewOnly
                selection) as (r & Hr & _).
    eauto.
Qed.

End PipelineProperties.

(** ** The sort stage *)

Section Sorting.
Context {A : Type} (cmp : A -> A -> jsnum).

Lemma insertSorted_perm x l : Permutation (x :: l) (insertSorted cmp x l).
Proof.
  induction l as [|y l IH]; cbn [insertSorted]; [reflexivity|].
  destruct (jgt (cmp x y) (ofZ 0)); [|reflexivity].
  rewrite perm_swap. now apply perm_skip.
Qed.

Lemma sortWith_perm l : Permutation l (sortWith cmp l).
Proof.
  induction l as [|x l IH]; cbn [sortWith fold_right]; [reflexivity|].
  rewrite <- insertSorted_perm. now apply perm_skip.
Qed.

Hypothesis cmp_total :
  forall x y, jgt (cmp x y) (ofZ 0) = true -> jgt (cmp y x) (ofZ 0) = false.

Lemma insertSorted_sorted x l :
  Sorted (notAfter cmp) l -> Sorted (notAfter cmp) (insertSorted cmp x l).
Proof using cmp_total.
  induction l as [|y l IH]; intros Hs; cbn [insertSorted].
  - repeat constructor.
  - destruct (jgt (cmp x y) (ofZ 0)) eqn:E.
    + apply Sorted_inv in Hs as [Hs Hhd].
      constructor; [now apply IH|].
      destruct l as [|z l]; cbn [insertSorted].
      * constructor. now apply cmp_total.
      * destruct (jgt (cmp x z) (ofZ 0)).
        -- apply HdRel_inv in Hhd. now constructor.
        -- constructor. now apply cmp_total.
    + constructor; [assumption|]. now constructor.
Qed.

Lemma sortWith_sorted l : Sorted (notAfter cmp) (sortWith cmp l).
Proof using cmp_total.
  induction l as [|x l IH]; cbn [sortWith fold_right]; [constructor|].
  now apply insertSorted_sorted.
Qed.

(** Stability: elements that the comparator never separates keep their
    order. [same k] picks the elements of one class. *)
Variable same : A -> A -> bool.
Hypothesis cmp_separates :
  forall k x y, jgt (cmp x y) (ofZ 0) = true -> same k x = true -> same k y = false.

Lemma insertSorted_stable k x l :
  List.filter (same k) (insertSorted cmp x l) = List.filter (same k) (x :: l).
Proof using cmp_separates.
  induction l as [|y l IH]; [reflexivity|].
  cbn [insertSorted].
  destruct (jgt (cmp x y) (ofZ 0)) eqn:E; [|reflexivity].
  cbn [List.filter] in *. rewrite IH.
  destruct (same k x) eqn:Ex.
  - now rewrite (cmp_separates k x y E Ex).
  - reflexivity.
Qed.

Lemma sortWith_stable k l :
  List.filter (same k) (sortWith cmp l) = List.filter (same k) l.
Proof using cmp_separates.
  induction l as [|x l IH]; [reflexivity|].
  cbn [sortWith fold_right]. rewrite insertSorted_stable.
  cbn [List.filter]. fold (sortWith cmp l). now rewrite IH.
Qed.

End Sorting.

Lemma Sorted_weaken {A} (R R' : A -> A -> Prop) (l : list A) :
  (forall x y, R x y -> R' x y) -> Sorted R l -> Sorted R' l.
Proof.
  intros HR. induction 1 as [|x l Hs IH Hhd]; constructor; [assumption|].
  destruct Hhd; constructor. now apply HR.
Qed.

Lemma Qltb_sub (a b : Q) : Qltb 0 (a - b) = Qltb b a.
Proof.
  unfold Qltb. f_equal.
  destruct (Qle_bool (a - b) 0) eqn:E1, (Qle_bool a b) eqn:E2; try reflexivity.
  - apply Qle_bool_iff in E1.
    assert (H : ~ (a <= b)%Q) by (intros H; apply Qle_bool_iff in H; congruence).
    exfalso. apply H. lra.
  - apply Qle_bool_iff in E2.
    assert (H : ~ (a - b <= 0)%Q) by (intros H; apply Qle_bool_iff in H; congruence).
    exfalso. apply H. lra.
Qed.

Lemma jgt_sub (a b : Q) : jgt (jsub (Num a) (Num b)) (ofZ 0) = jgt (Num a) (Num b).
Proof. unfold jgt, jlt, jsub, ofZ. apply Qltb_sub. Qed.

Lemma Qltb_asym (a b : Q) : Qltb a b = true -> Qltb b a = false.
Proof.
  unfold Qltb. intros H. apply negb_true_iff in H. apply negb_false_iff.
  apply Qle_bool_iff.
  assert (Hn : ~ (b <= a)%Q) by (intros Hle; apply Qle_bool_iff in Hle; congruence).
  lra.
Qed.

Lemma Qltb_separates (k a b : Q) :
  Qltb b a = true -> Qeq_bool k a = true -> Qeq_bool k b = false.
Proof.
  unfold Qltb. intros H Hk. apply negb_true_iff in H. apply Qeq_bool_iff in Hk.
  destruct (Qeq_bool k b) eqn:E; [|reflexivity].
  apply Qeq_bool_iff in E.
  assert (Hle : (a <= b)%Q) by lra.
  apply Qle_bool_iff in Hle. congruence.
Qed.

Section SortProperties.
Context `{host : Host}.
Variable aliasMap : gmap (list N) (list N).

Lemma dateKey_num s : exists q, Directional.dateKey s = Num q.
Proof.
  unfold Directional.dateKey, orZero.
  destruct (match Directional.parseDate (date s) with
            | Some t => t | None => NaN end) as [|q]; [eauto|].
  destruct (Qeq_bool q 0); eauto.
Qed.

(** What the date orders of the directional explorer do. Sorted by date,
    ascending or descending, the sessions are a rearrangement of the filtered
    sessions in which the date keys never decrease, respectively never
    increase, and in which the sessions of one date keep the order they had
    in the output of the filter pipeline; the start time plays no part. *)
Lemma date_sort_keeps_pipeline_order (filtered : list ParsedSession) :
  Permutation filtered (Directional.sortedSessions aliasMap Directional.date_asc filtered)
  /\ Permutation filtered (Directional.sortedSessions aliasMap Directional.date_desc filtered)
  /\ Sorted (fun x y => jgt (Directional.dateKey x) (Directional.dateKey y) = false)
            (Directional.sortedSessions aliasMap Directional.date_asc filtered)
  /\ Sorted (fun x y => jlt (Directional.dateKey x) (Directional.dateKey y) = false)
            (Directional.sortedSessions aliasMap Directional.date_desc filtered)
  /\ forall k,
       List.filter (Directional.sameDate k)
         (Directional.sortedSessions aliasMap Directional.date_asc filtered)
       = List.filter (Directional.sameDate k) filtered
       /\ List.filter (Directional.sameDate k)
            (Directional.sortedSessions aliasMap Directional.date_desc filtered)
          = List.filter (Directional.sameDate k) filtered.
Proof.
  unfold Directional.sortedSessions.
  assert (Hasc : forall x y,
            jgt (Directional.compareSessions aliasMap Directional.date_asc x y) (ofZ 0)
            = jgt (Directional.dateKey x) (Directional.dateKey y)).
  { intros x y. cbn [Directional.compareSessions].
    destruct (dateKey_num x) as [qx ->], (dateKey_num y) as [qy ->].
    apply jgt_sub. }
  assert (Hdesc : forall x y,
            jgt (Directional.compareSessions aliasMap Directional.date_desc x y) (ofZ 0)
            = jlt (Directional.dateKey x) (Directional.dateKey y)).
  { intros x y. cbn [Directional.compareSessions].
    destruct (dateKey_num x) as [qx ->], (dateKey_num y) as [qy ->].
    apply jgt_sub. }
  split; [apply sortWith_perm|]. split; [apply sortWith_perm|].
  split; [|split].
  - eapply Sorted_weaken; [|apply sortWith_sorted].
    + intros x y. unfold notAfter. now rewrite Hasc.
    + intros x y. rewrite !Hasc.
      destruct (dateKey_num x) as [qx ->], (dateKey_num y) as [qy ->].
      apply Qltb_asym.
  - eapply Sorted_weaken; [|apply sortWith_sorted].
    + intros x y. unfold notAfter. now rewrite Hdesc.
    + intros x y. rewrite !Hdesc.
      destruct (dateKey_num x) as [qx ->], (dateKey_num y) as [qy ->].
      apply Qltb_asym.
  - intros k. split; apply sortWith_stable.
    + intros k' x y. rewrite Hasc. unfold Directional.sameDate.
      destruct (dateKey_num x) as [qx ->], (dateKey_num y) as [qy ->],
               (dateKey_num k') as [qk ->].
      apply Qltb_separates.
    + intros k' x y. rewrite Hdesc. unfold Directional.sameDate.
      destruct (dateKey_num x) as [qx ->], (dateKey_num y) as [qy ->],
               (dateKey_num k') as [qk ->].
      unfold jlt. intros Hlt Hk.
      destruct (Qeq_bool qk qy) eqn:E; [|reflexivity].
      apply Qeq_bool_iff in E, Hk. unfold Qltb in Hlt.
      apply negb_true_iff in Hlt.
      assert (Hle : (qy <= qx)%Q) by lra.
      apply Qle_bool_iff in Hle. congruence.
Qed.

(** In the explorer with legal references the comparator of the date orders
    reads the start time of its first argument for both dates, so that it
    does not tell two sessions of one date apart either. *)
Lemma legal_compareByDate_same_date descending a b :
  date a = date b ->
  jgt (Legal.compareByDate descending a b) (ofZ 0) = false
  /\ jlt (Legal.compareByDate descending a b) (ofZ 0) = false.
Proof.
  intros Hd. unfold Legal.compareByDate. rewrite Hd.
  destruct (Legal.parseDate a (date b)) as [|q];
    destruct descending; simpl; try easy.
  all: unfold Qltb; rewrite !negb_false_iff; split; apply Qle_bool_iff;
    unfold inject_Z; lra.
Qed.

End SortProperties.

(** ** The normalizer *)

Lemma StringToCodePoints_cons_other c s :
  isHighSurrogate c = false ->
  StringToCodePoints (c :: s) = c :: StringToCodePoints s.
Proof.
  intros Hc. destruct s as [|d s]; [reflexivity|].
  cbn [StringToCodePoints]. now rewrite Hc.
Qed.

Lemma StringToCodePoints_units c s :
  isScalar c = true ->
  StringToCodePoints (codePointUnits c ++ s) = c :: StringToCodePoints s.
Proof.
  intros Hc. unfold codePointUnits.
  destruct (c <? 65536)%N eqn:E.
  - change ([c] ++ s) with (c :: s). apply StringToCodePoints_cons_other.
    unfold isScalar, isHighSurrogate in *. nbool. lia.
  - cbn [app StringToCodePoints]. unfold isScalar in Hc.
    apply N.ltb_ge in E.
    assert (Hhi : ((c - 65536) / 1024 < 1024)%N).
    { apply N.Div0.div_lt_upper_bound. nbool. lia. }
    pose proof (N.mod_lt (c - 65536) 1024 ltac:(lia)) as Hlo.
    pose proof (N.div_mod (c - 65536) 1024 ltac:(lia)) as Hdm.
    remember ((c - 65536) / 1024)%N as q eqn:Hq.
    remember ((c - 65536) mod 1024)%N as r eqn:Hr. clear Hq Hr.
    assert (H1 : isHighSurrogate (55296 + q) = true)
      by (unfold isHighSurrogate; nbool; lia).
    assert (H2 : isLowSurrogate (56320 + r) = true)
      by (unfold isLowSurrogate; nbool; lia).
    rewrite H1, H2. cbn [andb]. f_equal. lia.
Qed.

(** A text of scalar values is read back from its code units. *)
Lemma StringToCodePoints_CodePointsToString l :
  forallb isScalar l = true ->
  StringToCodePoints (CodePointsToString l) = l.
Proof.
  induction l as [|c l IH]; [reflexivity|].
  cbn [forallb]. intros H. apply andb_true_iff in H as [Hc Hl].
  unfold CodePointsToString. cbn [List.map List.concat].
  rewrite StringToCodePoints_units by assumption.
  f_equal. now apply IH.
Qed.

Lemma stripMarks_units c :
  stripMarks (codePointUnits c) = if notMark c then codePointUnits c else [].
Proof.
  unfold stripMarks, codePointUnits, notMark, isCombiningMark.
  destruct (c <? 65536)%N eqn:E.
  - cbn [List.filter]. destruct (negb (inRange 768 879 c)); reflexivity.
  - apply N.ltb_ge in E.
    assert (H : inRange 768 879 c = false) by (nbool; lia).
    rewrite H. cbn [negb List.filter].
    generalize ((c - 65536) / 1024)%N ((c - 65536) mod 1024)%N. intros q r.
    assert (H1 : inRange 768 879 (55296 + q) = false) by (nbool; lia).
    assert (H2 : inRange 768 879 (56320 + r) = false) by (nbool; lia).
    rewrite H1, H2. reflexivity.
Qed.

(** Removing the marks from the code units removes them from the code
    points. *)
Lemma stripMarks_CodePointsToString l :
  stripMarks (CodePointsToString l) = CodePointsToString (List.filter notMark l).
Proof.
  induction l as [|c l IH]; [reflexivity|].
  unfold CodePointsToString in *. cbn [List.map List.concat List.filter].
  change (stripMarks (codePointUnits c ++ List.concat (List.map codePointUnits l)))
    with (List.filter (fun c => negb (isCombiningMark c))
            (codePointUnits c ++ List.concat (List.map codePointUnits l))).
  rewrite List.filter_app.
  change (List.filter (fun c => negb (isCombiningMark c)) (codePointUnits c))
    with (stripMarks (codePointUnits c)).
  change (List.filter (fun c => negb (isCombiningMark c))
            (List.concat (List.map codePointUnits l)))
    with (stripMarks (List.concat (List.map codePointUnits l))).
  rewrite IH, stripMarks_units.
  destruct (notMark c); reflexivity.
Qed.

Lemma forallb_filter {A} (p q : A -> bool) (l : list A) :
  forallb p l = true -> forallb p (List.filter q l) = true.
Proof.
  induction l as [|x l IH]; [reflexivity|]. cbn [forallb List.filter].
  intros H. apply andb_true_iff in H as [Hx Hl].
  destruct (q x); cbn [forallb]; rewrite ?Hx; auto.
Qed.

Lemma filter_filter_same {A} (q : A -> bool) (l : list A) :
  List.filter q (List.filter q l) = List.filter q l.
Proof.
  induction l as [|x l IH]; [reflexivity|]. cbn [List.filter].
  destruct (q x) eqn:E; cbn [List.filter]; rewrite ?E, IH; reflexivity.
Qed.

(** A code point of the Basic Multilingual Plane among the code points of
    a string is one of its code units. *)
Lemma StringToCodePoints_In_unit c s :
  (c < 65536)%N -> In c (StringToCodePoints s) -> In c s.
Proof.
  intros Hc.
  assert (H : forall n s, length s <= n ->
                In c (StringToCodePoints s) -> In c s).
  { clear s. induction n as [|n IH]; intros s Hlen.
    - destruct s; [easy|simpl in Hlen; lia].
    - destruct s as [|h [|l s]]; [easy|simpl; tauto|].
      cbn [StringToCodePoints].
      destruct (isHighSurrogate h && isLowSurrogate l) eqn:E.
      + intros [H|H].
        * apply andb_true_iff in E as [Hh Hl].
          unfold isHighSurrogate in Hh. revert H Hc.
          generalize ((h - 55296) * 1024 + (l - 56320))%N. intros; lia.
        * right. right. apply (IH s); [simpl in Hlen; lia|exact H].
      + intros [H|H]; [now left|].
        right. apply (IH (l :: s)); [simpl in *; lia|exact H]. }
  now apply (H (length s)).
Qed.

Section NormalizerProperties.
Context `{host : Host} `{data : UnicodeData} {laws : UnicodeLaws}.

Lemma canonicallyOrdered_tail a l :
  canonicallyOrdered (a :: l) = true -> canonicallyOrdered l = true.
Proof. cbn [canonicallyOrdered]. intros H. now apply andb_true_iff in H. Qed.

Lemma canonicallyOrdered_head a b l :
  canonicallyOrdered (b :: l) = true -> (uc_ccc a <= uc_ccc b)%N ->
  canonicallyOrdered (a :: l) = true.
Proof.
  destruct l as [|d l]; [reflexivity|]. cbn [canonicallyOrdered].
  intros H Hab. apply andb_true_iff in H as [Hbd Hl].
  apply andb_true_iff. split; [|exact Hl].
  unfold canonicalPair in *. nbool. lia.
Qed.

(** Marks whose combining class is not 0 can be taken out of a text in
    canonical order: what is left is in canonical order, since the classes
    do not decrease along a run of marks. *)
Lemma canonicallyOrdered_filter (keep : N -> bool) l :
  (forall c, In c l -> keep c = false -> (0 < uc_ccc c)%N) ->
  canonicallyOrdered l = true ->
  canonicallyOrdered (List.filter keep l) = true.
Proof.
  assert (Haux : forall l a,
            (forall c, In c l -> keep c = false -> (0 < uc_ccc c)%N) ->
            canonicallyOrdered (a :: l) = true ->
            canonicallyOrdered (a :: List.filter keep l) = true).
  { clear l. induction l as [|b l IH]; intros a Hmarks Hord; [reflexivity|].
    cbn [List.filter].
    assert (Hb : canonicallyOrdered (b :: List.filter keep l) = true).
    { apply IH; [intros c Hc; apply Hmarks; now right|].
      now apply canonicallyOrdered_tail in Hord. }
    cbn [canonicallyOrdered] in Hord. apply andb_true_iff in Hord as [Hab _].
    destruct (keep b) eqn:Ek.
    - cbn [canonicallyOrdered]. apply andb_true_iff. split; assumption.
    - apply (canonicallyOrdered_head a b); [exact Hb|].
      pose proof (Hmarks b (or_introl eq_refl) Ek) as Hpos.
      unfold canonicalPair in Hab. nbool. lia. }
  induction l as [|a l IH]; intros Hmarks Hord; [reflexivity|].
  cbn [List.filter]. destruct (keep a).
  - now apply Haux; [intros c Hc; apply Hmarks; right|].
  - apply IH; [intros c Hc; apply Hmarks; now right|].
    now apply canonicallyOrdered_tail in Hord.
Qed.

(** Removing the marks from a decomposed text without a grapheme joiner
    leaves it decomposed. *)
Lemma strip_NFD l :
  forallb isScalar l = true ->
  uc_NFD l = l -> ~ In graphemeJoiner l ->
  uc_NFD (List.filter notMark l) = List.filter notMark l.
Proof using laws.
  intros Hscalar Hfixed Hjoiner.
  apply (NFD_fixed l Hscalar) in Hfixed as [Hdec Hord].
  apply NFD_fixed; [now apply forallb_filter|]. split.
  - now apply forallb_filter.
  - apply canonicallyOrdered_filter; [|exact Hord].
    intros c Hc Hmark. apply mark_class.
    + unfold notMark in Hmark. now apply negb_false_iff in Hmark.
    + intros ->. contradiction.
Qed.

(** The code points of a normalized well-formed text without a grapheme
    joiner: lowercase, decomposed and without marks. *)
Lemma normalizeText_code_points s :
  wellFormed s = true -> ~ In graphemeJoiner s ->
  exists m, normalizeText s = CodePointsToString m
            /\ forallb isScalar m = true
            /\ uc_toLowercase m = m
            /\ uc_NFD m = m
            /\ List.filter notMark m = m.
Proof using laws.
  unfold wellFormed. intros Hs Hjoiner.
  set (l1 := uc_toLowercase (StringToCodePoints s)).
  assert (Hl1 : forallb isScalar l1 = true) by now apply toLowercase_scalar.
  set (n1 := uc_NFD l1).
  assert (Hn1 : forallb isScalar n1 = true) by now apply NFD_scalar.
  assert (Hj1 : ~ In graphemeJoiner n1).
  { intros H. apply Hjoiner.
    apply (NFD_joiner l1 Hl1), (toLowercase_joiner _ Hs) in H.
    now apply StringToCodePoints_In_unit in H. }
  exists (List.filter notMark n1).
  split; [|split; [|split; [|split]]].
  - unfold normalizeText, normalizeNFD, toLowerCase. fold l1.
    rewrite StringToCodePoints_CodePointsToString by assumption. fold n1.
    apply stripMarks_CodePointsToString.
  - now apply forallb_filter.
  - apply strip_lowercase; [exact Hn1|]. unfold n1.
    apply NFD_lowercase; [exact Hl1|].
    unfold l1. now apply toLowercase_idempotent.
  - apply strip_NFD; [exact Hn1| |exact Hj1]. unfold n1.
    now apply NFD_idempotent.
  - apply filter_filter_same.
Qed.

(** C7, as the code has it. Under the laws of the Unicode standard listed
    in [UnicodeLaws], normalizing twice a well-formed string that holds no
    grapheme joiner, U+034F, gives the same string as normalizing it
    once. *)
Theorem normalizeText_idempotent s :
  wellFormed s = true -> ~ In graphemeJoiner s ->
  normalizeText (normalizeText s) = normalizeText s.
Proof using laws.
  intros Hs Hjoiner.
  destruct (normalizeText_code_points s Hs Hjoiner)
    as (m & -> & Hm & Hlow & Hnfd & Hstrip).
  unfold normalizeText, normalizeNFD, toLowerCase.
  rewrite (StringToCodePoints_CodePointsToString m Hm), Hlow.
  rewrite (StringToCodePoints_CodePointsToString m Hm), Hnfd.
  now rewrite stripMarks_CodePointsToString, Hstrip.
Qed.

End NormalizerProperties.

(** * Further properties of the code *)

(** ** Well-formed queries *)

Section QueryLanguage.
Context `{host : Host}.

Lemma matchOp_minus s : matchOp (45%N :: s) = Some (MINUS, s).
Proof. destruct s as [|c2 [|c3 s]]; reflexivity. Qed.

Lemma matchOp_plus s : matchOp (43%N :: s) = Some (PLUS, s).
Proof. destruct s as [|c2 [|c3 s]]; reflexivity. Qed.

Lemma tokenize_wrap body toks :
  (forall rest, startsTerm rest = false ->
     tokenize (body ++ rest) = toks ++ tokenize rest) ->
  forall rest,
    tokenize ((str "(" ++ body ++ str ")") ++ rest) =
    ([OP LPAREN] ++ toks ++ [OP RPAREN]) ++ tokenize rest.
Proof.
  intros Hbody rest. change (str "(") with [40%N]. change (str ")") with [41%N].
  rewrite <- !app_assoc. cbn [app].
  erewrite tokenize_op by reflexivity.
  rewrite Hbody by reflexivity. cbn [app].
  erewrite tokenize_op by reflexivity.
  reflexivity.
Qed.

Lemma tokenize_level (s lvl : nat) body toks :
  (forall rest, startsTerm rest = false ->
     tokenize (body ++ rest) = toks ++ tokenize rest) ->
  forall rest, startsTerm rest = false ->
    tokenize ((if s <? lvl then str "(" ++ body ++ str ")" else body) ++ rest) =
    (if s <? lvl then [OP LPAREN] ++ toks ++ [OP RPAREN] else toks)
    ++ tokenize rest.
Proof.
  intros Hbody rest Hrest. destruct (s <? lvl).
  - now apply tokenize_wrap.
  - now apply Hbody.
Qed.

(** The tokenizer reads the text of an expression over plain terms as the
    tokens of the expression. *)
Lemma tokenize_render e :
  allPlain e = true ->
  forall lvl rest, startsTerm rest = false ->
    tokenize (render lvl e ++ rest) = renderTokens lvl e ++ tokenize rest.
Proof.
  induction e as [t|e1 IH|sym e1 IH|sym a IHa b IHb|a IHa b IHb];
    intros Hp lvl; cbn [render renderTokens strength allPlain] in *;
    apply tokenize_level; intros rest Hrest.
  - now apply tokenize_plain.
  - apply tokenize_wrap. intros r Hr. now apply IH.
  - rewrite <- !app_assoc. destruct sym.
    + change (str "-") with [45%N]. cbn [app].
      rewrite (tokenize_op 45%N _ MINUS _ eq_refl (matchOp_minus _)).
      now rewrite IH.
    + change (str "NOT ") with [78; 79; 84; 32]%N. cbn [app].
      erewrite tokenize_op by reflexivity.
      rewrite tokenize_white by reflexivity. now rewrite IH.
  - apply andb_true_iff in Hp as [Hpa Hpb].
    rewrite <- !app_assoc. destruct sym.
    + change (str " + ") with [32; 43; 32]%N.
      rewrite IHa by (assumption || reflexivity). cbn [app].
      rewrite tokenize_white by reflexivity.
      rewrite (tokenize_op 43%N _ PLUS _ eq_refl (matchOp_plus _)).
      rewrite tokenize_white by reflexivity. now rewrite IHb.
    + change (str " AND ") with [32; 65; 78; 68; 32]%N.
      rewrite IHa by (assumption || reflexivity). cbn [app].
      rewrite tokenize_white by reflexivity.
      erewrite tokenize_op by reflexivity.
      rewrite tokenize_white by reflexivity. now rewrite IHb.
  - apply andb_true_iff in Hp as [Hpa Hpb].
    rewrite <- !app_assoc.
    change (str " OR ") with [32; 79; 82; 32]%N.
    rewrite IHa by (assumption || reflexivity). cbn [app].
    rewrite tokenize_white by reflexivity.
    erewrite tokenize_op by reflexivity.
    rewrite tokenize_white by reflexivity. now rewrite IHb.
Qed.

(** *** The conversion to postfix *)

Lemma popWhileTop_app test (popped below : list opname) (out : list token) :
  Forall (fun op => test op = true) popped ->
  popWhileTop test (popped ++ below) out =
  popWhileTop test below (out ++ List.map OP popped).
Proof.
  intros Hall. revert out.
  induction Hall as [|op l Hop _ IH]; intros out; cbn [app popWhileTop List.map].
  - now rewrite app_nil_r.
  - rewrite Hop, IH, <- app_assoc. reflexivity.
Qed.

(** The loop that pops operators stops at the first operator that fails
    its test, read from the top of the stack. *)
Lemma popWhile_pending test (operatorStack pending : list opname) out :
  match last operatorStack with
  | Some top => test top = false
  | None => True
  end ->
  Forall (fun op => test op = true) pending ->
  popWhile test (operatorStack ++ pending) out =
  (out ++ List.map OP (rev pending), operatorStack).
Proof.
  intros Htop Hall. unfold popWhile.
  rewrite rev_app_distr, popWhileTop_app.
  2:{ apply List.Forall_forall. intros x Hx. apply in_rev in Hx.
      rewrite List.Forall_forall in Hall. now apply Hall. }
  destruct operatorStack as [|x l] using rev_ind; [reflexivity|].
  rewrite last_snoc in Htop. rewrite rev_unit. cbn [popWhileTop].
  rewrite Htop. now rewrite <- rev_unit, rev_involutive.
Qed.

Lemma weakTop_snoc lvl q ops v :
  precedence v = Some q -> q < lvl -> weakTop lvl (ops ++ [v]).
Proof.
  intros Hv Hq. unfold weakTop. rewrite last_snoc, Hv. cbn [prec_ge].
  apply Nat.leb_gt. lia.
Qed.

Lemma weakTop_weaken lvl lvl' ops : lvl <= lvl' -> weakTop lvl ops -> weakTop lvl' ops.
Proof.
  unfold weakTop. intros Hle. destruct (last ops) as [top|]; [|easy].
  destruct (precedence top) as [p|]; cbn [prec_ge]; [|easy].
  rewrite !Nat.leb_gt. lia.
Qed.

Lemma allStrong_weaken lvl lvl' pending :
  lvl' <= lvl -> allStrong lvl pending -> allStrong lvl' pending.
Proof.
  unfold allStrong. intros Hle. apply List.Forall_impl. intros op.
  destruct (precedence op) as [p|]; cbn [prec_ge]; [|easy].
  rewrite !Nat.leb_le. lia.
Qed.

(** No operator is as strong as a term. *)
Lemma allStrong_4 pending : allStrong 4 pending -> pending = [].
Proof.
  destruct pending as [|op l]; [easy|]. intros H. inversion H as [|? ? Hop _].
  now destruct op.
Qed.

(** An operator token pops what is as strong as it is, and is pushed. *)
Lemma shunt_operator v q out ops pending :
  precedence v = Some q -> 1 <= q ->
  weakTop q ops -> allStrong q pending ->
  shunt (out, ops ++ pending) (OP v) =
  (out ++ List.map OP (rev pending), ops ++ [v]).
Proof.
  intros Hv Hq Htop Hpend.
  assert (Hpop : popWhile (fun top => prec_ge (precedence top) (precedence v))
                   (ops ++ pending) out
                 = (out ++ List.map OP (rev pending), ops)).
  { rewrite Hv. now apply popWhile_pending. }
  destruct v; cbn [shunt]; cbn in Hv; try (injection Hv as <-; lia);
    try discriminate; now rewrite Hpop.
Qed.

(** A closing parenthesis pops the operators above the parenthesis it
    closes, and removes that one. *)
Lemma shunt_closing lvl out ops pending :
  1 <= lvl -> allStrong lvl pending ->
  shunt (out, (ops ++ [LPAREN]) ++ pending) (OP RPAREN) =
  (out ++ List.map OP (rev pending), ops).
Proof.
  intros Hlvl Hpend. cbn [shunt]. rewrite popWhile_pending.
  - now rewrite removelast_last.
  - now rewrite last_snoc.
  - eapply List.Forall_impl; [|exact Hpend]. intros op Hop.
    destruct op; try reflexivity. cbn in Hop. apply Nat.leb_le in Hop. lia.
Qed.

Lemma shuntsTo_term t lvl : shuntsTo lvl [TERM t] [TERM t].
Proof.
  intros out ops _. exists (out ++ [TERM t]), [].
  cbn. rewrite !app_nil_r. repeat split. constructor.
Qed.

(** An operand in parentheses leaves the stack as it found it. *)
Lemma shunt_parenthesized lvl toks post :
  1 <= lvl -> shuntsTo lvl toks post ->
  forall out ops,
    fold_left shunt ([OP LPAREN] ++ toks ++ [OP RPAREN]) (out, ops) =
    (out ++ post, ops).
Proof.
  intros Hlvl Htoks out ops.
  rewrite !fold_left_app. cbn [fold_left shunt].
  destruct (Htoks out (ops ++ [LPAREN])) as (out' & pending & -> & Hout & Hpend).
  { apply (weakTop_snoc lvl 0); [reflexivity|lia]. }
  rewrite (shunt_closing lvl) by assumption. now rewrite Hout.
Qed.

Lemma shuntsTo_parenthesized lvl lvl' toks post :
  1 <= lvl -> shuntsTo lvl toks post ->
  shuntsTo lvl' ([OP LPAREN] ++ toks ++ [OP RPAREN]) post.
Proof.
  intros Hlvl Htoks out ops _. exists (out ++ post), [].
  rewrite (shunt_parenthesized lvl toks post) by assumption.
  cbn. rewrite !app_nil_r. repeat split. constructor.
Qed.

Lemma shuntsTo_unary v q toks post :
  precedence v = Some q -> 1 <= q ->
  shuntsTo (S q) toks post ->
  shuntsTo q ([OP v] ++ toks) (post ++ [OP v]).
Proof.
  intros Hv Hq Htoks out ops Htop.
  rewrite fold_left_app. cbn [fold_left].
  pose proof (shunt_operator v q out ops [] Hv Hq Htop ltac:(constructor)) as Hs.
  cbn [rev List.map] in Hs. rewrite !app_nil_r in Hs. rewrite Hs.
  destruct (Htoks out (ops ++ [v])) as (out' & pending & -> & Hout & Hpend).
  { apply (weakTop_snoc _ q); [assumption|lia]. }
  exists out', (v :: pending). rewrite <- app_assoc. split; [reflexivity|]. split.
  - cbn [rev]. rewrite map_app, app_assoc, Hout, <- app_assoc. reflexivity.
  - constructor.
    + rewrite Hv. cbn. now apply Nat.leb_le.
    + apply (allStrong_weaken (S q)); [lia|assumption].
Qed.

Lemma shuntsTo_binary v q toksA postA toksB postB :
  precedence v = Some q -> 1 <= q ->
  shuntsTo q toksA postA -> shuntsTo (S q) toksB postB ->
  shuntsTo q (toksA ++ [OP v] ++ toksB) (postA ++ postB ++ [OP v]).
Proof.
  intros Hv Hq HA HB out ops Htop.
  rewrite !fold_left_app.
  destruct (HA out ops Htop) as (outA & pendA & -> & HoutA & HpendA).
  cbn [fold_left].
  rewrite (shunt_operator v q) by assumption. rewrite HoutA.
  destruct (HB (out ++ postA) (ops ++ [v])) as (outB & pendB & -> & HoutB & HpendB).
  { apply (weakTop_snoc _ q); [assumption|lia]. }
  exists outB, (v :: pendB). rewrite <- app_assoc. split; [reflexivity|]. split.
  - cbn [rev]. rewrite map_app, app_assoc, HoutB, <- !app_assoc. reflexivity.
  - constructor.
    + rewrite Hv. cbn. now apply Nat.leb_le.
    + apply (allStrong_weaken (S q)); [lia|assumption].
Qed.

Lemma shuntsTo_level s lvl toks post :
  1 <= s -> shuntsTo s toks post ->
  shuntsTo lvl (if s <? lvl then [OP LPAREN] ++ toks ++ [OP RPAREN] else toks) post.
Proof.
  intros Hs Htoks. destruct (s <? lvl) eqn:E.
  - now apply (shuntsTo_parenthesized s).
  - apply Nat.ltb_ge in E. intros out ops Htop.
    destruct (Htoks out ops) as (out' & pending & H1 & H2 & H3).
    { now apply (weakTop_weaken lvl). }
    exists out', pending. repeat split; try assumption.
    now apply (allStrong_weaken s).
Qed.

(** The conversion loop turns the tokens of an expression into its postfix
    form. *)
Lemma shuntsTo_render e lvl : shuntsTo lvl (renderTokens lvl e) (postfix e).
Proof.
  revert lvl.
  induction e as [t|e1 IH|sym e1 IH|sym a IHa b IHb|a IHa b IHb];
    intros lvl; cbn [renderTokens strength postfix];
    apply shuntsTo_level; try lia.
  - apply shuntsTo_term.
  - apply (shuntsTo_parenthesized 1); [lia|apply IH].
  - apply shuntsTo_unary; [now destruct sym|lia|apply IH].
  - apply shuntsTo_binary; [now destruct sym|lia|apply IHa|apply IHb].
  - apply shuntsTo_binary; [reflexivity|lia|apply IHa|apply IHb].
Qed.

Lemma weakTop_nil lvl : weakTop lvl [].
Proof. exact I. Qed.

Lemma popWhile_all (pending : list opname) out :
  popWhile (fun _ => true) pending out = (out ++ List.map OP (rev pending), []).
Proof.
  apply (popWhile_pending _ []); [exact I|].
  apply List.Forall_forall. reflexivity.
Qed.

Lemma toPostfix_render e lvl : toPostfix (renderTokens lvl e) = postfix e.
Proof.
  unfold toPostfix.
  destruct (shuntsTo_render e lvl [] [] (weakTop_nil lvl))
    as (out & pending & -> & Hout & _).
  cbn [app]. rewrite popWhile_all. exact Hout.
Qed.

(** *** Evaluation of a postfix form *)

Lemma pop_snoc {A} (stack : list A) (v : A) : pop (stack ++ [v]) = (Some v, stack).
Proof. unfold pop. now rewrite last_snoc, removelast_last. Qed.

Lemma evalQueue_postfix nc e :
  forall rest evalStack,
    evalQueue nc (postfix e ++ rest) evalStack =
    evalQueue nc rest (evalStack ++ [meaning nc e]).
Proof.
  induction e as [t|e1 IH|sym e1 IH|sym a IHa b IHb|a IHa b IHb];
    intros rest st; cbn [postfix meaning].
  - cbn [app evalQueue evalToken]. now rewrite matchTerm_matches.
  - apply IH.
  - rewrite <- app_assoc, IH. cbn [app evalQueue].
    destruct sym; cbn [evalToken]; now rewrite pop_snoc.
  - rewrite <- !app_assoc, IHa, IHb. cbn [app evalQueue].
    destruct sym; cbn [evalToken]; now rewrite !pop_snoc.
  - rewrite <- !app_assoc, IHa, IHb. cbn [app evalQueue].
    cbn [evalToken]. now rewrite !pop_snoc.
Qed.

Lemma render_starts e :
  allPlain e = true ->
  forall lvl, exists c r, render lvl e = c :: r /\ isWhiteSpace c = false.
Proof.
  assert (Hwrap : forall (s lvl : nat) body,
            (exists c r, body = c :: r /\ isWhiteSpace c = false) ->
            exists c r, (if s <? lvl then str "(" ++ body ++ str ")" else body)
                        = c :: r /\ isWhiteSpace c = false).
  { intros s lvl body Hb. destruct (s <? lvl); [|exact Hb].
    exists 40%N, (body ++ str ")"). now split. }
  induction e as [t|e1 IH|sym e1 IH|sym a IHa b IHb|a IHa b IHb];
    intros Hp lvl; cbn [render strength allPlain] in *; apply Hwrap.
  - destruct t as [|c t]; [discriminate|]. exists c, t. split; [reflexivity|].
    unfold isPlainTerm in Hp. simpl in Hp. apply isTermChar_not_white.
    destruct (isTermChar c); [reflexivity|discriminate].
  - exists 40%N, (render 1 e1 ++ str ")"). now split.
  - destruct sym.
    + exists 45%N, (render 4 e1). now split.
    + exists 78%N, ([79; 84; 32]%N ++ render 4 e1). now split.
  - apply andb_true_iff in Hp as [Hpa _].
    destruct (IHa Hpa 2) as (c & r & -> & Hc). eexists c, _. now split.
  - apply andb_true_iff in Hp as [Hpa _].
    destruct (IHa Hpa 1) as (c & r & -> & Hc). eexists c, _. now split.
Qed.

Lemma render_not_blank e lvl rest :
  allPlain e = true -> isBlank (render lvl e ++ rest) = false.
Proof.
  intros Hp. destruct (render_starts e Hp lvl) as (c & r & -> & Hc).
  apply (isBlank_false _ c); [now left|exact Hc].
Qed.

(** X1. A query written as a boolean expression over plain terms, with NOT
    binding tighter than AND, AND tighter than OR, binary operators grouping
    to the left and parentheses wherever this reading needs them or the user
    adds them, and with a minus sign for NOT or a plus sign for AND if the
    user likes, evaluates on every content to the boolean that the
    expression stands for when each term is replaced by the answer of the
    term matcher. *)
Theorem well_formed_query_meaning content e lvl :
  allPlain e = true ->
  evaluateBooleanQuery content (render lvl e) =
  Ret (meaning (normalizeText content) e).
Proof.
  intros Hp. unfold evaluateBooleanQuery, finalEvalStack.
  rewrite <- (app_nil_r (render lvl e)).
  rewrite render_not_blank, tokenize_render by (assumption || reflexivity).
  rewrite tokenize_nil, app_nil_r, toPostfix_render.
  rewrite <- (app_nil_r (postfix e)), evalQueue_postfix. reflexivity.
Qed.

Lemma toPostfix_two e1 e2 lvl :
  toPostfix (renderTokens 4 e1 ++ renderTokens lvl e2) = postfix e1 ++ postfix e2.
Proof.
  unfold toPostfix. rewrite fold_left_app.
  destruct (shuntsTo_render e1 4 [] [] (weakTop_nil 4))
    as (out1 & pend1 & -> & Hout1 & Hpend1).
  apply allStrong_4 in Hpend1. subst pend1.
  cbn [rev List.map app] in *. rewrite app_nil_r in Hout1. subst out1.
  destruct (shuntsTo_render e2 lvl (postfix e1) [] (weakTop_nil lvl))
    as (out2 & pend2 & -> & Hout2 & _).
  cbn [app]. rewrite popWhile_all. exact Hout2.
Qed.

(** X2. When two operands are written side by side with white space and no
    operator between them, the second one does not count: the query
    evaluates to what the first operand, a term or an expression in
    parentheses, evaluates to alone, whatever expression follows it. *)
Theorem second_operand_without_operator_ignored content e1 e2 lvl :
  allPlain e1 = true -> allPlain e2 = true ->
  evaluateBooleanQuery content (render 4 e1 ++ str " " ++ render lvl e2) =
  Ret (meaning (normalizeText content) e1).
Proof.
  intros Hp1 Hp2. unfold evaluateBooleanQuery, finalEvalStack.
  rewrite render_not_blank by assumption.
  rewrite tokenize_render by (assumption || reflexivity).
  change (str " ") with [32%N]. cbn [app].
  rewrite tokenize_white by reflexivity.
  rewrite <- (app_nil_r (render lvl e2)).
  rewrite tokenize_render by (assumption || reflexivity).
  rewrite tokenize_nil, app_nil_r, toPostfix_two.
  rewrite evalQueue_postfix.
  rewrite <- (app_nil_r (postfix e2)), evalQueue_postfix. reflexivity.
Qed.

(** X3. Parentheses that do not balance. An opening parenthesis that is
    never closed, put before a well-formed expression, makes the query
    false on every content; a closing parenthesis that closes nothing, put
    after a well-formed expression, changes nothing. *)
Theorem unbalanced_parenthesis content e :
  allPlain e = true ->
  evaluateBooleanQuery content (str "(" ++ render 1 e) = Ret false
  /\ evaluateBooleanQuery content (render 1 e ++ str ")") =
     Ret (meaning (normalizeText content) e).
Proof.
  intros Hp. split; unfold evaluateBooleanQuery, finalEvalStack.
  - rewrite (isBlank_false _ 40%N) by (now left || reflexivity).
    change (str "(") with [40%N]. cbn [app].
    erewrite tokenize_op by reflexivity.
    rewrite <- (app_nil_r (render 1 e)).
    rewrite tokenize_render by (assumption || reflexivity).
    rewrite tokenize_nil, app_nil_r.
    assert (Hpost : toPostfix (OP LPAREN :: renderTokens 1 e) =
                    postfix e ++ [OP LPAREN]).
    { unfold toPostfix. cbn [fold_left shunt app].
      destruct (shuntsTo_render e 1 [] [LPAREN]) as (out & pend & -> & Hout & _).
      { apply (weakTop_snoc 1 0 []); [reflexivity|lia]. }
      rewrite popWhile_all, rev_app_distr, map_app, app_assoc, Hout.
      reflexivity. }
    rewrite Hpost, evalQueue_postfix. reflexivity.
  - rewrite render_not_blank by assumption.
    rewrite tokenize_render by (assumption || reflexivity).
    change (str ")") with [41%N].
    erewrite tokenize_op by reflexivity.
    rewrite tokenize_nil.
    assert (Hpost : toPostfix (renderTokens 1 e ++ [OP RPAREN]) = postfix e).
    { unfold toPostfix. rewrite fold_left_app.
      destruct (shuntsTo_render e 1 [] [] (weakTop_nil 1))
        as (out & pend & -> & Hout & Hpend).
      cbn [fold_left shunt].
      rewrite (popWhile_pending _ [] pend out I).
      2:{ eapply List.Forall_impl; [|exact Hpend]. intros op Hop.
          destruct op; try reflexivity. cbn in Hop. discriminate. }
      cbn [removelast]. rewrite popWhile_all. cbn [rev List.map].
      rewrite app_nil_r. exact Hout. }
    rewrite Hpost, <- (app_nil_r (postfix e)), evalQueue_postfix. reflexivity.
Qed.

(** *** What the tokenizer yields *)

Lemma takeWhile_forallb {A} (f : A -> bool) (l : list A) :
  forallb f (takeWhile f l) = true.
Proof.
  induction l as [|x l IH]; [reflexivity|]. simpl.
  destruct (f x) eqn:E; [|reflexivity]. simpl. now rewrite E.
Qed.

Lemma matchPhrase_term s p r :
  matchPhrase s = Some (p, r) ->
  p <> [] /\ forallb (fun c => negb (isDoubleQuote c)) p = true.
Proof.
  unfold matchPhrase. destruct s as [|c s]; [discriminate|].
  destruct (isDoubleQuote c); [|discriminate].
  pose proof (takeWhile_forallb (fun d => negb (isDoubleQuote d)) s) as Hall.
  destruct (takeWhile _ s) as [|x l]; [discriminate|].
  destruct (dropWhile _ s); [discriminate|].
  intros [= <- _]. now split.
Qed.

Lemma matchWord_term s w r :
  matchWord s = Some (w, r) ->
  w <> [] /\ forallb (fun c => negb (isDoubleQuote c)) w = true.
Proof.
  unfold matchWord.
  pose proof (takeWhile_forallb isTermChar s) as Hall.
  destruct (takeWhile isTermChar s) as [|x l]; [discriminate|].
  intros [= <- _]. split; [easy|].
  rewrite forallb_forall in *. intros c Hc.
  now rewrite (isTermChar_not_quote c (Hall c Hc)).
Qed.

(** X4. On every query, each term that the tokenizer yields is non-empty
    and holds no double quote: no term is the empty string, which every
    content would contain. *)
Theorem tokenize_terms_not_empty query value :
  In (TERM value) (tokenize query) ->
  value <> [] /\ forallb (fun c => negb (isDoubleQuote c)) value = true.
Proof.
  unfold tokenize. generalize (length query) as fuel. intros fuel.
  revert query. induction fuel as [|fuel IH]; intros s; cbn [tokenizeFrom];
    [easy|].
  destruct s as [|c s]; [easy|].
  destruct (matchPhrase (c :: s)) as [[p r]|] eqn:Ep.
  { intros [[= <-]|Hin]; [now apply (matchPhrase_term _ _ _ Ep)|now apply (IH r)]. }
  destruct (matchOp (c :: s)) as [[o r]|] eqn:Eo.
  { intros [[=]|Hin]. now apply (IH r). }
  destruct (matchWord (c :: s)) as [[w r]|] eqn:Ew.
  { intros [[= <-]|Hin]; [now apply (matchWord_term _ _ _ Ew)|now apply (IH r)]. }
  apply IH.
Qed.

End QueryLanguage.

(** ** The edit distance *)

(** X5. On every pair of strings the table of [getLevenshteinDistance] is
    filled without a failing access, and the number returned is the
    Levenshtein distance: some script of single-character insertions,
    deletions and substitutions of that cost turns the first string into the
    second, and no script is cheaper. *)
Theorem getLevenshteinDistance_least_edit_script a b :
  exists d,
    getLevenshteinDistance a b = Ret (Some d)
    /\ edits a b d
    /\ forall n, edits a b n -> d <= n.
Proof.
  exists (levenshtein a b). split; [apply getLevenshteinDistance_correct|].
  apply levenshtein_is_levenshtein.
Qed.

Lemma edits_sym a b n : edits a b n -> edits b a n.
Proof. induction 1; now constructor. Qed.

Lemma levenshtein_sym a b : levenshtein a b = levenshtein b a.
Proof.
  apply Nat.le_antisymm; apply levenshtein_least, edits_sym, edits_levenshtein.
Qed.

Lemma edits_refl a : edits a a 0.
Proof. induction a; now constructor. Qed.

Lemma edits_zero a b n : edits a b n -> n = 0 -> a = b.
Proof. induction 1; intros Hn; try discriminate; [reflexivity|f_equal; auto]. Qed.

Lemma levenshtein_zero a b : levenshtein a b = 0 <-> a = b.
Proof.
  split.
  - intros H. apply (edits_zero a b 0); [|reflexivity].
    rewrite <- H. apply edits_levenshtein.
  - intros <-. pose proof (levenshtein_least a a 0 (edits_refl a)). lia.
Qed.

(** Scripts compose: a script from [a] to [b] followed by one from [b] to
    [c] gives one from [a] to [c] that costs no more than both. *)
Lemma edits_trans a b n :
  edits a b n -> forall c m, edits b c m -> exists k, k <= n + m /\ edits a c k.
Proof.
  induction 1 as [|x a b n _ IH|x y a b n _ IH|x a b n _ IH|y a b n _ IH];
    intros c m H2.
  - exists m. split; [lia|assumption].
  - remember (x :: b) as xb eqn:E. revert E.
    induction H2 as [|x' b' c' m' H2 _|x' y' b' c' m' H2 _|x' b' c' m' H2 _
                     |y' b' c' m' H2 IH2]; intros E; try discriminate.
    + injection E as -> ->. destruct (IH _ _ H2) as (k & Hk & He).
      exists k. split; [lia|now constructor].
    + injection E as -> ->. destruct (IH _ _ H2) as (k & Hk & He).
      exists (S k). split; [lia|now constructor].
    + injection E as -> ->. destruct (IH _ _ H2) as (k & Hk & He).
      exists (S k). split; [lia|now constructor].
    + destruct (IH2 E) as (k & Hk & He).
      exists (S k). split; [lia|now constructor].
  - remember (y :: b) as yb eqn:E. revert E.
    induction H2 as [|x' b' c' m' H2 _|x' y' b' c' m' H2 _|x' b' c' m' H2 _
                     |y' b' c' m' H2 IH2]; intros E; try discriminate.
    + injection E as -> ->. destruct (IH _ _ H2) as (k & Hk & He).
      exists (S k). split; [lia|now constructor].
    + injection E as -> ->. destruct (IH _ _ H2) as (k & Hk & He).
      exists (S k). split; [lia|now constructor].
    + injection E as -> ->. destruct (IH _ _ H2) as (k & Hk & He).
      exists (S k). split; [lia|now constructor].
    + destruct (IH2 E) as (k & Hk & He).
      exists (S k). split; [lia|now constructor].
  - destruct (IH _ _ H2) as (k & Hk & He).
    exists (S k). split; [lia|now constructor].
  - remember (y :: b) as yb eqn:E. revert E.
    induction H2 as [|x' b' c' m' H2 _|x' y' b' c' m' H2 _|x' b' c' m' H2 _
                     |y' b' c' m' H2 IH2]; intros E; try discriminate.
    + injection E as -> ->. destruct (IH _ _ H2) as (k & Hk & He).
      exists (S k). split; [lia|now constructor].
    + injection E as -> ->. destruct (IH _ _ H2) as (k & Hk & He).
      exists (S k). split; [lia|now constructor].
    + injection E as -> ->. destruct (IH _ _ H2) as (k & Hk & He).
      exists k. split; [lia|assumption].
    + destruct (IH2 E) as (k & Hk & He).
      exists (S k). split; [lia|now constructor].
Qed.

Lemma levenshtein_triangle a b c :
  levenshtein a c <= levenshtein a b + levenshtein b c.
Proof.
  destruct (edits_trans a b _ (edits_levenshtein a b) c _ (edits_levenshtein b c))
    as (k & Hk & He).
  apply levenshtein_least in He. lia.
Qed.

(** X6. The distance that [getLevenshteinDistance] returns is a metric on
    strings: it does not depend on the order of its two arguments, it is 0
    exactly when the two strings are the same, and the distance from a first
    string to a third is at most the sum of the distances by way of a
    second. *)
Theorem getLevenshteinDistance_metric a b c :
  getLevenshteinDistance a b = getLevenshteinDistance b a
  /\ (getLevenshteinDistance a b = Ret (Some 0) <-> a = b)
  /\ exists dab dbc dac,
       getLevenshteinDistance a b = Ret (Some dab)
       /\ getLevenshteinDistance b c = Ret (Some dbc)
       /\ getLevenshteinDistance a c = Ret (Some dac)
       /\ dac <= dab + dbc.
Proof.
  rewrite !getLevenshteinDistance_correct. split; [|split].
  - now rewrite levenshtein_sym.
  - rewrite <- levenshtein_zero. split; [now intros [= ->]|now intros ->].
  - exists (levenshtein a b), (levenshtein b c), (levenshtein a c).
    repeat split. apply levenshtein_triangle.
Qed.

Lemma edits_length a b n : edits a b n -> absDiff (length a) (length b) <= n.
Proof. unfold absDiff. induction 1; simpl in *; lia. Qed.

Lemma edits_longest a : forall b, edits a b (Nat.max (length a) (length b)).
Proof.
  induction a as [|x a IH]; intros b.
  - apply edits_insert_all.
  - destruct b as [|y b].
    + apply edits_delete_all.
    + simpl. apply edits_subst, IH.
Qed.

(** X7. The distance that [getLevenshteinDistance] returns is at least the
    difference of the lengths of the two strings and at most the length of
    the longer one. *)
Theorem getLevenshteinDistance_bounds a b :
  exists d,
    getLevenshteinDistance a b = Ret (Some d)
    /\ absDiff (length a) (length b) <= d
    /\ d <= Nat.max (length a) (length b).
Proof.
  exists (levenshtein a b). split; [apply getLevenshteinDistance_correct|]. split.
  - apply edits_length, edits_levenshtein.
  - apply levenshtein_least, edits_longest.
Qed.

Section TermMatcher.
Context `{host : Host}.

(** X8. The comparison of lengths that [matchTerm] makes before it computes
    a distance only saves work: the answer is the one that a matcher gives
    which computes the distance to every word of the content. A term matches
    when its normalized form is contained in the content, or when it is
    longer than 3, holds no space character, and is at distance 1 at most,
    or 2 at most when longer than 5, from some word of the content. *)
Theorem matchTerm_length_check_sound contentNormalized term :
  matchTerm contentNormalized term =
  Ret (let termNorm := normalizeText term in
       let threshold := if length termNorm <=? 5 then 1 else 2 in
       includes contentNormalized termNorm
       || (3 <? length termNorm) && noSpace termNorm
          && existsb (fun word => levenshtein word termNorm <=? threshold)
                     (split_nonword contentNormalized)).
Proof.
  rewrite matchTerm_matches. unfold matches, fuzzyCondition. cbv zeta.
  do 3 f_equal.
  induction (split_nonword contentNormalized) as [|word words IH];
    [reflexivity|].
  cbn [existsb]. rewrite IH. f_equal.
  pose proof (edits_length _ _ _ (edits_levenshtein word (normalizeText term))) as Hlen.
  destruct (levenshtein word (normalizeText term) <=? _) eqn:E.
  - apply Nat.leb_le in E. rewrite andb_true_r. apply Nat.leb_le. lia.
  - apply andb_false_r.
Qed.

End TermMatcher.

Section QueryQuirks.
Context `{host : Host}.

(** X9. Two negations in a row with no parenthesis between them do not
    cancel: such a query is true on every content, whatever operand
    follows. The first negation leaves the stack before the operand is
    read, and negates a value that is not there. *)
Theorem doubled_negation_always_true content (sym1 sym2 : bool) e :
  allPlain e = true ->
  evaluateBooleanQuery content
    ((if sym1 then str "-" else str "NOT ")
     ++ (if sym2 then str "-" else str "NOT ") ++ render 4 e) = Ret true.
Proof.
  intros Hp. unfold evaluateBooleanQuery, finalEvalStack.
  set (v1 := if sym1 then MINUS else NOT).
  set (v2 := if sym2 then MINUS else NOT).
  assert (Hb : isBlank ((if sym1 then str "-" else str "NOT ")
                        ++ (if sym2 then str "-" else str "NOT ") ++ render 4 e)
               = false).
  { destruct sym1.
    - apply (isBlank_false _ 45%N); [now left|reflexivity].
    - apply (isBlank_false _ 78%N); [now left|reflexivity]. }
  assert (Htok : tokenize ((if sym1 then str "-" else str "NOT ")
                           ++ (if sym2 then str "-" else str "NOT ") ++ render 4 e)
                 = [OP v1; OP v2] ++ renderTokens 4 e).
  { rewrite <- (app_nil_r (render 4 e)).
    pose proof (tokenize_render e Hp 4 [] eq_refl) as He.
    rewrite tokenize_nil in He.
    subst v1 v2. destruct sym1, sym2;
      change (str "-") with [45%N]; change (str "NOT ") with [78; 79; 84; 32]%N;
      cbn [app];
      repeat first [ rewrite (tokenize_op 45%N _ MINUS _ eq_refl (matchOp_minus _))
                   | erewrite (tokenize_op 78%N) by reflexivity
                   | rewrite tokenize_white by reflexivity ];
      now rewrite He, app_nil_r. }
  assert (Hpost : toPostfix ([OP v1; OP v2] ++ renderTokens 4 e)
                  = OP v1 :: postfix e ++ [OP v2]).
  { unfold toPostfix. rewrite fold_left_app.
    assert (Hfirst : fold_left shunt [OP v1; OP v2] ([], []) = ([OP v1], [v2]))
      by (subst v1 v2; now destruct sym1, sym2).
    rewrite Hfirst.
    destruct (shuntsTo_render e 4 [OP v1] ([] ++ [v2]))
      as (out & pend & Hrun & Hout & Hpend).
    { apply (weakTop_snoc 4 3); [subst v2; now destruct sym2|lia]. }
    cbn [app] in Hrun. rewrite Hrun.
    apply allStrong_4 in Hpend. subst pend.
    cbn [rev List.map app] in *. rewrite app_nil_r in Hout. subst out.
    now rewrite popWhile_all. }
  rewrite Hb, Htok, Hpost.
  assert (Hone : evalToken (normalizeText content) [] (OP v1) = Ret [true])
    by (subst v1; now destruct sym1).
  cbn [evalQueue]. rewrite Hone, obind_Ret, evalQueue_postfix.
  cbn [evalQueue]. subst v2.
  destruct sym2; cbn [evalToken];
    rewrite (pop_snoc [true]); reflexivity.
Qed.

End QueryQuirks.

(** ** The listing of sessions *)

Lemma eqs_eq (a b : jsstring) : eqs a b = true <-> a = b.
Proof.
  revert b. induction a as [|x a IH]; intros [|y b]; simpl; try easy.
  rewrite andb_true_iff, cu_eqb_eq, IH. split; [now intros [-> ->]|].
  now intros [= -> ->].
Qed.

Lemma eqs_refl (a : jsstring) : eqs a a = true.
Proof. now apply eqs_eq. Qed.

Lemma inList_In (x : jsstring) (l : list jsstring) : inList x l = true <-> In x l.
Proof.
  unfold inList. rewrite existsb_exists. split.
  - intros (y & Hy & E). apply eqs_eq in E. now subst.
  - intros H. exists x. split; [assumption|apply eqs_refl].
Qed.

Lemma filter_filter_and {A} (p q : A -> bool) (l : list A) :
  List.filter p (List.filter q l) = List.filter (fun x => q x && p x) l.
Proof.
  induction l as [|x l IH]; [reflexivity|]. simpl.
  destruct (q x); simpl; [destruct (p x)|]; now rewrite IH.
Qed.


Lemma filter_true {A} (l : list A) : List.filter (fun _ => true) l = l.
Proof. induction l as [|x l IH]; [reflexivity|]. simpl. now rewrite IH. Qed.

Lemma filter_sublist {A} (p : A -> bool) (l : list A) : sublist (List.filter p l) l.
Proof.
  induction l as [|x l IH]; simpl; [constructor|].
  destruct (p x); now constructor.
Qed.

Section ListingProperties.
Context `{host : Host}.
Variable aliasMap : gmap (list N) (list N).

Lemma keepSession_keeps f s :
  Directional.keepSession aliasMap f s = Ret (Directional.keeps aliasMap f s).
Proof.
  unfold Directional.keeps.
  now destruct (keepSession_total aliasMap f s) as [b ->].
Qed.

Lemma filterM_keepSession f l :
  filterM (Directional.keepSession aliasMap f) l =
  Ret (List.filter (Directional.keeps aliasMap f) l).
Proof. apply filterM_spec, keepSession_keeps. Qed.

Lemma keeps_cleared s : Directional.keeps aliasMap Directional.clearedFilters s = true.
Proof. reflexivity. Qed.

(** X10. With the filters that [handleClearFilters] sets, no active tag and
    the view of the selection switched off, the listing is the whole
    store: every session, in the stored order. *)
Theorem cleared_filters_list_everything sessions savedTags manualSelection :
  Directional.filteredSessions aliasMap sessions Directional.clearedFilters
    [] savedTags false manualSelection = Ret sessions.
Proof.
  unfold Directional.filteredSessions. rewrite filterM_keepSession.
  f_equal. rewrite <- (filter_true sessions) at 2.
  apply List.filter_ext. apply keeps_cleared.
Qed.

(** X11. The listing is a part of the store in the stored order, computed
    without a failure. A session of the store is listed exactly when, first,
    no tag is active or some saved tag that is active holds its id, second,
    the view of the selection is off or its id is selected, and third, the
    filter callback keeps it. *)
Theorem filteredSessions_listing sessions f activeTagIds savedTags
  viewOnlySelected manualSelection :
  exists result,
    Directional.filteredSessions aliasMap sessions f activeTagIds savedTags
      viewOnlySelected manualSelection = Ret result
    /\ sublist result sessions
    /\ forall s,
         In s result <->
         In s sessions
         /\ (activeTagIds = []
             \/ exists t, In t savedTags /\ In (tag_id t) activeTagIds
                          /\ In (sessionId s) (tag_sessionIds t))
         /\ (viewOnlySelected = true -> sessionId s ∈ manualSelection)
         /\ Directional.keepSession aliasMap f s = Ret true.
Proof.
  unfold Directional.filteredSessions. rewrite filterM_keepSession.
  eexists. split; [reflexivity|]. split.
  - destruct viewOnlySelected, activeTagIds;
      repeat (etransitivity; [apply filter_sublist|]); reflexivity.
  - intros s. rewrite keepSession_keeps.
    assert (Hk : Ret (Directional.keeps aliasMap f s) = Ret true
                 <-> Directional.keeps aliasMap f s = true)
      by (split; [now intros [= ->]|now intros ->]).
    rewrite Hk. clear Hk.
    assert (Hscope : forall x (l : list jsstring),
              sessionId s ∈
                (list_to_set
                   (List.concat
                      (List.map tag_sessionIds
                         (List.filter (fun t => inList (tag_id t) (x :: l))
                                      savedTags))) : gset (list N))
              <-> exists t, In t savedTags /\ In (tag_id t) (x :: l)
                            /\ In (sessionId s) (tag_sessionIds t)).
    { intros x l. rewrite elem_of_list_to_set, list_elem_of_In, in_concat.
      split.
      - intros (ids & Hids & Hin). apply in_map_iff in Hids as (t & <- & Ht).
        apply filter_In in Ht as [Ht Hact]. apply inList_In in Hact. eauto.
      - intros (t & Ht & Hact & Hin). exists (tag_sessionIds t).
        split; [|assumption]. apply in_map, filter_In.
        split; [assumption|now apply inList_In]. }
    destruct viewOnlySelected, activeTagIds as [|x l];
      rewrite ?filter_In, ?bool_decide_eq_true, ?Hscope;
      clear Hscope; intuition (discriminate || eauto).
Qed.

(** X12. Selecting all listed sessions with [handleSelectAll] and then
    switching to the view of the selection shows the same listing, whatever
    the filters, the tags and the sort order are. *)
Theorem select_all_then_view_selected sessions f activeTagIds savedTags
  manualSelection :
  exists result,
    Directional.filteredSessions aliasMap sessions f activeTagIds savedTags
      false manualSelection = Ret result
    /\ forall sortOption,
         Directional.filteredSessions aliasMap sessions f activeTagIds savedTags
           true
           (Directional.handleSelectAll
              (Directional.sortedSessions aliasMap sortOption result))
         = Ret result.
Proof.
  unfold Directional.filteredSessions. rewrite filterM_keepSession.
  eexists. split; [reflexivity|]. intros sortOption.
  rewrite filterM_keepSession. f_equal.
  rewrite filter_filter_and. apply List.filter_ext_in. intros s Hs.
  destruct (Directional.keeps aliasMap f s) eqn:Hk;
    [rewrite andb_true_r|apply andb_false_r].
  apply bool_decide_eq_true. unfold Directional.handleSelectAll.
  apply elem_of_list_to_set, list_elem_of_In, in_map.
  unfold Directional.sortedSessions.
  eapply Permutation_in; [apply sortWith_perm|].
  apply filter_In. now split.
Qed.


Lemma inList_filter_ne x id (l : list jsstring) :
  inList x (List.filter (fun t => negb (eqs t id)) l) =
  inList x l && negb (eqs x id).
Proof.
  apply eq_true_iff_eq. rewrite andb_true_iff, !inList_In, filter_In. tauto.
Qed.

Lemma filter_ne_absent id (l : list jsstring) :
  inList id l = false -> List.filter (fun t => negb (eqs t id)) l = l.
Proof.
  intros H. rewrite <- (filter_true l) at 2.
  apply List.filter_ext_in. intros y Hy.
  destruct (eqs y id) eqn:E; [|reflexivity].
  apply eqs_eq in E. subst y. apply inList_In in Hy. congruence.
Qed.

(** X14. Deleting a tag with [deleteTag] changes the listing as taking the
    tag out of the active tags does, and not at all when the tag was not
    active: no deleted tag is left among the active ones, where it would
    empty the listing. *)
Theorem delete_tag_deactivates id sessions f activeTagIds savedTags
  viewOnlySelected manualSelection :
  let (savedTags', activeTagIds') :=
    Directional.deleteTag id savedTags activeTagIds in
  inList id activeTagIds' = false
  /\ Directional.filteredSessions aliasMap sessions f activeTagIds' savedTags'
       viewOnlySelected manualSelection
     = Directional.filteredSessions aliasMap sessions f
         (List.filter (fun tid => negb (eqs tid id)) activeTagIds) savedTags
         viewOnlySelected manualSelection
  /\ (inList id activeTagIds = false ->
      Directional.filteredSessions aliasMap sessions f activeTagIds' savedTags'
        viewOnlySelected manualSelection
      = Directional.filteredSessions aliasMap sessions f activeTagIds savedTags
          viewOnlySelected manualSelection).
Proof.
  unfold Directional.deleteTag.
  set (rest := List.filter (fun tid => negb (eqs tid id)) activeTagIds).
  assert (Hrest : (if inList id activeTagIds then rest else activeTagIds) = rest).
  { destruct (inList id activeTagIds) eqn:E; [reflexivity|].
    symmetry. now apply filter_ne_absent. }
  rewrite Hrest.
  assert (Hgone : inList id rest = false).
  { subst rest. now rewrite inList_filter_ne, eqs_refl, andb_false_r. }
  assert (Hsaved :
            List.filter (fun t => inList (tag_id t) rest)
              (List.filter (fun t => negb (eqs (tag_id t) id)) savedTags)
            = List.filter (fun t => inList (tag_id t) rest) savedTags).
  { rewrite filter_filter_and. apply List.filter_ext. intros t.
    destruct (eqs (tag_id t) id) eqn:E; [|reflexivity].
    apply eqs_eq in E. rewrite E. cbn [negb andb]. now rewrite Hgone. }
  assert (Hsame :
            Directional.filteredSessions aliasMap sessions f rest
              (List.filter (fun t => negb (eqs (tag_id t) id)) savedTags)
              viewOnlySelected manualSelection
            = Directional.filteredSessions aliasMap sessions f rest savedTags
                viewOnlySelected manualSelection).
  { unfold Directional.filteredSessions. now rewrite Hsaved. }
  split; [exact Hgone|]. split; [exact Hsame|].
  intros Habsent. rewrite Hsame. subst rest.
  now rewrite filter_ne_absent.
Qed.

End ListingProperties.

(** ** Time ranges *)

Lemma str_ltb_clock s t :
  validTime s -> validTime t ->
  str_ltb (clock s) (clock t) = (minuteOfDay s <? minuteOfDay t)%N.
Proof.
  unfold validTime, clock, minuteOfDay. intros [Hs1 Hs2] [Ht1 Ht2].
  pose proof (N.div_mod (hour s) 10 ltac:(lia)) as E1.
  pose proof (N.mod_lt (hour s) 10 ltac:(lia)) as L1.
  pose proof (N.div_mod (minute s) 10 ltac:(lia)) as E2.
  pose proof (N.mod_lt (minute s) 10 ltac:(lia)) as L2.
  pose proof (N.div_mod (hour t) 10 ltac:(lia)) as E3.
  pose proof (N.mod_lt (hour t) 10 ltac:(lia)) as L3.
  pose proof (N.div_mod (minute t) 10 ltac:(lia)) as E4.
  pose proof (N.mod_lt (minute t) 10 ltac:(lia)) as L4.
  revert E1 L1 E2 L2 E3 L3 E4 L4.
  generalize (hour s / 10)%N (hour s mod 10)%N (minute s / 10)%N
             (minute s mod 10)%N (hour t / 10)%N (hour t mod 10)%N
             (minute t / 10)%N (minute t mod 10)%N.
  intros a1 a0 b1 b0 c1 c0 d1 d0 E1 L1 E2 L2 E3 L3 E4 L4.
  cbn [str_ltb].
  repeat match goal with
         | |- context [(?x <? ?y)%N] => destruct (N.ltb_spec x y)
         | |- context [(?x =? ?y)%N] => destruct (N.eqb_spec x y)
         end; cbn [orb andb]; try reflexivity; lia.
Qed.

Lemma str_leb_clock s t :
  validTime s -> validTime t ->
  str_leb (clock s) (clock t) = (minuteOfDay s <=? minuteOfDay t)%N.
Proof.
  intros Hs Ht. unfold str_leb. rewrite str_ltb_clock by assumption.
  now rewrite N.leb_antisym.
Qed.

(** X15. On times written as HH:MM, the comparison of strings that
    [isTimeInRange] makes is the comparison of the minutes of the day, and a
    range whose start is after its end runs over midnight: the time of a
    session, seconds or not after its minutes, is in such a range when it is
    at or after the start or at or before the end. With one bound only the
    range is open on the other side. *)
Theorem isTimeInRange_minutes t s e seconds :
  validTime t -> validTime s -> validTime e ->
  Directional.isTimeInRange (Some (clock t ++ seconds)) (clock s) (clock e) =
    (if (minuteOfDay s <=? minuteOfDay e)%N
     then (minuteOfDay s <=? minuteOfDay t)%N && (minuteOfDay t <=? minuteOfDay e)%N
     else (minuteOfDay s <=? minuteOfDay t)%N || (minuteOfDay t <=? minuteOfDay e)%N)
  /\ Directional.isTimeInRange (Some (clock t ++ seconds)) (clock s) [] =
       (minuteOfDay s <=? minuteOfDay t)%N
  /\ Directional.isTimeInRange (Some (clock t ++ seconds)) [] (clock e) =
       (minuteOfDay t <=? minuteOfDay e)%N.
Proof.
  intros Ht Hs He. unfold Directional.isTimeInRange.
  change (firstn 5 (clock t ++ seconds)) with (clock t).
  change (truthy (clock t ++ seconds)) with true.
  change (truthy (clock s)) with true. change (truthy (clock e)) with true.
  cbn [negb andb truthy].
  rewrite !str_leb_clock by assumption. repeat split; reflexivity.
Qed.

(** ** The session store *)

Lemma NoDup_map_filter {A B} (f : A -> B) (p : A -> bool) (l : list A) :
  List.NoDup (List.map f l) -> List.NoDup (List.map f (List.filter p l)).
Proof.
  induction l as [|x l IH]; simpl; [easy|].
  intros H. apply List.NoDup_cons_iff in H as [Hx Hl].
  destruct (p x); [|now apply IH]. simpl. apply List.NoDup_cons_iff.
  split; [|now apply IH]. intros Hin. apply Hx.
  apply in_map_iff in Hin as (y & Hy & Hin). apply filter_In in Hin as [Hin _].
  rewrite <- Hy. now apply in_map.
Qed.

Lemma filter_none {A} (p : A -> bool) (l : list A) :
  (forall x, In x l -> p x = false) -> List.filter p l = [].
Proof.
  induction l as [|x l IH]; [reflexivity|]. intros H. simpl.
  rewrite (H x) by now left. apply IH. intros y Hy. apply H. now right.
Qed.

Lemma appendSessions_known newSessions prev s :
  In s newSessions ->
  In (sessionKey s) (List.map sessionKey (appendSessions newSessions prev)).
Proof.
  intros Hs. unfold appendSessions. rewrite List.map_app, in_app_iff.
  destruct (decide (sessionKey s ∈ List.map sessionKey prev)) as [H|H];
    [left; now apply list_elem_of_In|right].
  apply in_map, filter_In. split; [assumption|].
  apply negb_true_iff, bool_decide_eq_false.
  now rewrite elem_of_list_to_set.
Qed.

(** X16. What [appendSessions] does to the store. The stored sessions stay
    where they are, and what is added after them is a part of the batch in
    the order of the batch. After the update the store holds, for every
    session of the batch, a session with the same key, and appending the
    same batch once more changes nothing. *)
Theorem appendSessions_again newSessions prev :
  (exists added,
     appendSessions newSessions prev = prev ++ added
     /\ sublist added newSessions)
  /\ (forall s, In s newSessions ->
        exists s', In s' (appendSessions newSessions prev)
                   /\ sessionKey s' = sessionKey s)
  /\ appendSessions newSessions (appendSessions newSessions prev)
     = appendSessions newSessions prev.
Proof.
  split; [|split].
  - eexists. split; [reflexivity|apply filter_sublist].
  - intros s Hs. apply (appendSessions_known _ prev) in Hs.
    apply in_map_iff in Hs as (s' & Hk & Hin). eauto.
  - unfold appendSessions at 1.
    rewrite <- (app_nil_r (appendSessions newSessions prev)) at 2. f_equal.
    apply filter_none. intros s Hs.
    apply negb_false_iff, bool_decide_eq_true.
    rewrite elem_of_list_to_set, list_elem_of_In.
    now apply appendSessions_known.
Qed.

(** X17. When no two stored sessions have the same key and no two sessions
    of the batch have, no two sessions of the store have the same key after
    [appendSessions]. The batch is compared with the store only and not with
    itself: a batch that holds a session twice puts it twice into an empty
    store. *)
Theorem appendSessions_unique_keys newSessions prev :
  List.NoDup (List.map sessionKey prev) ->
  List.NoDup (List.map sessionKey newSessions) ->
  List.NoDup (List.map sessionKey (appendSessions newSessions prev))
  /\ forall s, appendSessions [s; s] [] = [s; s].
Proof.
  intros Hprev Hnew. split; [|reflexivity].
  unfold appendSessions. rewrite List.map_app.
  apply NoDup_ListNoDup, NoDup_app. repeat split.
  - now apply NoDup_ListNoDup.
  - intros k Hk Hin. apply list_elem_of_In, in_map_iff in Hin as (s & <- & Hs).
    apply filter_In in Hs as [_ Hs].
    apply negb_true_iff, bool_decide_eq_false in Hs. apply Hs.
    now apply elem_of_list_to_set.
  - apply NoDup_ListNoDup. now apply NoDup_map_filter.
Qed.

(** ** Legal references of a session *)

Lemma addAll_In x (ids existing : list jsstring) :
  In x (Legal.addAll existing ids) <-> In x existing \/ In x ids.
Proof.
  revert existing. induction ids as [|id ids IH]; intros existing; simpl.
  - tauto.
  - rewrite IH. destruct (inList id existing) eqn:E.
    + apply inList_In in E. split; [tauto|]. intros [H|[<-|H]]; auto.
    + rewrite in_app_iff. simpl. tauto.
Qed.

Lemma addAll_NoDup (ids existing : list jsstring) :
  List.NoDup existing -> List.NoDup (Legal.addAll existing ids).
Proof.
  revert existing. induction ids as [|id ids IH]; intros existing H; simpl.
  - assumption.
  - apply IH. destruct (inList id existing) eqn:E; [assumption|].
    apply NoDup_ListNoDup, NoDup_app. repeat split.
    + now apply NoDup_ListNoDup.
    + intros y Hy Hin. apply list_elem_of_In in Hy.
      apply list_elem_of_In in Hin as [<-|[]].
      apply inList_In in Hy. congruence.
    + apply NoDup_singleton.
Qed.

Lemma addAll_NoDup_same (ids existing : list jsstring) :
  List.NoDup (existing ++ ids) -> Legal.addAll existing ids = existing ++ ids.
Proof.
  revert existing. induction ids as [|id ids IH]; intros existing H; simpl.
  - now rewrite app_nil_r.
  - assert (E : inList id existing = false).
    { destruct (inList id existing) eqn:E; [|reflexivity].
      apply inList_In in E. apply List.NoDup_remove_2 in H.
      exfalso. apply H. apply in_app_iff. now left. }
    rewrite E, IH; rewrite <- app_assoc; [reflexivity|exact H].
Qed.

(** X18. What [linkLegalReference] does when it has found ids to link.
    The sessions stay in their places. A session outside the selection is
    not touched. A session of the selection keeps all its fields but the
    list of linked ids, which afterwards holds no id twice and holds exactly
    the ids that were linked before and the ids to link. *)
Theorem linkLegalReference_links manualSelection idsToLink prev :
  idsToLink <> [] ->
  Forall2 (fun s s' =>
             if bool_decide (sessionId s ∈ manualSelection) then
               exists ids,
                 s' = Legal.withLegalReferenceIds s ids
                 /\ List.NoDup ids
                 /\ forall id, In id ids <-> In id (Legal.linkedIds s) \/ In id idsToLink
             else s' = s)
          prev (Legal.linkLegalReference manualSelection idsToLink prev).
Proof.
  intros Hids. unfold Legal.linkLegalReference.
  destruct (size manualSelection =? 0) eqn:Esize.
  { apply Nat.eqb_eq, size_empty_iff in Esize. cbn [orb].
    induction prev as [|s prev IH]; constructor; [|exact IH].
    rewrite bool_decide_eq_false_2; [reflexivity|]. rewrite Esize. set_solver. }
  destruct idsToLink as [|i0 idsToLink]; [easy|]. cbn [orb length Nat.eqb].
  induction prev as [|s prev IH]; constructor; [|exact IH].
  destruct (bool_decide (sessionId s ∈ manualSelection)); [|reflexivity].
  eexists. split; [reflexivity|]. split.
  - apply addAll_NoDup, addAll_NoDup. constructor.
  - intros id. rewrite !addAll_In. simpl. tauto.
Qed.

Section LegalFilter.
Context `{host : Host}.
Variable legalReferences : list Legal.LegalReference.

(** X19. A reference that has just been linked is found by the filter: when
    [linkLegalReference] links an id whose reference carries a label, every
    session of the selection passes, after the update, the stage of the
    filter that asks for that label. *)
Theorem linkLegalReference_then_filter manualSelection idsToLink prev
  id label s :
  Legal.labelOf legalReferences id = Some label ->
  In id idsToLink -> In s prev -> sessionId s ∈ manualSelection ->
  exists s',
    In s' (Legal.linkLegalReference manualSelection idsToLink prev)
    /\ sessionId s' = sessionId s
    /\ Legal.legalStage legalReferences [label] s' = true.
Proof.
  intros Hlabel Hid Hs Hsel. unfold Legal.linkLegalReference.
  assert (Esize : (size manualSelection =? 0) = false).
  { apply Nat.eqb_neq. intros E. apply size_empty_iff in E.
    rewrite E in Hsel. set_solver. }
  rewrite Esize. destruct idsToLink as [|i0 rest] eqn:Eids; [easy|].
  rewrite <- Eids in *. cbn [orb]. replace (length idsToLink =? 0) with false
    by (rewrite Eids; reflexivity).
  eexists. split.
  - apply in_map_iff. exists s. split; [reflexivity|assumption].
  - rewrite bool_decide_eq_true_2 by assumption. split; [reflexivity|].
    unfold Legal.legalStage. cbn [legalReferenceIds Legal.withLegalReferenceIds].
    cbn [existsb]. rewrite orb_false_r. apply existsb_exists.
    exists (Some label). split; [|apply eqs_refl].
    rewrite <- Hlabel. apply in_map. apply addAll_In. now right.
Qed.

End LegalFilter.

(** X20. What [unlinkLegalReference] does. The sessions stay in their
    places and keep their ids. A session with another id is not touched.
    After the update no session with the given id is linked to the given
    reference, and as to every other reference each session is linked as it
    was before. *)
Theorem unlinkLegalReference_unlinks id refId prev :
  Forall2 (fun s s' =>
             sessionId s' = sessionId s
             /\ (sessionId s <> id -> s' = s)
             /\ (sessionId s = id -> ~ In refId (Legal.linkedIds s'))
             /\ forall i, i <> refId -> (In i (Legal.linkedIds s') <-> In i (Legal.linkedIds s)))
          prev (Legal.unlinkLegalReference id refId prev).
Proof.
  unfold Legal.unlinkLegalReference.
  induction prev as [|s prev IH]; constructor; [|exact IH].
  unfold Legal.linkedIds.
  destruct (legalReferenceIds s) as [ids|] eqn:E; [|now rewrite E].
  destruct (eqs (sessionId s) id) eqn:Eid.
  - apply eqs_eq in Eid.
    cbn [sessionId legalReferenceIds Legal.withLegalReferenceIds].
    repeat split.
    + congruence.
    + intros _ Hin. apply filter_In in Hin as [_ Hin].
      now rewrite eqs_refl in Hin.
    + intros Hin. now apply filter_In in Hin as [Hin _].
    + intros Hin. apply filter_In. split; [assumption|].
      destruct (eqs i refId) eqn:Ei; [|reflexivity].
      apply eqs_eq in Ei. congruence.
  - rewrite E. repeat split; try tauto.
    intros Hid. apply eqs_eq in Hid. congruence.
Qed.

(** X21. Linking one reference to the one selected session id and
    unlinking it again gives back the links that the sessions had, when the
    sessions with that id were not linked to the reference before and none
    of them held an id twice. A session with that id whose list of links
    was absent comes back with an empty list. *)
Theorem link_then_unlink id refId prev :
  (forall s, In s prev -> sessionId s = id ->
     List.NoDup (Legal.linkedIds s) /\ ~ In refId (Legal.linkedIds s)) ->
  Forall2 (fun s s' => s' = s
                       \/ (sessionId s = id /\ legalReferenceIds s = None
                           /\ s' = Legal.withLegalReferenceIds s []))
          prev
          (Legal.unlinkLegalReference id refId
             (Legal.linkLegalReference {[ id ]} [refId] prev)).
Proof.
  unfold Legal.unlinkLegalReference, Legal.linkLegalReference.
  rewrite size_singleton. cbn [Nat.eqb orb length].
  rewrite List.map_map.
  induction prev as [|s prev IH]; intros Hprev; constructor.
  2:{ apply IH. intros s' Hs'. apply Hprev. now right. }
  destruct (bool_decide (sessionId s ∈ ({[ id ]} : gset (list N)))) eqn:Esel.
  - apply bool_decide_eq_true, elem_of_singleton in Esel.
    destruct (Hprev s (or_introl eq_refl) Esel) as [Hnd Hin].
    cbn [legalReferenceIds sessionId Legal.withLegalReferenceIds].
    rewrite Esel, eqs_refl.
    rewrite (addAll_NoDup_same (Legal.linkedIds s) []) by exact Hnd. cbn [app].
    rewrite addAll_NoDup_same.
    2:{ apply NoDup_ListNoDup, NoDup_app. repeat split.
        - now apply NoDup_ListNoDup.
        - intros y Hy Hy'. apply list_elem_of_In in Hy.
          apply list_elem_of_In in Hy' as [<-|[]]. contradiction.
        - apply NoDup_singleton. }
    rewrite List.filter_app. cbn [List.filter]. rewrite eqs_refl. cbn [negb].
    rewrite app_nil_r.
    assert (Hkeep : List.filter (fun i => negb (eqs i refId)) (Legal.linkedIds s) = Legal.linkedIds s).
    { apply filter_ne_absent. destruct (inList refId (Legal.linkedIds s)) eqn:E;
        [|reflexivity]. now apply inList_In in E. }
    rewrite Hkeep. destruct s as [? ? ? ? ? ? ? ? ? ? ? ? [l|]]; cbn in *.
    + now left.
    + right. subst. repeat split.
  - apply bool_decide_eq_false in Esel.
    assert (Hne : eqs (sessionId s) id = false).
    { destruct (eqs (sessionId s) id) eqn:E; [|reflexivity].
      apply eqs_eq in E. exfalso. apply Esel. now apply elem_of_singleton. }
    rewrite Hne. left. now destruct (legalReferenceIds s).
Qed.

(** ** Identities and selections *)

Lemma fold_setAlias_lookup targetName (selected : list jsstring) :
  forall (m : gmap (list N) (list N)) (k : jsstring),
    fold_left (Directional.setAlias targetName) selected m !! k =
    if inList k selected && negb (eqs k (str "__proto__"))
    then Some targetName else m !! k.
Proof.
  induction selected as [|id l IH]; intros m k; [reflexivity|].
  cbn [fold_left]. rewrite IH. unfold Directional.setAlias.
  cbn [inList existsb]. fold (inList k l).
  destruct (inList k l && negb (eqs k (str "__proto__"))) eqn:E.
  - apply andb_true_iff in E as [-> ->]. now rewrite orb_true_r.
  - destruct (eqs k id) eqn:Ek.
    + apply eqs_eq in Ek. subst id. cbn [orb].
      destruct (eqs k (str "__proto__")); [reflexivity|].
      cbn [negb andb]. now rewrite lookup_insert_eq.
    + cbn [orb]. rewrite E.
      destruct (eqs id (str "__proto__")); [reflexivity|].
      apply lookup_insert_ne. intros ->. now rewrite eqs_refl in Ek.
Qed.

Lemma trim_nil_blank (s : jsstring) : truthy (trim s) = true -> truthy s = true.
Proof. now destruct s. Qed.

(** X22. Merging and resolving. When [handleMerge] saves a table, every
    selected identity, the empty string and the reserved key __proto__
    apart, resolves in that table to the name that was typed, as typed and
    not trimmed; an identity that was not selected resolves as it did
    before. Nothing is saved when the name is blank or nothing is
    selected. *)
Theorem handleMerge_then_resolve aliasMap selected targetName :
  match Directional.handleMerge aliasMap selected targetName with
  | Some newMap =>
      truthy (trim targetName) = true /\ selected <> []
      /\ (forall id, In id selected -> id <> [] -> id <> str "__proto__" ->
            Directional.resolve newMap (Some id) = Some targetName)
      /\ (forall v, ~ In v selected ->
            Directional.resolve newMap (Some v) =
            Directional.resolve aliasMap (Some v))
  | None => truthy (trim targetName) = false \/ selected = []
  end.
Proof.
  unfold Directional.handleMerge.
  destruct (truthy (trim targetName)) eqn:Ename; cbn [negb orb]; [|now left].
  destruct selected as [|id0 rest] eqn:Esel; [now right|].
  rewrite <- Esel. replace (length selected =? 0) with false
    by (now rewrite Esel).
  split; [reflexivity|]. split; [now rewrite Esel|]. split.
  - intros id Hin Hne Hproto. unfold Directional.resolve.
    destruct id as [|c id]; [easy|]. cbn [truthy negb].
    rewrite fold_setAlias_lookup.
    apply inList_In in Hin. rewrite Hin.
    destruct (eqs (c :: id) (str "__proto__")) eqn:E;
      [now apply eqs_eq in E|].
    cbn [negb andb]. now rewrite (trim_nil_blank _ Ename).
  - intros v Hv. unfold Directional.resolve.
    rewrite fold_setAlias_lookup.
    destruct (inList v selected) eqn:E; [now apply inList_In in E|].
    reflexivity.
Qed.

Lemma toggle_In id x (prev : list jsstring) :
  In x (Directional.toggle id prev) <->
  (x = id /\ ~ In id prev) \/ (x <> id /\ In x prev).
Proof.
  unfold Directional.toggle. destruct (inList id prev) eqn:E.
  - apply inList_In in E. rewrite filter_In, negb_true_iff. split.
    + intros [Hx Hne]. right. split; [|assumption]. intros ->.
      now rewrite eqs_refl in Hne.
    + intros [[-> H]|[Hne Hx]]; [contradiction|]. split; [assumption|].
      destruct (eqs x id) eqn:Ex; [|reflexivity]. now apply eqs_eq in Ex.
  - assert (Hn : ~ In id prev) by (intros H; apply inList_In in H; congruence).
    rewrite in_app_iff. simpl. split.
    + intros [Hx|[<-|[]]]; [|now left]. right. split; [|assumption].
      now intros ->.
    + intros [[-> _]|[_ Hx]]; auto.
Qed.

(** X23. What a click on an entry does to a list of chosen entries, in the
    identity manager, in the dropdowns and in the list of active tags. The
    entry clicked changes sides, every other entry stays as it was, a list
    without repetitions stays without, and a second click on an entry that
    was not chosen gives back the list as it was. A click on the tag that is
    being renamed changes nothing. *)
Theorem toggle_flips_one id (prev : list jsstring) :
  (forall x, In x (Directional.toggle id prev) <->
             (x = id /\ ~ In id prev) \/ (x <> id /\ In x prev))
  /\ (List.NoDup prev -> List.NoDup (Directional.toggle id prev))
  /\ (~ In id prev ->
      Directional.toggle id (Directional.toggle id prev) = prev)
  /\ Directional.toggleTag None id prev = Directional.toggle id prev
  /\ (forall editing,
        Directional.toggleTag (Some editing) id prev =
        if eqs editing id then prev else Directional.toggle id prev).
Proof.
  split; [intros x; apply toggle_In|]. split; [|split; [|split]].
  - intros Hnd. unfold Directional.toggle. destruct (inList id prev) eqn:E.
    + now apply List.NoDup_filter.
    + apply NoDup_ListNoDup, NoDup_app. repeat split.
      * now apply NoDup_ListNoDup.
      * intros y Hy Hin. apply list_elem_of_In in Hy.
        apply list_elem_of_In in Hin as [<-|[]].
        apply inList_In in Hy. congruence.
      * apply NoDup_singleton.
  - intros Hn. unfold Directional.toggle.
    assert (E : inList id prev = false).
    { destruct (inList id prev) eqn:E; [|reflexivity]. now apply inList_In in E. }
    rewrite E.
    assert (E' : inList id (prev ++ [id]) = true).
    { apply inList_In, in_app_iff. right. now left. }
    rewrite E', List.filter_app. cbn [List.filter]. rewrite eqs_refl.
    cbn [negb]. rewrite app_nil_r. now apply filter_ne_absent.
  - reflexivity.
  - reflexivity.
Qed.

(** ** Sorting and tags *)

Section SortAndTags.
Context `{host : Host}.
Variable aliasMap : gmap (list N) (list N).

(** X24. In the orders by date and by duration, which compare numbers
    read from the sessions themselves, the sort stage rearranges the listing
    and loses or repeats no session. In the two orders by date the date keys
    never decrease, respectively never increase, down the list, and the
    sessions of one date stay in the order in which the filter listed
    them. *)
Theorem sortedSessions_rearranges (filtered : list ParsedSession) :
  Permutation filtered
    (Directional.sortedSessions aliasMap Directional.date_asc filtered)
  /\ Permutation filtered
       (Directional.sortedSessions aliasMap Directional.date_desc filtered)
  /\ Permutation filtered
       (Directional.sortedSessions aliasMap Directional.duration_desc filtered)
  /\ Sorted (fun x y => jgt (Directional.dateKey x) (Directional.dateKey y) = false)
            (Directional.sortedSessions aliasMap Directional.date_asc filtered)
  /\ Sorted (fun x y => jlt (Directional.dateKey x) (Directional.dateKey y) = false)
            (Directional.sortedSessions aliasMap Directional.date_desc filtered)
  /\ forall k,
       List.filter (Directional.sameDate k)
         (Directional.sortedSessions aliasMap Directional.date_asc filtered)
       = List.filter (Directional.sameDate k) filtered
       /\ List.filter (Directional.sameDate k)
            (Directional.sortedSessions aliasMap Directional.date_desc filtered)
          = List.filter (Directional.sameDate k) filtered.
Proof.
  do 3 (split; [apply sortWith_perm|]).
  destruct (date_sort_keeps_pipeline_order aliasMap filtered)
    as (_ & _ & H1 & H2 & H3).
  auto.
Qed.

Lemma filteredSessions_as_filter f activeTagIds savedTags viewOnlySelected
  manualSelection :
  exists p, forall sessions,
    Directional.filteredSessions aliasMap sessions f activeTagIds savedTags
      viewOnlySelected manualSelection = Ret (List.filter p sessions).
Proof.
  unfold Directional.filteredSessions.
  destruct viewOnlySelected, activeTagIds as [|x l]; eexists; intros sessions;
    rewrite filterM_keepSession, ?filter_filter_and; reflexivity.
Qed.

Lemma filter_in_listing (p : ParsedSession -> bool) (sessions : list ParsedSession) :
  List.NoDup (List.map sessionId sessions) ->
  List.filter
    (fun s => bool_decide
                (sessionId s ∈
                   (list_to_set (List.map sessionId (List.filter p sessions))
                    : gset (list N))))
    sessions
  = List.filter p sessions.
Proof.
  intros Hnd. apply List.filter_ext_in. intros s Hs.
  destruct (p s) eqn:Ep.
  - apply bool_decide_eq_true, elem_of_list_to_set, list_elem_of_In, in_map.
    apply filter_In. now split.
  - apply bool_decide_eq_false. rewrite elem_of_list_to_set, list_elem_of_In.
    intros Hin. apply in_map_iff in Hin as (s' & Hid & Hs').
    apply filter_In in Hs' as [Hs' Hp'].
    assert (s' = s); [|congruence].
    clear -Hnd Hs Hs' Hid. induction sessions as [|x l IH]; [easy|].
    cbn [List.map] in Hnd. apply List.NoDup_cons_iff in Hnd as [Hx Hl].
    destruct Hs as [->|Hs], Hs' as [->|Hs']; auto.
    + exfalso. apply Hx. rewrite <- Hid. now apply in_map.
    + exfalso. apply Hx. rewrite Hid. now apply in_map.
Qed.

(** X25. A tag brings its listing back. When no two stored sessions have
    the same id, nothing is selected, and the clock reading is the id of no
    saved tag, the tag that [saveTag] makes of a listing, under whatever
    order it is shown, lists the same sessions again once it is the only
    active tag and the filters are cleared. *)
Theorem saved_tag_lists_again now tagName sortOption sessions f activeTagIds
  savedTags viewOnlySelected manualSelection :
  List.NoDup (List.map sessionId sessions) ->
  truthy (trim tagName) = true ->
  (forall t, In t savedTags -> tag_id t <> now) ->
  exists result savedTags',
    Directional.filteredSessions aliasMap sessions f activeTagIds savedTags
      viewOnlySelected manualSelection = Ret result
    /\ Directional.saveTag now tagName []
         (Directional.sortedSessions aliasMap sortOption result) savedTags
       = Some savedTags'
    /\ Directional.filteredSessions aliasMap sessions Directional.clearedFilters
         [now] savedTags' false ∅ = Ret result.
Proof.
  intros Hnd Hname Hfresh.
  destruct (filteredSessions_as_filter f activeTagIds savedTags
              viewOnlySelected manualSelection) as (p & Hp).
  exists (List.filter p sessions). eexists. split; [apply Hp|].
  unfold Directional.saveTag. rewrite Hname. cbn [negb length Nat.ltb Nat.leb].
  split; [reflexivity|].
  unfold Directional.filteredSessions. rewrite filterM_keepSession.
  f_equal.
  rewrite (List.filter_ext _ (fun _ => true) (keeps_cleared aliasMap)), filter_true.
  cbn [List.filter tag_id inList existsb]. rewrite eqs_refl. cbn [orb].
  rewrite (filter_none _ savedTags).
  2:{ intros t Ht. rewrite orb_false_r.
      destruct (eqs (tag_id t) now) eqn:E; [|reflexivity].
      apply eqs_eq in E. now apply Hfresh in Ht. }
  cbn [List.map List.concat tag_sessionIds]. rewrite app_nil_r.
  etransitivity; [|apply (filter_in_listing p sessions Hnd)].
  apply List.filter_ext. intros s. apply bool_decide_ext.
  rewrite !elem_of_list_to_set, !list_elem_of_In.
  unfold Directional.sortedSessions.
  split; apply Permutation_in;
    [symmetry|]; apply Permutation_map, sortWith_perm.
Qed.

End SortAndTags.

(** ** The entries of the dropdowns *)

Lemma str_ltb_asym a b : str_ltb a b = true -> str_ltb b a = false.
Proof.
  revert b. induction a as [|x a IH]; intros [|y b]; simpl; try easy.
  intros H. apply orb_true_iff in H as [H|H].
  - apply N.ltb_lt in H.
    destruct (N.ltb_spec y x); [lia|]. destruct (N.eqb_spec y x); [lia|easy].
  - apply andb_true_iff in H as [Hxy H]. apply N.eqb_eq in Hxy. subst y.
    rewrite N.ltb_irrefl, N.eqb_refl. simpl. now apply IH.
Qed.

Lemma str_ltb_connected a b :
  str_ltb a b = false -> str_ltb b a = false -> a = b.
Proof.
  revert b. induction a as [|x a IH]; intros [|y b]; simpl; try easy.
  intros H1 H2. apply orb_false_iff in H1 as [L1 E1], H2 as [L2 E2].
  apply N.ltb_ge in L1, L2. assert (x = y) by lia. subst y.
  rewrite N.eqb_refl in E1, E2. simpl in *. f_equal. now apply IH.
Qed.

Lemma defaultCompare_gt a b :
  jgt (defaultCompare a b) (ofZ 0) = str_ltb b a && negb (str_ltb a b).
Proof.
  unfold defaultCompare.
  destruct (str_ltb a b) eqn:E1, (str_ltb b a) eqn:E2; reflexivity.
Qed.

Lemma fold_addOnce_In x (added existing : list jsstring) :
  In x (fold_left addOnce added existing) <-> In x existing \/ In x added.
Proof.
  revert existing. induction added as [|v l IH]; intros existing; simpl.
  - tauto.
  - rewrite IH. unfold addOnce. destruct (inList v existing) eqn:E.
    + apply inList_In in E. split; [tauto|]. intros [H|[<-|H]]; auto.
    + rewrite in_app_iff. simpl. tauto.
Qed.

Lemma fold_addOnce_NoDup (added existing : list jsstring) :
  List.NoDup existing -> List.NoDup (fold_left addOnce added existing).
Proof.
  revert existing. induction added as [|v l IH]; intros existing H; simpl.
  - assumption.
  - apply IH. unfold addOnce. destruct (inList v existing) eqn:E; [assumption|].
    apply NoDup_ListNoDup, NoDup_app. repeat split.
    + now apply NoDup_ListNoDup.
    + intros y Hy Hin. apply list_elem_of_In in Hy.
      apply list_elem_of_In in Hin as [<-|[]].
      apply inList_In in Hy. congruence.
    + apply NoDup_singleton.
Qed.

Lemma Sorted_strict (l : list jsstring) :
  Sorted (notAfter defaultCompare) l -> List.NoDup l ->
  Sorted (fun a b => str_ltb a b = true) l.
Proof.
  induction 1 as [|x l Hs IH Hhd]; intros Hnd; constructor.
  - apply IH. now apply List.NoDup_cons_iff in Hnd.
  - destruct Hhd as [|y l Hxy]; constructor.
    unfold notAfter in Hxy. rewrite defaultCompare_gt in Hxy.
    destruct (str_ltb x y) eqn:E; [reflexivity|]. rewrite andb_true_r in Hxy.
    pose proof (str_ltb_connected x y E Hxy) as ->.
    apply List.NoDup_cons_iff in Hnd as [Hnd _]. exfalso. apply Hnd. now left.
Qed.

(** The entries of a dropdown: in ascending order of the code units with
    no entry twice, and the values that were added and no others. *)
Lemma sortedSet_spec (added : list jsstring) :
  (Sorted (fun a b => str_ltb a b = true) (sortedSet added)
   /\ List.NoDup (sortedSet added))
  /\ forall x, In x (sortedSet added) <-> In x added.
Proof.
  unfold sortedSet.
  assert (Hnd : List.NoDup (sortWith defaultCompare (fold_left addOnce added []))).
  { eapply Permutation_NoDup; [apply sortWith_perm|].
    apply fold_addOnce_NoDup. constructor. }
  split; [split; [|exact Hnd]|].
  - apply Sorted_strict; [|exact Hnd].
    apply sortWith_sorted. intros x y. rewrite !defaultCompare_gt.
    intros H. apply andb_true_iff in H as [H _]. rewrite H. apply andb_false_r.
  - intros x. split.
    + intros H. eapply Permutation_in in H; [|symmetry; apply sortWith_perm].
      apply fold_addOnce_In in H as [[]|H]. exact H.
    + intros H. eapply Permutation_in; [apply sortWith_perm|].
      apply fold_addOnce_In. now right.
Qed.

Lemma rawField_In x v : In x (rawField v) <-> v = Some x /\ x <> [].
Proof.
  unfold rawField. destruct v as [y|]; [|split; [easy|now intros [[=] _]]].
  destruct y as [|c y]; simpl.
  - split; [easy|]. now intros [[= <-] H].
  - split; [intros [<-|[]]; now split|intros [[= <-] _]; now left].
Qed.

Section DropdownProperties.
Variable aliasMap : gmap (list N) (list N).

Lemma resolvedField_In x v :
  In x (resolvedField aliasMap v) <-> Directional.resolve aliasMap v = Some x.
Proof.
  unfold resolvedField. destruct (Directional.resolve aliasMap v) as [y|]; simpl.
  - split; [now intros [->|[]]|intros [= ->]; now left].
  - split; [easy|discriminate].
Qed.

Lemma resolveOnObject_plain v :
  plainKey aliasMap v = true ->
  resolveOnObject aliasMap v = option_map AString (Directional.resolve aliasMap v).
Proof.
  unfold plainKey, resolveOnObject, Directional.resolve.
  destruct v as [x|]; [|reflexivity].
  destruct (truthy x); cbn [negb]; [|reflexivity].
  destruct (aliasMap !! x) as [shown|].
  - intros _. now destruct (truthy shown).
  - intros H. apply negb_true_iff in H. now rewrite H.
Qed.

Lemma speakerPrefix_start line name :
  Directional.speakerPrefix line = Some name ->
  exists c run, name = c :: run /\ Directional.isNameStart c = true.
Proof.
  unfold Directional.speakerPrefix. destruct line as [|c rest]; [discriminate|].
  destruct (Directional.isNameStart c) eqn:Ec; [|discriminate].
  destruct (dropWhile Directional.isNameChar rest) as [|d l]; [discriminate|].
  destruct (_ && _ && _); [|discriminate].
  intros [= <-]. eauto.
Qed.

Lemma dropWhile_keeps_last {A} (f : A -> bool) (l : list A) (x : A) :
  f x = false -> exists l', dropWhile f (l ++ [x]) = l' ++ [x].
Proof.
  intros Hx. induction l as [|y l IH]; cbn [app dropWhile].
  - rewrite Hx. now exists [].
  - destruct (f y); [exact IH|]. now exists (y :: l).
Qed.

Lemma trim_keeps_first c (run : jsstring) :
  isWhiteSpace c = false -> exists r, trim (c :: run) = c :: r.
Proof.
  intros Hc. unfold trim. cbn [dropWhile]. rewrite Hc. cbn [rev].
  destruct (dropWhile_keeps_last isWhiteSpace (rev run) c Hc) as [l' ->].
  rewrite rev_unit. eauto.
Qed.

(** A name that the speaker pattern finds starts with a capital letter, and
    is the name of no inherited member. *)
Lemma speakerNames_plain s name :
  In name (speakerNames s) -> plainKey aliasMap (Some name) = true.
Proof.
  unfold speakerNames. intros H. apply in_concat in H as (l & Hl & Hname).
  apply in_map_iff in Hl as (line & <- & _).
  destruct (Directional.speakerPrefix line) as [found|] eqn:E; [|destruct Hname].
  destruct Hname as [<-|[]].
  apply speakerPrefix_start in E as (c & run & -> & Hc).
  assert (Hrange : (65 <= c <= 90 \/ 192 <= c <= 218)%N)
    by (unfold Directional.isNameStart in Hc; nbool; lia).
  destruct (trim_keeps_first c run) as [r ->].
  { unfold isWhiteSpace. nbool. lia. }
  unfold plainKey. destruct (aliasMap !! (c :: r)); [reflexivity|].
  apply negb_true_iff.
  let keys := eval vm_compute in inheritedKeys in change inheritedKeys with keys.
  cbn [inList existsb eqs]. unfold cu_eqb.
  repeat match goal with
         | |- context [(c =? ?k)%N] =>
             destruct (N.eqb_spec c k) as [?|_]; [lia|]
         end.
  reflexivity.
Qed.

(** X26. The entries of the dropdowns of numbers and of speakers, and the
    identities offered for merging, for sessions none of whose five
    identity fields names a member that the alias table, a plain object,
    inherits without having it as a key. On such sessions every lookup in
    the table gives a string, the one that [resolve] stands for here. Each
    list is in ascending order of the code units and holds no entry twice. A
    value is offered as a number exactly when the target, the source number
    or the destination number of some session resolves to it, and as a
    speaker exactly when the source name, the destination name or a name
    found at the start of a line of the content of some session does. The
    identities are the non-empty values of those five fields and the names
    found, unresolved. *)
Theorem dropdown_entries sessions :
  (forall s, In s sessions -> plainIdentities aliasMap s = true) ->
  (forall s v,
     In s sessions ->
     In v (identityFields s)
     \/ (exists name, In name (speakerNames s) /\ v = Some name) ->
     resolveOnObject aliasMap v =
     option_map AString (Directional.resolve aliasMap v))
  /\ (Sorted (fun a b => str_ltb a b = true) (allNumbers aliasMap sessions)
      /\ List.NoDup (allNumbers aliasMap sessions))
  /\ (Sorted (fun a b => str_ltb a b = true) (allSpeakers aliasMap sessions)
      /\ List.NoDup (allSpeakers aliasMap sessions))
  /\ (forall x,
        In x (allNumbers aliasMap sessions) <->
        exists s v, In s sessions
                    /\ In v [Some (target s); sourceNumber s; destinationNumber s]
                    /\ Directional.resolve aliasMap v = Some x)
  /\ (forall x,
        In x (allSpeakers aliasMap sessions) <->
        exists s v, In s sessions
                    /\ (In v [sourceName s; destinationName s]
                        \/ exists name, In name (speakerNames s) /\ v = Some name)
                    /\ Directional.resolve aliasMap v = Some x)
  /\ (Sorted (fun a b => str_ltb a b = true) (rawIdentities sessions)
      /\ List.NoDup (rawIdentities sessions))
  /\ (forall x,
        In x (rawIdentities sessions) <->
        exists s, In s sessions
                  /\ ((x <> []
                       /\ In (Some x) [Some (target s); sourceNumber s;
                                       destinationNumber s; sourceName s;
                                       destinationName s])
                      \/ In x (speakerNames s))).
Proof.
  intros Hplain. split.
  { intros s v Hs Hv. apply resolveOnObject_plain.
    destruct Hv as [Hv|(name & Hname & ->)].
    - specialize (Hplain s Hs). unfold plainIdentities in Hplain.
      rewrite forallb_forall in Hplain. now apply Hplain.
    - now apply (speakerNames_plain s). }
  unfold allNumbers, allSpeakers, rawIdentities.
  split; [apply sortedSet_spec|]. split; [apply sortedSet_spec|].
  split; [|split; [|split; [apply sortedSet_spec|]]].
  3:{ intros x. rewrite (proj2 (sortedSet_spec _)), in_concat. split.
      - intros (l & Hl & Hx). apply in_map_iff in Hl as (s & <- & Hs).
        exists s. split; [assumption|].
        unfold rawOf in Hx. rewrite !in_app_iff, !rawField_In in Hx.
        simpl. intuition (subst; auto).
      - intros (s & Hs & Hx). exists (rawOf s). split; [now apply in_map|].
        unfold rawOf. rewrite !in_app_iff, !rawField_In.
        simpl in Hx. intuition (subst; auto). }
  - intros x. rewrite (proj2 (sortedSet_spec _)), in_concat. split.
    + intros (l & Hl & Hx). apply in_map_iff in Hl as (s & <- & Hs).
      unfold numbersOf in Hx. rewrite !in_app_iff, !resolvedField_In in Hx.
      exists s. destruct Hx as [H|[H|H]]; eexists; (split; [exact Hs|]);
        (split; [|exact H]); simpl; auto.
    + intros (s & v & Hs & Hv & Hx). exists (numbersOf aliasMap s).
      split; [now apply in_map|].
      unfold numbersOf. rewrite !in_app_iff, !resolvedField_In.
      destruct Hv as [<-|[<-|[<-|[]]]]; auto.
  - intros x. rewrite (proj2 (sortedSet_spec _)), in_concat. split.
    + intros (l & Hl & Hx). apply in_map_iff in Hl as (s & <- & Hs).
      unfold speakersOf in Hx. rewrite !in_app_iff, !resolvedField_In in Hx.
      exists s. destruct Hx as [H|[H|H]].
      * exists (sourceName s). repeat split; simpl; auto.
      * exists (destinationName s). repeat split; simpl; auto.
      * apply in_concat in H as (l & Hl & Hx).
        apply in_map_iff in Hl as (name & <- & Hname).
        apply resolvedField_In in Hx.
        exists (Some name). repeat split; eauto.
    + intros (s & v & Hs & Hv & Hx). exists (speakersOf aliasMap s).
      split; [now apply in_map|].
      unfold speakersOf. rewrite !in_app_iff, !resolvedField_In.
      destruct Hv as [[<-|[<-|[]]]|(name & Hname & ->)]; auto.
      right. right. apply in_concat. exists (resolvedField aliasMap (Some name)).
      split; [|now apply resolvedField_In].
      apply in_map_iff. eauto.
Qed.

End DropdownProperties.

Section IdentityFilters.
Variable aliasMap : gmap (list N) (list N).

Lemma resolve_truthy v x :
  Directional.resolve aliasMap v = Some x -> truthy x = true.
Proof.
  unfold Directional.resolve. destruct v as [v|]; [|discriminate].
  destruct (truthy v) eqn:Ev; [|discriminate]. cbn [negb].
  destruct (aliasMap !! v) as [shown|].
  - destruct (truthy shown) eqn:Es; intros [= <-]; assumption.
  - intros [= <-]. assumption.
Qed.

Lemma member_resolve v (wanted : list jsstring) :
  Directional.member (Directional.resolve aliasMap v) wanted = true <->
  exists x, In x wanted /\ Directional.resolve aliasMap v = Some x.
Proof.
  unfold Directional.member.
  destruct (Directional.resolve aliasMap v) as [y|] eqn:E.
  - rewrite (resolve_truthy v y E). cbn [andb]. rewrite inList_In. split.
    + intros H. now exists y.
    + now intros (x & Hx & [= ->]).
  - split; [discriminate|]. now intros (x & _ & [=]).
Qed.

(** X27. The filters by number and the dropdown that feeds them. The
    filter by source number keeps a session exactly when no number is
    chosen or the source number of the session resolves to a chosen one,
    and so does the filter by destination number with the destination
    number. Every value that the source or the destination number of a
    stored session resolves to is an entry of the dropdown, so that every
    such session can be listed by choosing one entry. *)
Theorem number_filters_follow_dropdown sessions f s :
  (Directional.sourceNumberStage aliasMap f s = true <->
     Directional.f_sourceNumbers f = []
     \/ exists x, In x (Directional.f_sourceNumbers f)
                  /\ Directional.resolve aliasMap (sourceNumber s) = Some x)
  /\ (Directional.destNumberStage aliasMap f s = true <->
        Directional.f_destNumbers f = []
        \/ exists x, In x (Directional.f_destNumbers f)
                     /\ Directional.resolve aliasMap (destinationNumber s) = Some x)
  /\ (In s sessions ->
      forall x,
        Directional.resolve aliasMap (sourceNumber s) = Some x
        \/ Directional.resolve aliasMap (destinationNumber s) = Some x ->
        In x (allNumbers aliasMap sessions)).
Proof.
  split; [|split].
  - unfold Directional.sourceNumberStage.
    destruct (Directional.f_sourceNumbers f) as [|w l] eqn:E.
    + split; [now left|reflexivity].
    + rewrite member_resolve. split; [now right|]. now intros [[=]|H].
  - unfold Directional.destNumberStage.
    destruct (Directional.f_destNumbers f) as [|w l] eqn:E.
    + split; [now left|reflexivity].
    + rewrite member_resolve. split; [now right|]. now intros [[=]|H].
  - intros Hs x Hx. unfold allNumbers.
    apply (proj2 (sortedSet_spec _)), in_concat.
    exists (numbersOf aliasMap s). split; [now apply in_map|].
    unfold numbersOf. rewrite !in_app_iff, !resolvedField_In. tauto.
Qed.

(** X28. The filters by speaker. The filter by destination speaker keeps a
    session exactly when no speaker is chosen or the destination name or the
    destination number of the session resolves to a chosen entry. The filter
    by source speaker does the same with the source name and the source
    number, and keeps in addition a session whose content starts with a
    speaker line whose trimmed name resolves to a chosen entry: of the
    content it reads the first line only. *)
Theorem speaker_filters f s :
  (Directional.destSpeakerStage aliasMap f s = true <->
     Directional.f_destSpeakers f = []
     \/ exists x, In x (Directional.f_destSpeakers f)
                  /\ (Directional.resolve aliasMap (destinationName s) = Some x
                      \/ Directional.resolve aliasMap (destinationNumber s) = Some x))
  /\ (Directional.sourceSpeakerStage aliasMap f s = true <->
        Directional.f_sourceSpeakers f = []
        \/ exists x, In x (Directional.f_sourceSpeakers f)
                     /\ (Directional.resolve aliasMap (sourceName s) = Some x
                         \/ Directional.resolve aliasMap (sourceNumber s) = Some x
                         \/ exists name,
                              Directional.speakerPrefix
                                (hd [] (split 10 (content s))) = Some name
                              /\ Directional.resolve aliasMap (Some (trim name))
                                 = Some x)).
Proof.
  split.
  - unfold Directional.destSpeakerStage.
    destruct (Directional.f_destSpeakers f) as [|w l] eqn:E.
    + split; [now left|reflexivity].
    + rewrite orb_true_iff, !member_resolve. split.
      * intros [(x & Hx & H)|(x & Hx & H)]; right; exists x; auto.
      * intros [[=]|(x & Hx & [H|H])]; [left|right]; eauto.
  - unfold Directional.sourceSpeakerStage.
    destruct (Directional.f_sourceSpeakers f) as [|w l] eqn:E.
    + split; [now left|reflexivity].
    + cbv zeta. rewrite !orb_true_iff, !member_resolve.
      set (wanted := w :: l).
      assert (Hcontent :
                match Directional.speakerPrefix (hd [] (split 10 (content s))) with
                | Some name =>
                    match Directional.resolve aliasMap (Some (trim name)) with
                    | Some shown => inList shown wanted
                    | None => false
                    end
                | None => false
                end = true
                <-> exists x, In x wanted
                    /\ exists name,
                         Directional.speakerPrefix (hd [] (split 10 (content s)))
                         = Some name
                         /\ Directional.resolve aliasMap (Some (trim name)) = Some x).
      { destruct (Directional.speakerPrefix _) as [name|].
        - destruct (Directional.resolve aliasMap (Some (trim name)))
            as [shown|] eqn:Er.
          + rewrite inList_In. split.
            * intros H. exists shown. split; [assumption|]. now exists name.
            * intros (x & Hx & name' & [= <-] & Hr). congruence.
          + split; [discriminate|].
            intros (x & _ & name' & [= <-] & Hr). congruence.
        - split; [discriminate|]. now intros (x & _ & name' & [=] & _). }
      split.
      * intros [[(x & Hx & H)|(x & Hx & H)]|H].
        -- right. exists x. auto.
        -- right. exists x. auto.
        -- right.
           destruct (negb _ && negb _); [|discriminate].
           apply Hcontent in H as (x & Hx & H). exists x. auto.
      * intros [[=]|(x & Hx & [H|[H|H]])].
        -- left. left. eauto.
        -- left. right. eauto.
        -- destruct (Directional.member (Directional.resolve aliasMap (sourceName s)) wanted) eqn:E1.
           { apply member_resolve in E1. now left; left. }
           destruct (Directional.member (Directional.resolve aliasMap (sourceNumber s)) wanted) eqn:E2.
           { apply member_resolve in E2. now left; right. }
           right. cbn [negb andb]. apply Hcontent. eauto.
Qed.

End IdentityFilters.

(** ** Words that start as an operator does *)

Section OperatorLetters.
Context `{host : Host}.

Lemma letter_cases u c : letter u c = true -> c = u \/ c = (u + 32)%N.
Proof.
  unfold letter. intros H. apply orb_true_iff in H as [H|H];
    apply N.eqb_eq in H; auto.
Qed.

Lemma tokenize_one_plain w : isPlainTerm w = true -> tokenize w = [TERM w].
Proof.
  intros Hw. rewrite <- (app_nil_r w) at 1.
  now rewrite tokenize_plain, tokenize_nil.
Qed.

Lemma tokenize_after_op (op : opname) (word w : jsstring) c :
  word = c :: List.tl word ->
  isDoubleQuote c = false ->
  matchOp (word ++ w) = Some (op, w) ->
  isPlainTerm w = true ->
  tokenize (word ++ w) = [OP op; TERM w].
Proof.
  intros Hword Hq Hop Hw. rewrite Hword in *. cbn [app] in *.
  rewrite (tokenize_op c _ op w Hq Hop). now rewrite tokenize_one_plain.
Qed.

(** X29. The operator words are recognised wherever their letters stand,
    in either case, also at the start of a longer word. A bare word made of
    the letters of AND followed by a plain term is read as the operator and
    the term, and is false on every content; with the letters of OR it is
    read as the term alone; with the letters of NOT it is read as the
    negation of the term. *)
Theorem operator_letters_split_a_word content w (x y z : N) :
  isPlainTerm w = true ->
  (letter 65 x = true -> letter 78 y = true -> letter 68 z = true ->
   evaluateBooleanQuery content (x :: y :: z :: w) = Ret false)
  /\ (letter 79 x = true -> letter 82 y = true ->
      evaluateBooleanQuery content (x :: y :: w) =
      Ret (matches (normalizeText content) w))
  /\ (letter 78 x = true -> letter 79 y = true -> letter 84 z = true ->
      evaluateBooleanQuery content (x :: y :: z :: w) =
      Ret (negb (matches (normalizeText content) w))).
Proof.
  intros Hw. split; [|split].
  - intros Hx Hy Hz. unfold evaluateBooleanQuery, finalEvalStack.
    assert (Htok : tokenize (x :: y :: z :: w) = [OP AND; TERM w]).
    { apply (tokenize_after_op AND [x; y; z] w x); try assumption;
        try reflexivity;
        apply letter_cases in Hx as [-> | ->], Hy as [-> | ->], Hz as [-> | ->];
        reflexivity. }
    rewrite (isBlank_false _ x).
    2:{ now left. }
    2:{ apply letter_cases in Hx as [-> | ->]; reflexivity. }
    rewrite Htok. change (toPostfix [OP AND; TERM w]) with [TERM w; OP AND].
    cbn [evalQueue evalToken]. rewrite matchTerm_matches. reflexivity.
  - intros Hx Hy. unfold evaluateBooleanQuery, finalEvalStack.
    assert (Htok : tokenize (x :: y :: w) = [OP OR; TERM w]).
    { apply (tokenize_after_op OR [x; y] w x); try assumption;
        try reflexivity;
        apply letter_cases in Hx as [-> | ->], Hy as [-> | ->];
        reflexivity. }
    rewrite (isBlank_false _ x).
    2:{ now left. }
    2:{ apply letter_cases in Hx as [-> | ->]; reflexivity. }
    rewrite Htok. change (toPostfix [OP OR; TERM w]) with [TERM w; OP OR].
    cbn [evalQueue evalToken]. rewrite matchTerm_matches. reflexivity.
  - intros Hx Hy Hz. unfold evaluateBooleanQuery, finalEvalStack.
    assert (Htok : tokenize (x :: y :: z :: w) = [OP NOT; TERM w]).
    { apply (tokenize_after_op NOT [x; y; z] w x); try assumption;
        try reflexivity;
        apply letter_cases in Hx as [-> | ->], Hy as [-> | ->], Hz as [-> | ->];
        reflexivity. }
    rewrite (isBlank_false _ x).
    2:{ now left. }
    2:{ apply letter_cases in Hx as [-> | ->]; reflexivity. }
    rewrite Htok. change (toPostfix [OP NOT; TERM w]) with [TERM w; OP NOT].
    cbn [evalQueue evalToken]. rewrite matchTerm_matches. reflexivity.
Qed.

End OperatorLetters.

(** ** The filter by legal reference *)

Section LegalStage.
Variable legalReferences : list Legal.LegalReference.

Lemma labelOf_Some id label :
  Legal.labelOf legalReferences id = Some label ->
  exists r, In r legalReferences /\ Legal.ref_id r = id /\ Legal.ref_label r = label.
Proof.
  unfold Legal.labelOf.
  destruct (List.find _ legalReferences) as [r|] eqn:E; [|discriminate].
  intros [= <-]. apply List.find_some in E as [Hin Hid].
  apply eqs_eq in Hid. eauto.
Qed.

Lemma labelOf_None id :
  (forall r, In r legalReferences -> Legal.ref_id r <> id) ->
  Legal.labelOf legalReferences id = None.
Proof.
  intros H. unfold Legal.labelOf.
  destruct (List.find _ legalReferences) as [r|] eqn:E; [|reflexivity].
  apply List.find_some in E as [Hin Hid]. apply eqs_eq in Hid.
  now apply H in Hin.
Qed.

(** X30. The filter by legal reference, of each of the three kinds. With
    no label chosen it keeps every session. With labels chosen it keeps a
    session exactly when some id linked to the session belongs to a
    reference that carries a chosen label; the label of an id is that of the
    first reference with this id. A session that has no list of links is
    not kept, and an id whose reference is no longer in the list of
    references counts for nothing. *)
Theorem legalStage_keeps wanted s :
  (Legal.legalStage legalReferences wanted s = true <->
     wanted = []
     \/ (legalReferenceIds s <> None
         /\ exists label id,
              In label wanted /\ In id (Legal.linkedIds s)
              /\ Legal.labelOf legalReferences id = Some label))
  /\ (forall id label,
        Legal.labelOf legalReferences id = Some label ->
        exists r, In r legalReferences /\ Legal.ref_id r = id
                  /\ Legal.ref_label r = label)
  /\ (forall id,
        (forall r, In r legalReferences -> Legal.ref_id r <> id) ->
        Legal.labelOf legalReferences id = None).
Proof.
  split; [|split; [apply labelOf_Some|apply labelOf_None]].
  unfold Legal.legalStage, Legal.linkedIds.
  destruct wanted as [|w l]; [split; [now left|reflexivity]|].
  set (wanted := w :: l).
  destruct (legalReferenceIds s) as [ids|].
  - rewrite existsb_exists. split.
    + intros (label & Hlabel & H). right. split; [discriminate|].
      apply existsb_exists in H as ([x|] & Hx & Heq); [|discriminate].
      apply eqs_eq in Heq. subst x.
      apply in_map_iff in Hx as (id & Hid & Hin). eauto.
    + intros [[=]|(_ & label & id & Hlabel & Hid & Hl)].
      exists label. split; [assumption|]. apply existsb_exists.
      exists (Some label). split; [|apply eqs_refl].
      rewrite <- Hl. now apply in_map.
  - split; [discriminate|]. intros [[=]|(H & _)]. now contradiction H.
Qed.

End LegalStage.
(** ** The reference host obeys the laws *)

Module RefHostLaws.
Import RefHost.

Lemma lower_cp_scalar c : isScalar c = true -> isScalar (lower_cp c) = true.
Proof.
  unfold isScalar, lower_cp. intros H.
  repeat match goal with
         | |- context [if ?b then _ else _] => destruct b eqn:?
         end; nbool; lia.
Qed.

Lemma lower_cp_idempotent c : lower_cp (lower_cp c) = lower_cp c.
Proof.
  unfold lower_cp.
  destruct (inRange 65 90 c) eqn:E1;
    [|destruct (inRange 192 222 c && negb (c =? 215)%N) eqn:E2;
      [|destruct (inRange 66560 66599 c) eqn:E3]].
  - assert (H1 : inRange 65 90 (c + 32) = false) by (nbool; lia).
    assert (H2 : inRange 192 222 (c + 32) = false) by (nbool; lia).
    assert (H3 : inRange 66560 66599 (c + 32) = false) by (nbool; lia).
    now rewrite H1, H2, H3.
  - assert (H1 : inRange 65 90 (c + 32) = false) by (nbool; lia).
    assert (H2 : inRange 192 222 (c + 32) = false) by (nbool; lia).
    assert (H3 : inRange 66560 66599 (c + 32) = false) by (nbool; lia).
    now rewrite H1, H2, H3.
  - assert (H1 : inRange 65 90 (c + 40) = false) by (nbool; lia).
    assert (H2 : inRange 192 222 (c + 40) = false) by (nbool; lia).
    assert (H3 : inRange 66560 66599 (c + 40) = false) by (nbool; lia).
    now rewrite H1, H2, H3.
  - now rewrite E1, E2, E3.
Qed.

Lemma lookupN_In {A} k (v : A) l : lookupN k l = Some v -> In (k, v) l.
Proof.
  induction l as [|[k' v'] l IH]; [discriminate|]. simpl.
  destruct (N.eqb_spec k k') as [->|_].
  - intros [= ->]. now left.
  - intros H. right. now apply IH.
Qed.

(** The keys of the table are capital letters with a lowercase form, its
    bases capital letters of Basic Latin, its marks combining marks. *)
Lemma latin1Decompositions_entry k b m :
  lookupN k latin1Decompositions = Some (b, m) ->
  (192 <= k <= 221 /\ k <> 215 /\ 65 <= b <= 89 /\ 768 <= m <= 807)%N.
Proof.
  intros H. apply lookupN_In in H.
  assert (Hall : forallb (fun e : N * (N * N) =>
                            let '(k, (b, m)) := e in
                            inRange 192 221 k && negb (k =? 215)%N
                            && inRange 65 89 b && inRange 768 807 m)
                         latin1Decompositions = true) by reflexivity.
  rewrite forallb_forall in Hall. specialize (Hall _ H). cbv beta iota in Hall.
  nbool. lia.
Qed.

Lemma decompose_cp_shape c :
  decompose_cp c = [c]
  \/ exists b m, decompose_cp c = [b; m] /\ (768 <= m <= 807)%N
       /\ ((224 <= c <= 255 /\ 97 <= b <= 121)%N
           \/ (192 <= c <= 221 /\ c <> 215 /\ 65 <= b <= 89)%N).
Proof.
  unfold decompose_cp.
  destruct (c =? 255)%N eqn:E255.
  { right. exists 121%N, 776%N. nbool. split; [reflexivity|]. lia. }
  destruct (inRange 224 254 c) eqn:E.
  - destruct (lookupN (c - 32) latin1Decompositions) as [[b m]|] eqn:El;
      [|now left].
    apply latin1Decompositions_entry in El. right. exists (b + 32)%N, m.
    nbool. split; [reflexivity|]. lia.
  - destruct (lookupN c latin1Decompositions) as [[b m]|] eqn:El; [|now left].
    apply latin1Decompositions_entry in El. right. exists b, m.
    split; [reflexivity|]. lia.
Qed.

Lemma decompose_cp_outside c : (c < 192 \/ 255 < c)%N -> decompose_cp c = [c].
Proof.
  intros Hc. destruct (decompose_cp_shape c) as [H|(b & m & _ & _ & H)];
    [exact H|lia].
Qed.

Lemma decompose_cp_twice c :
  List.concat (List.map decompose_cp (decompose_cp c)) = decompose_cp c.
Proof.
  destruct (decompose_cp_shape c) as [H|(b & m & H & Hm & Hb)]; rewrite H.
  - cbn [List.map List.concat]. now rewrite H, app_nil_r.
  - cbn [List.map List.concat].
    rewrite (decompose_cp_outside b), (decompose_cp_outside m) by lia.
    reflexivity.
Qed.

Lemma decompose_cp_scalar c :
  isScalar c = true -> forallb isScalar (decompose_cp c) = true.
Proof.
  intros Hc. destruct (decompose_cp_shape c) as [H|(b & m & H & Hm & Hb)];
    rewrite H; cbn [forallb].
  - now rewrite Hc.
  - assert (H1 : isScalar b = true) by (unfold isScalar; nbool; lia).
    assert (H2 : isScalar m = true) by (unfold isScalar; nbool; lia).
    now rewrite H1, H2.
Qed.

Lemma lower_cp_small c : (97 <= c <= 121 \/ 768 <= c <= 807)%N -> lower_cp c = c.
Proof.
  intros Hc. unfold lower_cp.
  assert (H1 : inRange 65 90 c = false) by (nbool; lia).
  assert (H2 : inRange 192 222 c = false) by (nbool; lia).
  assert (H3 : inRange 66560 66599 c = false) by (nbool; lia).
  now rewrite H1, H2, H3.
Qed.

Lemma lower_cp_capital c : (192 <= c <= 221)%N -> c <> 215%N -> lower_cp c <> c.
Proof.
  intros Hc Hne. unfold lower_cp.
  assert (H1 : inRange 65 90 c = false) by (nbool; lia).
  assert (H2 : inRange 192 222 c && negb (c =? 215)%N = true) by (nbool; lia).
  rewrite H1, H2. lia.
Qed.

Lemma decompose_cp_lowercase c :
  lower_cp c = c -> List.map lower_cp (decompose_cp c) = decompose_cp c.
Proof.
  intros Hc.
  destruct (decompose_cp_shape c) as [H|(b & m & H & Hm & [Hb|Hb])]; rewrite H.
  - cbn [List.map]. now rewrite Hc.
  - cbn [List.map]. now rewrite !lower_cp_small by lia.
  - exfalso. now apply (lower_cp_capital c).
Qed.

Lemma map_fixed {A} (f : A -> A) (l : list A) :
  List.map f l = l -> Forall (fun x => f x = x) l.
Proof.
  induction l as [|x l IH]; [constructor|].
  cbn [List.map]. intros [= Hx Hl]. constructor; auto.
Qed.

Lemma map_fixed_filter {A} (f : A -> A) (q : A -> bool) (l : list A) :
  List.map f l = l -> List.map f (List.filter q l) = List.filter q l.
Proof.
  induction l as [|x l IH]; [reflexivity|].
  cbn [List.map List.filter]. intros [= Hx Hl].
  destruct (q x); cbn [List.map]; rewrite ?Hx, IH; auto.
Qed.

Lemma decompose_length c : 1 <= length (decompose_cp c).
Proof.
  destruct (decompose_cp_shape c) as [H|(b & m & H & _)]; rewrite H; simpl; lia.
Qed.

Lemma concat_decompose_length l :
  length l <= length (List.concat (List.map decompose_cp l)).
Proof.
  induction l as [|c l IH]; [simpl; lia|].
  cbn [List.map List.concat]. rewrite length_app.
  pose proof (decompose_length c). simpl. lia.
Qed.

Lemma decomposed_fixed l :
  List.concat (List.map decompose_cp l) = l ->
  Forall (fun c => decompose_cp c = [c]) l.
Proof.
  induction l as [|c l IH]; [constructor|].
  cbn [List.map List.concat]. intros H.
  pose proof (concat_decompose_length l) as Hlen.
  destruct (decompose_cp_shape c) as [Hc|(b & m & Hc & _)]; rewrite Hc in H.
  - injection H as H. constructor; auto.
  - exfalso. apply (f_equal (@length N)) in H.
    cbn [app] in H. simpl in H. lia.
Qed.

Lemma decomposed_filter (q : N -> bool) l :
  List.concat (List.map decompose_cp l) = l ->
  List.concat (List.map decompose_cp (List.filter q l)) = List.filter q l.
Proof.
  intros H. apply decomposed_fixed in H.
  induction H as [|c l Hc _ IH]; [reflexivity|].
  cbn [List.filter]. destruct (q c); [|exact IH].
  cbn [List.map List.concat]. now rewrite Hc, IH.
Qed.

Lemma decomposes_false c : decomposes c = false <-> decompose_cp c = [c].
Proof.
  unfold decomposes.
  destruct (decompose_cp_shape c) as [H|(b & m & H & _)]; rewrite H.
  - rewrite N.eqb_refl. easy.
  - split; discriminate.
Qed.

Lemma fullyDecomposed_fixed l :
  fullyDecomposed l = true <-> List.concat (List.map decompose_cp l) = l.
Proof.
  unfold fullyDecomposed. split.
  - induction l as [|c l IH]; [reflexivity|]. cbn [forallb List.map List.concat].
    intros H. apply andb_true_iff in H as [Hc Hl].
    apply negb_true_iff, decomposes_false in Hc. now rewrite Hc, IH.
  - intros H. apply decomposed_fixed in H. apply forallb_forall.
    rewrite List.Forall_forall in H. intros c Hc.
    apply negb_true_iff, decomposes_false. now apply H.
Qed.

(** *** The canonical ordering algorithm *)

Lemma pushMark_perm c l : Permutation (c :: l) (pushMark c l).
Proof.
  induction l as [|d l IH]; cbn [pushMark]; [reflexivity|].
  destruct ((0 <? ccc d) && (ccc d <? ccc c))%N; [|reflexivity].
  rewrite perm_swap. now apply perm_skip.
Qed.

Lemma canonicalOrder_perm l : Permutation l (canonicalOrder l).
Proof.
  induction l as [|c l IH]; cbn [canonicalOrder fold_right]; [reflexivity|].
  rewrite <- pushMark_perm. now apply perm_skip.
Qed.

Lemma canonicalOrder_Forall (P : N -> Prop) l :
  Forall P l -> Forall P (canonicalOrder l).
Proof.
  rewrite !List.Forall_forall. intros H x Hx. apply H.
  eapply Permutation_in; [symmetry; apply canonicalOrder_perm|exact Hx].
Qed.

Lemma canonicalOrder_length l : length (canonicalOrder l) = length l.
Proof. symmetry. apply Permutation_length, canonicalOrder_perm. Qed.

Lemma canonicallyOrdered_cons a b l :
  canonicallyOrdered (a :: b :: l)
  = canonicalPair a b && canonicallyOrdered (b :: l).
Proof. reflexivity. Qed.

Lemma canonicalPair_spec a b :
  canonicalPair a b = true <-> (ccc b = 0 \/ ccc a <= ccc b)%N.
Proof. unfold canonicalPair. cbn [uc_ccc refData]. nbool. reflexivity. Qed.

Lemma pushMark_test c d :
  ((0 <? ccc d) && (ccc d <? ccc c))%N = true
  <-> (0 < ccc d /\ ccc d < ccc c)%N.
Proof. nbool. reflexivity. Qed.

Lemma pushMark_ordered c l :
  canonicallyOrdered l = true -> canonicallyOrdered (pushMark c l) = true.
Proof.
  induction l as [|d l IH]; intros Hord; [reflexivity|].
  cbn [pushMark].
  destruct ((0 <? ccc d) && (ccc d <? ccc c))%N eqn:E.
  - apply pushMark_test in E.
    pose proof (canonicallyOrdered_tail _ _ Hord) as Hl.
    specialize (IH Hl).
    destruct l as [|e l]; cbn [pushMark] in *.
    + rewrite canonicallyOrdered_cons. apply andb_true_iff.
      split; [|reflexivity]. apply canonicalPair_spec. lia.
    + rewrite canonicallyOrdered_cons in Hord.
      apply andb_true_iff in Hord as [Hde _].
      destruct ((0 <? ccc e) && (ccc e <? ccc c))%N.
      * rewrite canonicallyOrdered_cons. apply andb_true_iff.
        split; assumption.
      * rewrite canonicallyOrdered_cons. apply andb_true_iff.
        split; [|exact IH]. apply canonicalPair_spec. lia.
  - rewrite canonicallyOrdered_cons. apply andb_true_iff.
    split; [|exact Hord]. apply canonicalPair_spec.
    destruct (N.eq_dec (ccc d) 0%N) as [H0|H0]; [now left|right].
    destruct (N.le_gt_cases (ccc c) (ccc d)) as [Hle|Hgt]; [exact Hle|].
    exfalso. assert (Ht : (0 < ccc d /\ ccc d < ccc c)%N) by lia.
    apply pushMark_test in Ht. congruence.
Qed.

Lemma canonicalOrder_ordered l : canonicallyOrdered (canonicalOrder l) = true.
Proof.
  induction l as [|c l IH]; [reflexivity|].
  cbn [canonicalOrder fold_right]. now apply pushMark_ordered.
Qed.

Lemma pushMark_fixed c l :
  canonicallyOrdered (c :: l) = true -> pushMark c l = c :: l.
Proof.
  destruct l as [|d l]; [reflexivity|].
  rewrite canonicallyOrdered_cons. cbn [pushMark].
  intros H. apply andb_true_iff in H as [Hcd _].
  apply canonicalPair_spec in Hcd.
  destruct ((0 <? ccc d) && (ccc d <? ccc c))%N eqn:E; [|reflexivity].
  apply pushMark_test in E. lia.
Qed.

Lemma canonicalOrder_fixed l :
  canonicallyOrdered l = true -> canonicalOrder l = l.
Proof.
  induction l as [|c l IH]; intros Hord; [reflexivity|].
  cbn [canonicalOrder fold_right]. fold (canonicalOrder l).
  rewrite IH by now apply canonicallyOrdered_tail in Hord.
  now apply pushMark_fixed.
Qed.

(** Every code point of a decomposition is its own decomposition. *)
Lemma decompose_cp_parts l :
  Forall (fun d => decompose_cp d = [d]) (List.concat (List.map decompose_cp l)).
Proof.
  induction l as [|c l IH]; [constructor|].
  cbn [List.map List.concat]. apply List.Forall_app. split; [|exact IH].
  destruct (decompose_cp_shape c) as [H|(b & m & H & Hm & Hb)]; rewrite H.
  - now repeat constructor.
  - repeat constructor; apply decompose_cp_outside; lia.
Qed.

Lemma concat_decompose_fixed l :
  Forall (fun d => decompose_cp d = [d]) l ->
  List.concat (List.map decompose_cp l) = l.
Proof.
  induction 1 as [|c l Hc _ IH]; [reflexivity|].
  cbn [List.map List.concat]. now rewrite Hc, IH.
Qed.

Lemma concat_decompose_same_length l :
  length (List.concat (List.map decompose_cp l)) = length l ->
  List.concat (List.map decompose_cp l) = l.
Proof.
  induction l as [|c l IH]; [reflexivity|].
  cbn [List.map List.concat]. rewrite length_app. intros H.
  pose proof (concat_decompose_length l) as Hlen.
  destruct (decompose_cp_shape c) as [Hc|(b & m & Hc & _)]; rewrite Hc in *.
  - cbn [app]. f_equal. apply IH. simpl in H. lia.
  - exfalso. simpl in H. lia.
Qed.

Lemma combining_class_of_marks c :
  isCombiningMark c = true -> c <> 847%N -> (0 < ccc c)%N.
Proof.
  intros Hc Hne. unfold isCombiningMark in Hc.
  assert (Hall : forallb (fun k => (768 + k =? 847) || (0 <? ccc (768 + k)))%N
                         (List.map N.of_nat (seq 0 112)) = true)
    by (vm_compute; reflexivity).
  rewrite forallb_forall in Hall.
  specialize (Hall (c - 768)%N).
  replace (768 + (c - 768))%N with c in Hall by (nbool; lia).
  assert (Hin : In (c - 768)%N (List.map N.of_nat (seq 0 112))).
  { apply in_map_iff. exists (N.to_nat (c - 768)). split; [lia|].
    apply in_seq. nbool. lia. }
  apply Hall in Hin. apply orb_true_iff in Hin as [H|H]; nbool; lia.
Qed.

Lemma lower_cp_joiner c : lower_cp c = 847%N -> c = 847%N.
Proof.
  unfold lower_cp.
  repeat match goal with
         | |- context [if ?b then _ else _] => destruct b eqn:?
         end; nbool; lia.
Qed.

Lemma decompose_cp_joiner c : In 847%N (decompose_cp c) -> c = 847%N.
Proof.
  destruct (decompose_cp_shape c) as [H|(b & m & H & Hm & Hb)]; rewrite H.
  - intros [Hc|[]]. now symmetry.
  - intros [Hc|[Hc|[]]]; lia.
Qed.

(** The reference host with canonical ordering obeys the laws. *)
Lemma orderingHost_laws : @UnicodeLaws orderingHost refData.
Proof.
  constructor; cbn [uc_toLowercase uc_NFD orderingHost].
  - intros l. induction l as [|c l IH]; [reflexivity|].
    cbn [forallb List.map]. intros H. apply andb_true_iff in H as [Hc Hl].
    now rewrite lower_cp_scalar, IH.
  - intros l H. apply forallb_forall. apply List.Forall_forall.
    apply canonicalOrder_Forall. apply List.Forall_forall. apply forallb_forall.
    induction l as [|c l IH]; [reflexivity|].
    cbn [forallb List.map List.concat] in *.
    apply andb_true_iff in H as [Hc Hl].
    rewrite forallb_app, decompose_cp_scalar, IH by assumption. reflexivity.
  - intros l _. rewrite List.map_map. apply List.map_ext.
    intros c. apply lower_cp_idempotent.
  - intros l _.
    rewrite (concat_decompose_fixed (canonicalOrder _)).
    + apply canonicalOrder_fixed, canonicalOrder_ordered.
    + apply canonicalOrder_Forall, decompose_cp_parts.
  - intros l _ H. apply map_fixed in H.
    assert (Hall : Forall (fun x => lower_cp x = x)
                     (canonicalOrder (List.concat (List.map decompose_cp l)))).
    { apply canonicalOrder_Forall.
      induction H as [|c l Hc _ IH]; [constructor|].
      cbn [List.map List.concat]. apply List.Forall_app. split; [|exact IH].
      apply map_fixed. now apply decompose_cp_lowercase. }
    induction Hall as [|x m Hx _ IH]; [reflexivity|].
    cbn [List.map]. now rewrite Hx, IH.
  - intros l _. apply map_fixed_filter.
  - intros l _. rewrite fullyDecomposed_fixed. split.
    + intros H.
      assert (Hdec : List.concat (List.map decompose_cp l) = l).
      { apply concat_decompose_same_length.
        rewrite <- (canonicalOrder_length (List.concat _)). now rewrite H. }
      split; [exact Hdec|]. rewrite Hdec in H. rewrite <- H.
      apply canonicalOrder_ordered.
    + intros [Hdec Hord]. rewrite Hdec. now apply canonicalOrder_fixed.
  - intros c. apply combining_class_of_marks.
  - intros l _ H. apply in_map_iff in H as (c & Hc & Hin).
    apply lower_cp_joiner in Hc. now subst.
  - intros l _ H.
    eapply Permutation_in in H; [|symmetry; apply canonicalOrder_perm].
    apply in_concat in H as (d & Hd & Hin).
    apply in_map_iff in Hd as (c & <- & Hc).
    apply decompose_cp_joiner in Hin. now subst.
Qed.

End RefHostLaws.

(** * The properties on the reference host *)

Import RefHost.

(** C1, the claim as stated fails: on the content [a] the query [a b]
    leaves two values on the evaluation stack, true for [a] at the bottom and
    false for [b] on top, and the evaluator answers true, the bottom. *)
Lemma bottom_of_stack_not_top :
  finalEvalStack (str "a") (str "a b") = Ret [true; false]
  /\ last [true; false] = Some false
  /\ evaluateBooleanQuery (str "a") (str "a b") = Ret true.
Proof. repeat split; vm_compute; reflexivity. Qed.

(** C2, the claim as stated fails: the content [carra] does not contain the
    quoted word [carro], which is at edit distance 1 from it, and the quoted
    query matches. *)
Lemma quoted_word_matches_fuzzily :
  includes (normalizeText (str "carra")) (normalizeText (str "carro")) = false
  /\ levenshtein (str "carra") (str "carro") = 1
  /\ evaluateBooleanQuery (str "carra") (quoted (str "carro")) = Ret true.
Proof. repeat split; vm_compute; reflexivity. Qed.

Lemma quoted_phrase_matches_witness :
  (includes (normalizeText (str "o caro amigo")) (normalizeText (str "carro"))
   = false
   /\ isPlainTerm (str "carro") = true
   /\ evaluateBooleanQuery (str "o caro amigo") (quoted (str "carro")) = Ret true
   /\ evaluateBooleanQuery (str "o caro amigo") (str "carro") =
      evaluateBooleanQuery (str "o caro amigo") (quoted (str "carro")))
  /\ (noSpace (normalizeText (str "carro azul")) = false
      /\ evaluateBooleanQuery (str "O carro azul") (quoted (str "carro azul")) =
         Ret (includes (normalizeText (str "O carro azul"))
                       (normalizeText (str "carro azul")))
      /\ evaluateBooleanQuery (str "O carra azul") (quoted (str "carro azul")) =
         Ret false)
  /\ (length (normalizeText (str "abc")) = 3
      /\ evaluateBooleanQuery (str "abd") (quoted (str "abc")) = Ret false).
Proof.
  split; [|split].
  - destruct (quoted_phrase_matches (str "o caro amigo") (str "carro")
                eq_refl eq_refl) as (_ & _ & Hfuzzy & Hplain).
    split; [reflexivity|]. split; [reflexivity|].
    split; [|exact (Hplain eq_refl)].
    destruct (Hfuzzy ltac:(vm_compute; lia) eq_refl) as (answer & Hret & Hiff).
    rewrite Hret. f_equal. apply Hiff. right.
    exists (str "caro"), 1.
    split; [vm_compute; tauto|]. split; [vm_compute; lia|].
    split; [|vm_compute; lia].
    replace 1 with (levenshtein (str "caro") (normalizeText (str "carro")))
      by reflexivity.
    apply levenshtein_is_levenshtein.
  - split; [reflexivity|]. split.
    + exact (proj1 (proj2 (quoted_phrase_matches (str "O carro azul")
                             (str "carro azul") eq_refl eq_refl))
               (or_introl eq_refl)).
    + exact (proj1 (proj2 (quoted_phrase_matches (str "O carra azul")
                             (str "carro azul") eq_refl eq_refl))
               (or_introl eq_refl)).
  - split; [reflexivity|].
    exact (proj1 (proj2 (quoted_phrase_matches (str "abd") (str "abc")
                           eq_refl eq_refl))
             (or_intror (le_n 3))).
Defined.

(** C3, the claim as stated fails: the term [abc], a tab, [d] has white
    space inside, is no substring of the content [abcd], and [matchTerm]
    answers true, since the tab is not the space character and the term is
    at distance 1 from the word [abcd]. *)
Lemma tab_inside_term_matches :
  includes (str "abcd") (normalizeText (str "abc" ++ [9%N] ++ str "d")) = false
  /\ isWhiteSpace 9 = true
  /\ fuzzyCondition noInternalWhiteSpace (str "abcd")
       (normalizeText (str "abc" ++ [9%N] ++ str "d")) = false
  /\ matchTerm (str "abcd") (str "abc" ++ [9%N] ++ str "d") = Ret true.
Proof. repeat split; vm_compute; reflexivity. Qed.

Lemma matchTerm_fuzzy_witness :
  includes (str "lisboa") (normalizeText (str "lisbao")) = false
  /\ matchTerm (str "lisboa") (str "lisbao") = Ret true.
Proof.
  split; [reflexivity|].
  destruct (matchTerm_fuzzy (host := refHost) (str "lisboa") (str "lisbao")
              eq_refl) as (answer & Hret & Hanswer & _).
  rewrite Hret, Hanswer. reflexivity.
Defined.

Lemma and_or_not_precedence_witness :
  evaluateBooleanQuery (str "joao falou com maria")
    (str "joao" ++ str " AND " ++ str "maria" ++ str " OR NOT " ++ str "pedro") =
  evaluateBooleanQuery (str "joao falou com maria")
    (str "(" ++ str "joao" ++ str " AND " ++ str "maria" ++ str ") OR (NOT "
     ++ str "pedro" ++ str ")").
Proof.
  exact (proj1 (and_or_not_precedence (str "joao falou com maria")
                  (str "joao") (str "maria") (str "pedro")
                  eq_refl eq_refl eq_refl)).
Defined.

Lemma duration_filter_rejects_sms_witness :
  type textMessage = SMS
  /\ Directional.keepSession ∅ (durationFilters "60" "") textMessage = Ret false
  /\ Legal.keepSession ∅ [] (legalDurationFilters "" "300") [] [] false ∅
       textMessage = false.
Proof.
  split; [reflexivity|].
  exact (proj2 (proj2 (duration_filter_rejects_sms ∅ []
                         (durationFilters "60" "") (legalDurationFilters "" "300")
                         [morningCall; textMessage; eveningCall] [] [] false ∅
                         eq_refl eq_refl))
           textMessage eq_refl).
Defined.

(** C6, on two calls of one day. The claim asks for the earlier call to
    come first in one of the two date orders. Both explorers return the two
    calls in the order they went in, in both date orders: the comparator of
    the directional explorer reads the dates alone, and the comparator of the
    explorer with legal references builds both time stamps from the start
    time of its first argument, so that it answers 0 as well. *)
Lemma date_order_ignores_start_time :
  date morningCall = date eveningCall
  /\ startTime morningCall = Some (str "09:00:00")
  /\ startTime eveningCall = Some (str "21:30:00")
  /\ Legal.compareSessions ∅ Directional.date_asc eveningCall morningCall = ofZ 0
  /\ Legal.compareSessions ∅ Directional.date_desc morningCall eveningCall = ofZ 0
  /\ Legal.sortedSessions ∅ Directional.date_asc [eveningCall; morningCall]
     = [eveningCall; morningCall]
  /\ Legal.sortedSessions ∅ Directional.date_desc [morningCall; eveningCall]
     = [morningCall; eveningCall]
  /\ Directional.sortedSessions ∅ Directional.date_asc [eveningCall; morningCall]
     = [eveningCall; morningCall]
  /\ Directional.sortedSessions ∅ Directional.date_desc [morningCall; eveningCall]
     = [morningCall; eveningCall].
Proof. repeat split; vm_compute; reflexivity. Qed.

(** C7, the claim as stated fails: between a high and a low surrogate a
    combining mark keeps the two apart; removing it forms the pair of a
    capital Deseret letter, which a second pass turns into its lowercase. *)
Lemma normalizeText_not_idempotent :
  normalizeText [55297; 769; 56320]%N = [55297; 56320]%N
  /\ normalizeText (normalizeText [55297; 769; 56320]%N) = [55297; 56360]%N
  /\ normalizeText (normalizeText [55297; 769; 56320]%N)
     <> normalizeText [55297; 769; 56320]%N.
Proof.
  split; [vm_compute; reflexivity|]. split; [vm_compute; reflexivity|].
  vm_compute. discriminate.
Qed.

(** C7 goes on failing for well-formed strings that hold a grapheme joiner.
    On the host with canonical ordering, the joiner keeps the two Hebrew
    points U+05B1 and U+05B0 in the order in which they were typed; once it
    is removed with the marks, a second pass puts them in canonical
    order. *)
Lemma normalizeText_joiner_not_idempotent :
  wellFormed [1457; 847; 1456]%N = true
  /\ @normalizeText orderingHost [1457; 847; 1456]%N = [1457; 1456]%N
  /\ @normalizeText orderingHost
       (@normalizeText orderingHost [1457; 847; 1456]%N) = [1456; 1457]%N.
Proof. repeat split; vm_compute; reflexivity. Qed.

(** The string Joao with a tilde, followed by a cedilla and by the two
    Hebrew points out of canonical order. *)
Lemma normalizeText_idempotent_witness :
  wellFormed [74; 111; 227; 111; 807; 1457; 1456]%N = true
  /\ @normalizeText orderingHost [74; 111; 227; 111; 807; 1457; 1456]%N
     = [106; 111; 97; 111; 1456; 1457]%N
  /\ @normalizeText orderingHost
       (@normalizeText orderingHost [74; 111; 227; 111; 807; 1457; 1456]%N)
     = @normalizeText orderingHost [74; 111; 227; 111; 807; 1457; 1456]%N.
Proof.
  split; [reflexivity|]. split; [vm_compute; reflexivity|].
  apply (@normalizeText_idempotent orderingHost refData
           RefHostLaws.orderingHost_laws).
  - reflexivity.
  - vm_compute. intuition discriminate.
Defined.

Lemma evaluateBooleanQuery_no_token_witness :
  tokenize [34; 34]%N = []
  /\ evaluateBooleanQuery (str "qualquer conversa") [34; 34]%N = Ret false
  /\ tokenize (str "   ") = []
  /\ evaluateBooleanQuery (str "qualquer conversa") (str "   ") = Ret true
  /\ evaluateBooleanQuery (str "qualquer conversa") [9; 10; 160]%N = Ret true
  /\ evaluateBooleanQuery (str "qualquer conversa") [] = Ret true.
Proof.
  pose proof (evaluateBooleanQuery_no_token (str "qualquer conversa")
                [34; 34]%N eq_refl) as (Hfalse & _ & Hwhite & _).
  split; [reflexivity|]. split; [exact Hfalse|].
  split; [exact (proj1 (proj2 (Hwhite (str "   ") eq_refl)))|].
  split; [exact (proj2 (proj2 (Hwhite (str "   ") eq_refl)))|].
  split; [exact (proj2 (proj2 (Hwhite [9; 10; 160]%N eq_refl)))|].
  exact (proj2 (proj2 (Hwhite [] eq_refl))).
Defined.

(** C10, the claim as stated fails: a call without a duration is rejected
    by a maximum duration alone when that maximum is negative. *)
Lemma negative_maximum_rejects :
  type callWithoutDuration = AUDIO
  /\ duration callWithoutDuration = None
  /\ Directional.f_minDuration (durationFilters "" "-1") = []
  /\ Directional.durationStage (durationFilters "" "-1") callWithoutDuration = false
  /\ Directional.keepSession ∅ (durationFilters "" "-1") callWithoutDuration
     = Ret false.
Proof. repeat split; vm_compute; reflexivity. Qed.

Lemma missing_duration_counts_zero_witness :
  parseDurationToSeconds (duration callWithoutDuration) = ofZ 0
  /\ Directional.keepSession ∅ (durationFilters "60" "") callWithoutDuration
     = Ret false.
Proof.
  pose proof (missing_duration_counts_zero ∅ (durationFilters "60" "")
                callWithoutDuration eq_refl eq_refl) as (Hzero & Hmin & _).
  split; [exact Hzero|].
  exact (proj2 (Hmin 60%Z eq_refl eq_refl)).
Defined.

(** * Instances of the further properties on the reference host *)

Lemma well_formed_query_meaning_witness :
  render 1 sampleQuery = str "joao AND (maria OR -pedro)"
  /\ evaluateBooleanQuery (str "joao falou com maria") (render 1 sampleQuery) =
     Ret (meaning (normalizeText (str "joao falou com maria")) sampleQuery).
Proof.
  split; [reflexivity|].
  exact (well_formed_query_meaning (str "joao falou com maria") sampleQuery 1
           eq_refl).
Defined.

Lemma second_operand_without_operator_ignored_witness :
  render 4 (ETerm (str "joao")) ++ str " " ++ render 1 (ENot true (ETerm (str "maria")))
  = str "joao -maria"
  /\ evaluateBooleanQuery (str "joao falou com maria")
       (render 4 (ETerm (str "joao")) ++ str " "
        ++ render 1 (ENot true (ETerm (str "maria")))) =
     Ret (meaning (normalizeText (str "joao falou com maria")) (ETerm (str "joao"))).
Proof.
  split; [reflexivity|].
  exact (second_operand_without_operator_ignored (str "joao falou com maria")
           (ETerm (str "joao")) (ENot true (ETerm (str "maria"))) 1
           eq_refl eq_refl).
Defined.

Lemma unbalanced_parenthesis_witness :
  evaluateBooleanQuery (str "joao falou com maria")
    (str "(" ++ render 1 (ETerm (str "joao"))) = Ret false
  /\ evaluateBooleanQuery (str "joao falou com maria")
       (render 1 (ETerm (str "joao")) ++ str ")") =
     Ret (meaning (normalizeText (str "joao falou com maria")) (ETerm (str "joao"))).
Proof.
  exact (unbalanced_parenthesis (str "joao falou com maria")
           (ETerm (str "joao")) eq_refl).
Defined.

Lemma tokenize_terms_not_empty_witness :
  In (TERM (str "maria")) (tokenize (str "joao AND maria"))
  /\ str "maria" <> []
  /\ forallb (fun c => negb (isDoubleQuote c)) (str "maria") = true.
Proof.
  assert (H : In (TERM (str "maria")) (tokenize (str "joao AND maria")))
    by (vm_compute; auto).
  split; [exact H|].
  exact (tokenize_terms_not_empty (str "joao AND maria") (str "maria") H).
Defined.

Lemma doubled_negation_always_true_witness :
  evaluateBooleanQuery (str "nada a ver")
    ((if false then str "-" else str "NOT ")
     ++ (if false then str "-" else str "NOT ") ++ render 4 (ETerm (str "joao")))
  = Ret true.
Proof.
  exact (doubled_negation_always_true (str "nada a ver") false false
           (ETerm (str "joao")) eq_refl).
Defined.

Lemma isTimeInRange_minutes_witness :
  clock {| hour := 23; minute := 10 |} ++ str ":45" = str "23:10:45"
  /\ Directional.isTimeInRange
       (Some (clock {| hour := 23; minute := 10 |} ++ str ":45"))
       (clock {| hour := 22; minute := 0 |}) (clock {| hour := 6; minute := 0 |})
     = true.
Proof.
  split; [reflexivity|].
  exact (proj1 (isTimeInRange_minutes
                  {| hour := 23; minute := 10 |} {| hour := 22; minute := 0 |}
                  {| hour := 6; minute := 0 |} (str ":45")
                  (conj eq_refl eq_refl) (conj eq_refl eq_refl)
                  (conj eq_refl eq_refl))).
Defined.

Lemma appendSessions_unique_keys_witness :
  List.NoDup (List.map sessionKey
                (appendSessions [eveningCall; morningCall; textMessage]
                                [morningCall])).
Proof.
  refine (proj1 (appendSessions_unique_keys
                   [eveningCall; morningCall; textMessage] [morningCall] _ _)).
  - apply NoDup_ListNoDup. apply (bool_decide_unpack _). vm_compute. exact I.
  - apply NoDup_ListNoDup. apply (bool_decide_unpack _). vm_compute. exact I.
Defined.

Lemma linkLegalReference_links_witness :
  Forall2 (fun s s' =>
             if bool_decide (sessionId s ∈ ({[ str "S1" ]} : gset (list N))) then
               exists ids,
                 s' = Legal.withLegalReferenceIds s ids
                 /\ List.NoDup ids
                 /\ forall id, In id ids <-> In id (Legal.linkedIds s) \/ In id [str "R1"]
             else s' = s)
          [morningCall; textMessage]
          (Legal.linkLegalReference {[ str "S1" ]} [str "R1"]
             [morningCall; textMessage]).
Proof.
  apply (linkLegalReference_links {[ str "S1" ]} [str "R1"]
           [morningCall; textMessage]).
  discriminate.
Defined.

Lemma linkLegalReference_then_filter_witness :
  exists s',
    In s' (Legal.linkLegalReference {[ str "S1" ]} [str "R1"]
             [morningCall; textMessage])
    /\ sessionId s' = sessionId morningCall
    /\ Legal.legalStage [sampleReference] [str "Art. 21"] s' = true.
Proof.
  apply (linkLegalReference_then_filter [sampleReference] {[ str "S1" ]}
           [str "R1"] [morningCall; textMessage] (str "R1") (str "Art. 21")
           morningCall).
  - reflexivity.
  - now left.
  - now left.
  - apply elem_of_singleton. reflexivity.
Defined.

Lemma link_then_unlink_witness :
  Forall2 (fun s s' => s' = s
                       \/ (sessionId s = str "S1" /\ legalReferenceIds s = None
                           /\ s' = Legal.withLegalReferenceIds s []))
          [morningCall; textMessage]
          (Legal.unlinkLegalReference (str "S1") (str "R1")
             (Legal.linkLegalReference {[ str "S1" ]} [str "R1"]
                [morningCall; textMessage])).
Proof.
  apply (link_then_unlink (str "S1") (str "R1") [morningCall; textMessage]).
  intros s [<-|[<-|[]]] _; (split; [constructor|simpl; tauto]).
Defined.

Lemma saved_tag_lists_again_witness :
  exists result savedTags',
    Directional.filteredSessions ∅ [morningCall; textMessage; eveningCall]
      (durationFilters "60" "") [] [] false ∅ = Ret result
    /\ Directional.saveTag (str "1704448800000") (str "chamadas") []
         (Directional.sortedSessions ∅ Directional.date_desc result) []
       = Some savedTags'
    /\ Directional.filteredSessions ∅ [morningCall; textMessage; eveningCall]
         Directional.clearedFilters [str "1704448800000"] savedTags' false ∅
       = Ret result.
Proof.
  apply (saved_tag_lists_again ∅ (str "1704448800000") (str "chamadas")
           Directional.date_desc [morningCall; textMessage; eveningCall]
           (durationFilters "60" "") [] [] false ∅).
  - apply NoDup_ListNoDup. apply (bool_decide_unpack _). vm_compute. exact I.
  - reflexivity.
  - intros t [].
Defined.

Lemma operator_letters_split_a_word_witness :
  evaluateBooleanQuery (str "andre falou com maria") (str "andre") = Ret false.
Proof.
  exact (proj1 (operator_letters_split_a_word (str "andre falou com maria")
                  (str "re") 97 110 100 eq_refl)
           eq_refl eq_refl eq_refl).
Defined.

Lemma dropdown_entries_witness :
  (plainIdentities sampleAliases namedCall = true
   /\ plainIdentities sampleAliases morningCall = true)
  /\ resolveOnObject sampleAliases (sourceNumber namedCall)
     = Some (AString (str "Ana"))
  /\ allNumbers sampleAliases [namedCall; morningCall] = [str "9100"; str "Ana"]
  /\ allSpeakers sampleAliases [namedCall; morningCall] = [str "Joao"; str "Rui"]
  /\ (Sorted (fun a b => str_ltb a b = true)
        (allNumbers sampleAliases [namedCall; morningCall])
      /\ List.NoDup (allNumbers sampleAliases [namedCall; morningCall])).
Proof.
  assert (Hplain : forall s, In s [namedCall; morningCall] ->
                     plainIdentities sampleAliases s = true)
    by (intros s [<-|[<-|[]]]; vm_compute; reflexivity).
  destruct (dropdown_entries sampleAliases [namedCall; morningCall] Hplain)
    as (Hobject & Hnumbers & _).
  split; [split; vm_compute; reflexivity|].
  split.
  { rewrite (Hobject namedCall (sourceNumber namedCall));
      [vm_compute; reflexivity|now left|left; simpl; tauto]. }
  split; [vm_compute; reflexivity|]. split; [vm_compute; reflexivity|].
  exact Hnumbers.
Defined.
